(** * AIMS optimisation notebooks: L1-ball projection, Huber gradient,
      projected gradient descent and two-block ADMM

    A shallow embedding of the numerical kernels of [sudoku.ipynb] and
    [admm.ipynb], and of the Sudoku integer program of [sudoku.ipynb] (its
    constraints and the extraction of the solution; the solvers are
    parameters).  NumPy arrays of rank one are lists; Python exceptions an
    error monad.

    Numbers come in two readings.  The first part embeds the code over the
    exact rationals ([Q]): this is the algorithm the code implements, and
    the reading used where rounding only moves the last bits of a value.
    The module [Binary64] embeds the projector and the descent loop over
    IEEE binary64 floats, as NumPy runs them: there rounding decides which
    branch is taken and whether an index is found, and the statements about
    those are made on that module. *)

From Stdlib Require Import QArith Qabs Qminmax Lqa ZArith Lia List Bool.
From Stdlib Require Import Sorting.Permutation Sorting.Sorted.
From Stdlib Require Import Morphisms Setoid.
From Stdlib Require Reals Qreals RMicromega.
From Stdlib Require Import Floats.
From Stdlib Require Uint63.
Import ListNotations.

Local Open Scope Q_scope.

(** ** Python exceptions as an error monad *)

Inductive exn : Type :=
| IndexError    (* indexing an empty array with [-1] *)
| ValueError    (* operands could not be broadcast together *)
| SolverError   (* raised by the external convex solver *)
| MissingValue. (* arithmetic on a variable whose [.value] is [None] *)

Inductive result (A : Type) : Type :=
| Ok (a : A)
| Raise (e : exn).
Arguments Ok {A} a.
Arguments Raise {A} e.

Definition bind {A B : Type} (c : result A) (k : A -> result B) : result B :=
  match c with
  | Ok a => k a
  | Raise e => Raise e
  end.

Notation "x <- c ;; k" := (bind c (fun x => k))
  (at level 61, c at next level, right associativity).
Notation "' p <- c ;; k" := (bind c (fun x => let 'p := x in k))
  (at level 61, p pattern, c at next level, right associativity).

(** ** NumPy primitives on rank-one arrays *)

Definition vec : Type := list Q.

Definition Qlt_bool (a b : Q) : bool := negb (Qle_bool b a).

(** [np.sign]: -1, 0 or 1. *)
Definition np_sign (q : Q) : Q := inject_Z (Z.sgn (Qnum q)).

(** [arr.sum()] *)
Definition np_sum (l : vec) : Q := fold_right Qplus 0 l.

(** [np.abs] *)
Definition np_abs (l : vec) : vec := map Qabs l.

(** [np.linalg.norm(x, 1)] *)
Definition norm1 (l : vec) : Q := np_sum (np_abs l).

(** Element-wise binary operation on two arrays of one shape. *)
Fixpoint zip_with {A B C : Type} (f : A -> B -> C) (l1 : list A) (l2 : list B)
  : list C :=
  match l1, l2 with
  | a :: t1, b :: t2 => f a b :: zip_with f t1 t2
  | _, _ => []
  end.

(** [np.cumsum] *)
Fixpoint cumsum_from (acc : Q) (l : vec) : vec :=
  match l with
  | [] => []
  | a :: t => (acc + a) :: cumsum_from (acc + a) t
  end.

Definition np_cumsum (l : vec) : vec := cumsum_from 0 l.

(** [np.arange(n)] *)
Definition np_arange (n : nat) : list Z := map Z.of_nat (seq 0 n).

(** Boolean-mask indexing [arr[mask]]. *)
Fixpoint np_mask {A : Type} (l : list A) (mask : list bool) : list A :=
  match l, mask with
  | a :: t, b :: m => if b then a :: np_mask t m else np_mask t m
  | _, _ => []
  end.

(** [arr[-1]]: the last element, [IndexError] on an empty array. *)
Fixpoint np_last {A : Type} (l : list A) : result A :=
  match l with
  | [] => Raise IndexError
  | [a] => Ok a
  | _ :: t => np_last t
  end.

(** [np.sort]: ascending order (the result of any sorting algorithm;
    insertion sort here). *)
Fixpoint insert_sorted (a : Q) (l : vec) : vec :=
  match l with
  | [] => [a]
  | b :: t => if Qle_bool a b then a :: l else b :: insert_sorted a t
  end.

Definition np_sort (l : vec) : vec := fold_right insert_sorted [] l.

(** ** sudoku.ipynb: projection onto the L1 ball, in exact arithmetic

    (the rounded run is [Binary64.project_onto_l1_ball]) *)

(** The part of [project_onto_l1_ball] under the comment "Find the
    threshold": from the absolute values [u] it computes [rho] and [theta]. *)
Definition l1_threshold (u : vec) (N : Q) : result (Z * Q) :=
  let s    := rev (np_sort u) in
  let cssv := map (fun c => c - N) (np_cumsum s) in
  let ind  := map (fun i => (i + 1)%Z) (np_arange (length s)) in
  let cond := zip_with (fun a b => Qlt_bool 0 (a - b))
                s (zip_with (fun c i => c / inject_Z i) cssv ind) in
  rho <- np_last (np_mask ind cond) ;;
  c <- np_last (np_mask cssv cond) ;;
  Ok (rho, c / inject_Z rho).

Definition project_onto_l1_ball (x : vec) (N : Q) : result vec :=
  if Qle_bool (norm1 x) N then Ok x
  else
    let u := np_abs x in
    if Qle_bool (np_sum u) N then Ok x
    else
      '(_, theta) <- l1_threshold u N ;;
      Ok (zip_with Qmult (map np_sign x) (map (fun a => Qmax (a - theta) 0) u)).

(** ** sudoku.ipynb: the Huber gradient *)

(** A rank-two array of shape [(length rows, ncols)], stored by rows. *)
Record matrix : Type := { ncols : nat; rows : list vec }.

Definition wf_matrix (A : matrix) (m n : nat) : Prop :=
  length (rows A) = m /\ ncols A = n /\ Forall (fun r => length r = n) (rows A).

Definition dot (r x : vec) : Q := np_sum (zip_with Qmult r x).

(** [A @ x] for a matrix and a vector. *)
Definition matvec (A : matrix) (x : vec) : result vec :=
  if Nat.eqb (length x) (ncols A) then Ok (map (fun r => dot r x) (rows A))
  else Raise ValueError.

(** [A.T] *)
Definition transpose (A : matrix) : matrix :=
  {| ncols := length (rows A);
     rows := map (fun j => map (fun r => nth j r 0) (rows A)) (seq 0 (ncols A)) |}.

(** Element-wise binary operation with NumPy broadcasting of rank-one
    operands: equal shapes, or one operand of length one. *)
Definition broadcast2 (f : Q -> Q -> Q) (a b : vec) : result vec :=
  if Nat.eqb (length a) (length b) then Ok (zip_with f a b)
  else match a, b with
       | [a0], _ => Ok (map (f a0) b)
       | _, [b0] => Ok (map (fun ai => f ai b0) a)
       | _, _ => Raise ValueError
       end.

(** [np.where(c, a, b)] on three arrays of one shape. *)
Fixpoint np_where (c : list bool) (a b : vec) : vec :=
  match c, a, b with
  | ci :: c', ai :: a', bi :: b' => (if ci then ai else bi) :: np_where c' a' b'
  | _, _, _ => []
  end.

Definition huber_gradient (A : matrix) (x y : vec) : result vec :=
  Ax <- matvec A x ;;
  Ax_minus_y <- broadcast2 Qminus Ax y ;;
  let grad := np_where (map (fun r => Qle_bool (Qabs r) 1) Ax_minus_y)
                       (map (Qmult 2) Ax_minus_y)
                       (map (fun r => 2 * np_sign r) Ax_minus_y) in
  matvec (transpose A) grad.

(** ** sudoku.ipynb: projected gradient descent, in exact arithmetic

    (the rounded run is [Binary64.gradient_descent]) *)

(** The notebook's global [N = 10], read by [gradient_descent]. *)
Definition N : Q := 10.

Definition sum_squares (v : vec) : Q := np_sum (map (fun a => a * a) v).

(** [np.linalg.norm(v) < tol].  The Euclidean norm is the square root of
    [sum_squares v], so the comparison holds exactly when [tol] is positive
    and [sum_squares v < tol * tol] (lemma [norm2_lt_sqrt]). *)
Definition norm2_lt (v : vec) (tol : Q) : bool :=
  Qlt_bool 0 tol && Qlt_bool (sum_squares v) (tol * tol).

(** [range(n)] *)
Definition range (n : Z) : list Z := np_arange (Z.to_nat n).

(** The body of the [for] loop, run over the remaining indices [ks].  The
    second component of the result is what was printed: the index [k] of
    "Converged in k iterations", printed just before [break]. *)
Fixpoint gd_loop (radius : Q) (A : matrix) (y : vec) (step_size tolerance : Q)
    (x : vec) (ks : list Z) : result (vec * list Z) :=
  match ks with
  | [] => Ok (x, [])
  | k :: ks' =>
      grad <- huber_gradient A x y ;;
      x1 <- broadcast2 Qminus x (map (Qmult step_size) grad) ;;
      x2 <- project_onto_l1_ball x1 radius ;;
      if norm2_lt grad tolerance then Ok (x2, [k])
      else gd_loop radius A y step_size tolerance x2 ks'
  end.

Definition gradient_descent (A : matrix) (x y : vec)
    (step_size : Q) (max_iters : Z) (tolerance : Q) : result (vec * list Z) :=
  gd_loop N A y step_size tolerance x (range max_iters).

(** ** admm.ipynb *)

(** What a call of [Problem.solve] leaves behind: the problem's status and
    the value stored in the problem's variable ([None] when there is none). *)
Inductive solver_status : Type :=
| optimal | optimal_inaccurate | infeasible | unbounded.

Record solve_out : Type := { status : solver_status; value : option vec }.

Definition objective : Type := vec -> Q.

Definition get_value (o : option vec) : result vec :=
  match o with
  | Some v => Ok v
  | None => Raise MissingValue
  end.

(** The solver's state: the values of the two [cp.Variable]s, the dual
    array [y] and the list [residuals].  The list holds the squares of the
    recorded Euclidean norms. *)
Record admm_state : Type := {
  w_value : option vec;
  w_tilde_value : option vec;
  y_dual : vec;
  residuals : list Q
}.

(** [g = lambda w: cp.sum_squares(w) / 2] *)
Definition g (w : vec) : Q := sum_squares w / 2.

Section ADMM.
(** The random data [A], [b], the penalty [rho] (1.0 in the notebook)
    and the external solver (SCS through cvxpy), a black box from the
    objective it is given to what it leaves behind. *)
Variables (A : matrix) (b : vec) (rho : Q).
Variable solve : objective -> result solve_out.

(** [f = lambda w_tilde: cp.sum_squares(A @ w_tilde - b) / 2] *)
Definition f (w_tilde : vec) : Q :=
  sum_squares (zip_with Qminus (map (fun r => dot r w_tilde) (rows A)) b) / 2.

Definition w_tilde_obj (w : vec) (y : vec) : objective :=
  fun w_tilde =>
    f w_tilde
    + (rho / 2) * sum_squares
        (zip_with Qplus (zip_with Qminus w_tilde w) (map (fun a => a / rho) y)).

Definition w_obj (w_tilde : vec) (y : vec) : objective :=
  fun w =>
    g w
    + (rho / 2) * sum_squares
        (zip_with Qminus (zip_with Qminus w w_tilde) (map (fun a => a / rho) y)).

(** One pass through the loop body; the flag says whether [break] ran. *)
Definition admm_iteration (st : admm_state) : result (admm_state * bool) :=
  w <- get_value (w_value st) ;;
  out1 <- solve (w_tilde_obj w (y_dual st)) ;;
  w_tilde <- get_value (value out1) ;;
  out2 <- solve (w_obj w_tilde (y_dual st)) ;;
  w' <- get_value (value out2) ;;
  let y' := zip_with Qplus (y_dual st)
              (map (Qmult rho) (zip_with Qminus w_tilde w')) in
  let d := zip_with Qminus w' w_tilde in
  Ok ({| w_value := value out2;
         w_tilde_value := value out1;
         y_dual := y';
         residuals := residuals st ++ [sum_squares d] |},
      norm2_lt d (1 # 10000)).

Fixpoint admm_loop (st : admm_state) (ks : list Z) : result admm_state :=
  match ks with
  | [] => Ok st
  | _ :: ks' =>
      '(st', stop) <- admm_iteration st ;;
      if stop then Ok st' else admm_loop st' ks'
  end.

(** The variables are initialised to zero arrays of length [n]. *)
Definition admm_init (n : nat) : admm_state :=
  {| w_value := Some (repeat 0 n);
     w_tilde_value := Some (repeat 0 n);
     y_dual := repeat 0 n;
     residuals := [] |}.

Definition admm (n : nat) (max_iters : Z) : result admm_state :=
  admm_loop (admm_init n) (range max_iters).
End ADMM.

(** ** sudoku.ipynb: the Sudoku model *)

(** A grid of digits, 0 for an empty cell. *)
Definition grid : Type := list (list Z).

(** [initial_grid[i][j]] *)
Definition grid_at (G : grid) (i j : nat) : Z := nth j (nth i G []) 0%Z.

(** [cell_index], with the global [n] as a parameter. *)
Definition cell_index (n i j : nat) : nat := (i * n + j)%nat.

(** A constraint of the model: the entries [x[cell, k]] whose sum has to
    equal 1. *)
Definition constraint : Type := list (nat * nat).

(** [for cell in range(num_cells)]: [cp.sum(x[cell, :]) == 1] *)
Definition cell_constraints (n : nat) : list constraint :=
  map (fun cell => map (fun k => (cell, k)) (seq 0 n)) (seq 0 (n * n)).

(** [for i in range(n): for k in range(n)]: row [i] holds digit [k] once *)
Definition row_constraints (n : nat) : list constraint :=
  flat_map (fun i =>
    map (fun k => map (fun j => (cell_index n i j, k)) (seq 0 n)) (seq 0 n))
    (seq 0 n).

(** [for j in range(n): for k in range(n)]: column [j] holds digit [k] once *)
Definition col_constraints (n : nat) : list constraint :=
  flat_map (fun j =>
    map (fun k => map (fun i => (cell_index n i j, k)) (seq 0 n)) (seq 0 n))
    (seq 0 n).

(** [range(0, n, 3)] *)
Definition range_step3 (n : nat) : list nat :=
  map (fun q => (3 * q)%nat) (seq 0 ((n + 2) / 3)).

(** [for I in range(0, n, 3): for J in range(0, n, 3): for k in range(n)] *)
Definition box_constraints (n : nat) : list constraint :=
  flat_map (fun I =>
    flat_map (fun J =>
      map (fun k =>
        flat_map (fun di =>
          map (fun dj => (cell_index n (I + di) (J + dj), k)) (seq 0 3))
          (seq 0 3))
        (seq 0 n))
      (range_step3 n))
    (range_step3 n).

(** The pre-filled cells: [x[cell_index(i, j), initial_grid[i][j] - 1] == 1]
    where [initial_grid[i][j] != 0].  The entries of a puzzle are digits
    between 0 and [n], so the column index is not negative. *)
Definition clue_constraints (n : nat) (initial_grid : grid) : list constraint :=
  flat_map (fun i =>
    flat_map (fun j =>
      if Z.eqb (grid_at initial_grid i j) 0 then []
      else [[(cell_index n i j, Z.to_nat (grid_at initial_grid i j - 1))]])
      (seq 0 n))
    (seq 0 n).

(** The list [constraints] once the five loops have run. *)
Definition constraints (n : nat) (initial_grid : grid) : list constraint :=
  cell_constraints n ++ row_constraints n ++ col_constraints n
  ++ box_constraints n ++ clue_constraints n initial_grid.

(** [x[cell, k].value] for the array of values of the variable [x]. *)
Definition x_at (X : matrix) (cell k : nat) : Q := nth k (nth cell (rows X) []) 0.

(** The values [X] satisfy a constraint. *)
Definition holds (X : matrix) (c : constraint) : Prop :=
  np_sum (map (fun '(cell, k) => x_at X cell k) c) == 1.

(** The three inner lines of the extraction: [solution[i, j]] after the
    loop over [k]. *)
Definition solution_cell (n : nat) (X : matrix) (i j : nat) : Z :=
  fold_left
    (fun acc k =>
       if Qlt_bool (1 # 2) (x_at X (cell_index n i j) k)
       then (Z.of_nat k + 1)%Z else acc)
    (seq 0 n) 0%Z.

Definition extract_solution (n : nat) (X : matrix) : grid :=
  map (fun i => map (fun j => solution_cell n X i j) (seq 0 n)) (seq 0 n).

(** The last cell of the notebook with the CBC solver as a parameter: what
    is printed is the solution grid, or "No solution found." ([None]). *)
Definition solve_sudoku (cbc : list constraint -> solver_status * matrix)
    (n : nat) (initial_grid : grid) : option grid :=
  let '(st, X) := cbc (constraints n initial_grid) in
  match st with
  | optimal => Some (extract_solution n X)
  | _ => None
  end.

(** ** The specification's description of the algorithms *)

Module Spec.

(** *** L1-ball projector, general path (steps 1 to 7) *)

(** [s], 1-indexed *)
Definition s_at (s : vec) (i : nat) : Q := nth (i - 1) s 0.

(** [cumsum[i] = s[1] + ... + s[i]] *)
Definition cumsum (s : vec) (i : nat) : Q := np_sum (firstn i s).

Definition cssv (s : vec) (N : Q) (i : nat) : Q := cumsum s i - N.

(** the test [s[i] - cssv[i] / i > 0] *)
Definition test (s : vec) (N : Q) (i : nat) : bool :=
  Qlt_bool 0 (s_at s i - cssv s N i / inject_Z (Z.of_nat i)).

(** [rho] is the largest index for which the test holds. *)
Definition is_rho (s : vec) (N : Q) (rho : nat) : Prop :=
  (1 <= rho <= length s)%nat /\ test s N rho = true /\
  forall i, (rho < i <= length s)%nat -> test s N i = false.

Definition theta (s : vec) (N : Q) (rho : nat) : Q :=
  cssv s N rho / inject_Z (Z.of_nat rho).

Definition output (v : vec) (th : Q) : vec :=
  map (fun vj => np_sign vj * Qmax (Qabs vj - th) 0) v.

(** *** Gradient oracle *)

Definition huber_prime (u : Q) : Q :=
  if Qle_bool (Qabs u) 1 then 2 * u else 2 * np_sign u.





(** *** Projected gradient solver *)

Inductive terminal : Type := Converged | BudgetExhausted.

(** [x_{k+1} = Project(x_k - eta * g_k, N)] *)
Definition step (radius : Q) (A : matrix) (y : vec) (eta : Q) (x : vec)
  : result vec :=
  g_k <- huber_gradient A x y ;;
  x' <- broadcast2 Qminus x (map (Qmult eta) g_k) ;;
  project_onto_l1_ball x' radius.

Fixpoint iterate (radius : Q) (A : matrix) (y : vec) (eta : Q) (x0 : vec)
    (k : nat) : result vec :=
  match k with
  | O => Ok x0
  | S k' => x <- iterate radius A y eta x0 k' ;; step radius A y eta x
  end.

(** *** ADMM: the w-update objective as the specification writes it,
    [g(u) + (rho/2) * || u - w_tilde + lambda/rho ||^2] *)
Definition w_objective (rho : Q) (w_tilde lam : vec) : objective :=
  fun u =>
    g u
    + (rho / 2) * sum_squares
        (zip_with Qplus (zip_with Qminus u w_tilde) (map (fun a => a / rho) lam)).

End Spec.

(** [u] minimises [obj] among the arrays of length [n]. *)
Definition is_minimizer (n : nat) (obj : objective) (u : vec) : Prop :=
  length u = n /\ forall v, length v = n -> obj u <= obj v.

(** What the terminal state of a run of [gradient_descent] is, read off
    what it printed. *)
Definition terminal_of (printed : list Z) : Spec.terminal :=
  match printed with
  | [] => Spec.BudgetExhausted
  | _ :: _ => Spec.Converged
  end.

(** ** The same code in IEEE binary64 arithmetic

    NumPy runs the kernels on [float64] arrays.  Rounding decides which
    branch [project_onto_l1_ball] takes and whether its threshold search
    finds an index, so the projector and the descent loop are embedded a
    second time over the primitive binary64 floats, operation by operation:
    every [+], [-], [*], [/] and comparison below is the rounded IEEE
    operation, and evaluating a definition of this module on concrete
    arrays gives the arrays the notebook computes. *)

Module Binary64.
Local Open Scope float_scope.

Definition vec : Type := list float.

(** An [int64] index used in float arithmetic ([cssv / ind]). *)
Definition of_int (i : Z) : float := of_uint63 (Uint63.of_Z i).

(** [np.sign]: 1, -1 or 0, and NaN for NaN. *)
Definition np_sign (a : float) : float :=
  if 0 <? a then 1 else if a <? 0 then -1 else if a =? 0 then 0 else a.

(** The additions of [np.add.reduce] on a [float64] array, in NumPy's order
    (pairwise summation).  Fewer than eight entries are added in index
    order.  Up to 128 entries are added in eight interleaved running sums
    [r0, ..., r7], one group of eight entries at a time; the running sums
    are combined as [((r0 + r1) + (r2 + r3)) + ((r4 + r5) + (r6 + r7))] and
    the last [n mod 8] entries added in index order.  A longer array is cut
    at [n / 2], rounded down to a multiple of 8, and the sums of the two
    parts are added. *)
Fixpoint add_lanes (r l : vec) : vec * vec :=
  match l with
  | a0 :: a1 :: a2 :: a3 :: a4 :: a5 :: a6 :: a7 :: t =>
      add_lanes (zip_with PrimFloat.add r [a0; a1; a2; a3; a4; a5; a6; a7]) t
  | _ => (r, l)
  end.

Definition sum_lanes (r : vec) : float :=
  match r with
  | [r0; r1; r2; r3; r4; r5; r6; r7] =>
      ((r0 + r1) + (r2 + r3)) + ((r4 + r5) + (r6 + r7))
  | _ => 0
  end.

(** [fuel] bounds the depth of the cuts; the length of the array is
    enough (lemma [pairwise_sum_fuel]). *)
Fixpoint pairwise_sum (fuel : nat) (l : vec) : float :=
  let n := length l in
  if (n <? 8)%nat then fold_left PrimFloat.add l (-0)
  else if (n <=? 128)%nat then
    let '(r, rest) := add_lanes (firstn 8 l) (skipn 8 l) in
    fold_left PrimFloat.add rest (sum_lanes r)
  else
    match fuel with
    | O => 0
    | S fuel' =>
        let n2 := (n / 2 - (n / 2) mod 8)%nat in
        pairwise_sum fuel' (firstn n2 l) + pairwise_sum fuel' (skipn n2 l)
    end.

(** [arr.sum()]: the reduction starts from 0. *)
Definition np_sum (l : vec) : float := 0 + pairwise_sum (length l) l.

(** [np.abs] *)
Definition np_abs (l : vec) : vec := map abs l.

(** [np.linalg.norm(x, 1)] *)
Definition norm1 (l : vec) : float := np_sum (np_abs l).

(** [np.maximum(a, b)] on two numbers: the larger one, NaN if one is NaN. *)
Definition np_maximum (a b : float) : float :=
  if (b <=? a) || is_nan a then a else b.

(** [np.cumsum]: the running sums, left to right. *)
Fixpoint cumsum_from (acc : float) (l : vec) : vec :=
  match l with
  | [] => []
  | a :: t => (acc + a) :: cumsum_from (acc + a) t
  end.

Definition np_cumsum (l : vec) : vec :=
  match l with
  | [] => []
  | a :: t => a :: cumsum_from a t
  end.

(** The order of [np.sort]: ascending, NaN after every number. *)
Definition sort_le (a b : float) : bool := (a <=? b) || is_nan b.

(** [np.sort] (the result of any sorting algorithm; insertion sort here). *)
Fixpoint insert_sorted (a : float) (l : vec) : vec :=
  match l with
  | [] => [a]
  | b :: t => if sort_le a b then a :: l else b :: insert_sorted a t
  end.

Definition np_sort (l : vec) : vec := fold_right insert_sorted [] l.

(** The part of [project_onto_l1_ball] under "Find the threshold". *)
Definition l1_threshold (u : vec) (N : float) : result (Z * float) :=
  let s    := rev (np_sort u) in
  let cssv := map (fun c => c - N) (np_cumsum s) in
  let ind  := map (fun i => (i + 1)%Z) (np_arange (length s)) in
  let cond := zip_with (fun a b => 0 <? a - b)
                s (zip_with (fun c i => c / of_int i) cssv ind) in
  rho <- np_last (np_mask ind cond) ;;
  c <- np_last (np_mask cssv cond) ;;
  Ok (rho, c / of_int rho).

Definition project_onto_l1_ball (x : vec) (N : float) : result vec :=
  if norm1 x <=? N then Ok x
  else
    let u := np_abs x in
    if np_sum u <=? N then Ok x
    else
      '(_, theta) <- l1_threshold u N ;;
      Ok (zip_with PrimFloat.mul (map np_sign x)
                   (map (fun a => np_maximum (a - theta) 0) u)).

(** A rank-two array of shape [(length rows, ncols)], stored by rows. *)
Record matrix : Type := { ncols : nat; rows : list vec }.

(** The inner product of a row and a vector: the products added in index
    order (a BLAS build may add them in another order, which moves the
    last bits). *)
Definition dot (r x : vec) : float :=
  fold_left PrimFloat.add (zip_with PrimFloat.mul r x) 0.

(** [A @ x] *)
Definition matvec (A : matrix) (x : vec) : result vec :=
  if Nat.eqb (length x) (ncols A) then Ok (map (fun r => dot r x) (rows A))
  else Raise ValueError.

(** [A.T] *)
Definition transpose (A : matrix) : matrix :=
  {| ncols := length (rows A);
     rows := map (fun j => map (fun r => nth j r 0) (rows A)) (seq 0 (ncols A)) |}.

(** Element-wise binary operation with broadcasting of rank-one operands. *)
Definition broadcast2 (f : float -> float -> float) (a b : vec) : result vec :=
  if Nat.eqb (length a) (length b) then Ok (zip_with f a b)
  else match a, b with
       | [a0], _ => Ok (map (f a0) b)
       | _, [b0] => Ok (map (fun ai => f ai b0) a)
       | _, _ => Raise ValueError
       end.

(** [np.where(c, a, b)] on three arrays of one shape. *)
Fixpoint np_where (c : list bool) (a b : vec) : vec :=
  match c, a, b with
  | ci :: c', ai :: a', bi :: b' => (if ci then ai else bi) :: np_where c' a' b'
  | _, _, _ => []
  end.

Definition huber_gradient (A : matrix) (x y : vec) : result vec :=
  Ax <- matvec A x ;;
  Ax_minus_y <- broadcast2 PrimFloat.sub Ax y ;;
  let grad := np_where (map (fun r => abs r <=? 1) Ax_minus_y)
                       (map (PrimFloat.mul 2) Ax_minus_y)
                       (map (fun r => 2 * np_sign r) Ax_minus_y) in
  matvec (transpose A) grad.

(** The notebook's global [N = 10]. *)
Definition N : float := 10.

(** [np.linalg.norm(v)] of a rank-one array: the square root of [v.dot(v)]. *)
Definition np_linalg_norm (v : vec) : float := sqrt (dot v v).

(** The body of the [for] loop of [gradient_descent], run over the
    remaining indices; the second component is what was printed. *)
Fixpoint gd_loop (radius : float) (A : matrix) (y : vec)
    (step_size tolerance : float) (x : vec) (ks : list Z)
  : result (vec * list Z) :=
  match ks with
  | [] => Ok (x, [])
  | k :: ks' =>
      grad <- huber_gradient A x y ;;
      x1 <- broadcast2 PrimFloat.sub x (map (PrimFloat.mul step_size) grad) ;;
      x2 <- project_onto_l1_ball x1 radius ;;
      if np_linalg_norm grad <? tolerance then Ok (x2, [k])
      else gd_loop radius A y step_size tolerance x2 ks'
  end.

Definition gradient_descent (A : matrix) (x y : vec)
    (step_size : float) (max_iters : Z) (tolerance : float)
  : result (vec * list Z) :=
  gd_loop N A y step_size tolerance x (range max_iters).

(** The rational number a finite float stands for (0 for the infinities
    and NaN). *)
Definition exact (a : float) : Q :=
  match Prim2SF a with
  | S754_finite s m e =>
      ((if s then -1 else 1) * inject_Z (Zpos m) * Qpower 2 e)%Q
  | _ => 0%Q
  end.


(** *** The specification's description, read in binary64 *)

Module Spec.

(** [s], 1-indexed *)
Definition s_at (s : vec) (i : nat) : float := nth (i - 1) s 0.

(** [cumsum[i] = s[1] + ... + s[i]] *)
Definition cumsum (s : vec) (i : nat) : float :=
  match firstn i s with
  | [] => 0
  | a :: t => fold_left PrimFloat.add t a
  end.

Definition cssv (s : vec) (N : float) (i : nat) : float := cumsum s i - N.

(** the test [s[i] - cssv[i] / i > 0] *)
Definition test (s : vec) (N : float) (i : nat) : bool :=
  0 <? s_at s i - cssv s N i / of_int (Z.of_nat i).

(** [rho] is the largest index for which the test holds. *)
Definition is_rho (s : vec) (N : float) (rho : nat) : Prop :=
  (1 <= rho <= length s)%nat /\ test s N rho = true /\
  forall i, (rho < i <= length s)%nat -> test s N i = false.

Definition theta (s : vec) (N : float) (rho : nat) : float :=
  cssv s N rho / of_int (Z.of_nat rho).

Definition output (v : vec) (th : float) : vec :=
  map (fun vj => np_sign vj * np_maximum (abs vj - th) 0) v.

(** [x_{k+1} = Project(x_k - eta * g_k, N)] *)
Definition step (radius : float) (A : matrix) (y : vec) (eta : float) (x : vec)
  : result vec :=
  g_k <- huber_gradient A x y ;;
  x' <- broadcast2 PrimFloat.sub x (map (PrimFloat.mul eta) g_k) ;;
  project_onto_l1_ball x' radius.

Fixpoint iterate (radius : float) (A : matrix) (y : vec) (eta : float)
    (x0 : vec) (k : nat) : result vec :=
  match k with
  | O => Ok x0
  | S k' => x <- iterate radius A y eta x0 k' ;; step radius A y eta x
  end.

(** [||g||_2]: the square root of the sum of the squares of the entries *)
Definition norm2 (g : vec) : float :=
  sqrt (fold_left (fun acc a => acc + a * a) g 0).

(** the test [||g_k||_2 < eps] at the gradient of iterate [k] *)
Definition converged_at (radius : float) (A : matrix) (y : vec)
    (eta eps : float) (x0 : vec) (k : nat) : bool :=
  match (x <- iterate radius A y eta x0 k ;; huber_gradient A x y) with
  | Ok g_k => norm2 g_k <? eps
  | Raise _ => false
  end.

End Spec.

(** Descending order, NaN before every number. *)
Definition descending (s : vec) : Prop :=
  StronglySorted (fun a b => sort_le b a = true) s.

(** Zero, positive or NaN (and zero, negative or NaN), read off the
    representation of a float. *)
Definition sf_nonneg (f : spec_float) : Prop :=
  match f with
  | S754_nan | S754_zero _ => True
  | S754_infinity s | S754_finite s _ _ => s = false
  end.


End Binary64.

(** ** Solvers on which the ADMM loop can be run *)

(** An exact solver for problems in one variable of length one whose
    objective is a quadratic [a u^2 + b u + c] with [a > 0]: the coefficients
    are read off the objective at -1, 0 and 1, the minimiser is [-b / (2a)],
    returned in lowest terms. *)
Definition quad_solve1 (obj : objective) : result solve_out :=
  let c0 := obj [0] in
  let p := obj [1] in
  let q := obj [-1] in
  let a := (p + q - 2 * c0) / 2 in
  let b := (p - q) / 2 in
  Ok {| status := optimal; value := Some [Qred (- b / (2 * a))] |}.

(** The same solver reporting the status [s] whatever happened. *)
Definition with_status (s : solver_status)
    (solve : objective -> result solve_out) (obj : objective) : result solve_out :=
  out <- solve obj ;; Ok {| status := s; value := value out |}.

(** Two solvers that raise the same exceptions and leave the same values,
    whatever status they report. *)
Definition same_values (solve1 solve2 : objective -> result solve_out) : Prop :=
  forall obj,
    match solve1 obj, solve2 obj with
    | Ok o1, Ok o2 => value o1 = value o2
    | Raise e1, Raise e2 => e1 = e2
    | _, _ => False
    end.

(** ** Auxiliary definitions used by the proofs *)

(** The last index at which the test of [l1_threshold] holds, with the
    shifted cumulative sum there; [k] elements with sum [acc] precede [s]. *)
Fixpoint last_qual (N : Q) (k : nat) (acc : Q) (s : vec) : option (Z * Q) :=
  match s with
  | [] => None
  | a :: t =>
      match last_qual N (S k) (acc + a) t with
      | Some r => Some r
      | None =>
          if Qlt_bool 0 (a - (acc + a - N) / inject_Z (Z.of_nat k + 1))
          then Some ((Z.of_nat k + 1)%Z, acc + a - N)
          else None
      end
  end.

(** Descending order. *)
Definition descending (s : vec) : Prop := StronglySorted (fun a b => b <= a) s.

(** From position [k] (sum [acc] before it) on, the test of
    [l1_threshold] fails at every element of [s]. *)
Definition fails_from (N : Q) (k : nat) (acc : Q) (s : vec) : Prop :=
  forall p b q, s = p ++ b :: q ->
    Qlt_bool 0 (b - (acc + np_sum p + b - N)
                    / inject_Z (Z.of_nat (k + length p) + 1)) = false.

(** The soft threshold applied to one magnitude. *)
Definition shrink (th : Q) (e : Q) : Q := Qmax (e - th) 0.

(** The squared Euclidean distance of two arrays of one shape. *)
Definition dist2 (a b : vec) : Q := sum_squares (zip_with Qminus a b).

(** The second line of [huber_gradient] on its own: the array [grad]
    computed from the residual [Ax_minus_y]. *)
Definition huber_weights (Ax_minus_y : vec) : vec :=
  np_where (map (fun r => Qle_bool (Qabs r) 1) Ax_minus_y)
           (map (Qmult 2) Ax_minus_y)
           (map (fun r => 2 * np_sign r) Ax_minus_y).

(** ** What a solved Sudoku is *)

Definition wf_grid (n : nat) (G : grid) : Prop :=
  length G = n /\ Forall (fun r => length r = n) G.

(** The cells of a row, of a column, and of the 3x3 box with top left
    corner [(I, J)]. *)
Definition row_cells (n i : nat) : list (nat * nat) :=
  map (fun j => (i, j)) (seq 0 n).

Definition col_cells (n j : nat) : list (nat * nat) :=
  map (fun i => (i, j)) (seq 0 n).

Definition box_cells (I J : nat) : list (nat * nat) :=
  flat_map (fun di => map (fun dj => ((I + di)%nat, (J + dj)%nat)) (seq 0 3))
           (seq 0 3).

(** The digit [d] stands in exactly one of the cells [H] of the grid. *)
Definition once_in (G : grid) (H : list (nat * nat)) (d : Z) : Prop :=
  exists c, In c H /\ grid_at G (fst c) (snd c) = d /\
            forall c', In c' H -> grid_at G (fst c') (snd c') = d -> c' = c.

(** [G] is a completed Sudoku that agrees with the given cells. *)
Definition valid_sudoku (n : nat) (initial_grid G : grid) : Prop :=
  wf_grid n G /\
  (forall i j, (i < n)%nat -> (j < n)%nat ->
               (1 <= grid_at G i j <= Z.of_nat n)%Z) /\
  (forall i d, (i < n)%nat -> (1 <= d <= Z.of_nat n)%Z ->
               once_in G (row_cells n i) d) /\
  (forall j d, (j < n)%nat -> (1 <= d <= Z.of_nat n)%Z ->
               once_in G (col_cells n j) d) /\
  (forall bi bj d, (3 * bi < n)%nat -> (3 * bj < n)%nat ->
                   (1 <= d <= Z.of_nat n)%Z ->
                   once_in G (box_cells (3 * bi) (3 * bj)) d) /\
  (forall i j, (i < n)%nat -> (j < n)%nat ->
               grid_at initial_grid i j <> 0%Z ->
               grid_at G i j = grid_at initial_grid i j).

(** All values of the variable are 0 or 1 ([boolean=True]). *)
Definition boolean_values (n : nat) (X : matrix) : Prop :=
  forall cell k, (cell < n * n)%nat -> (k < n)%nat ->
                 x_at X cell k == 0 \/ x_at X cell k == 1.

(** The one-hot array of a grid: [x[cell, k]] is 1 where the cell holds
    the digit [k + 1]. *)
Definition encode_grid (n : nat) (G : grid) : matrix :=
  {| ncols := n;
     rows := map (fun cell =>
               map (fun k =>
                 if Z.eqb (grid_at G (cell / n) (cell mod n)) (Z.of_nat k + 1)
                 then 1 else 0) (seq 0 n))
               (seq 0 (n * n)) |}.

(** The notebook's puzzle and the grid it prints. *)
Definition initial_grid : grid :=
  [[5; 3; 0; 0; 7; 0; 0; 0; 0];
   [6; 0; 0; 1; 9; 5; 0; 0; 0];
   [0; 9; 8; 0; 0; 0; 0; 6; 0];
   [8; 0; 0; 0; 6; 0; 0; 0; 3];
   [4; 0; 0; 8; 0; 3; 0; 0; 1];
   [7; 0; 0; 0; 2; 0; 0; 0; 6];
   [0; 6; 0; 0; 0; 0; 2; 8; 0];
   [0; 0; 0; 4; 1; 9; 0; 0; 5];
   [0; 0; 0; 0; 8; 0; 0; 7; 9]]%Z.

Definition printed_solution : grid :=
  [[5; 3; 4; 6; 7; 8; 9; 1; 2];
   [6; 7; 2; 1; 9; 5; 3; 4; 8];
   [1; 9; 8; 3; 4; 2; 5; 6; 7];
   [8; 5; 9; 7; 6; 1; 4; 2; 3];
   [4; 2; 6; 8; 5; 3; 7; 9; 1];
   [7; 1; 3; 9; 2; 4; 8; 5; 6];
   [9; 6; 1; 5; 3; 7; 2; 8; 4];
   [2; 8; 7; 4; 1; 9; 6; 3; 5];
   [3; 4; 5; 2; 8; 6; 1; 7; 9]]%Z.

(** * Verification

    First the exact-rational reading, then (from "The code in binary64
    arithmetic" on) the binary64 reading. *)

(** ** Rationals, sums and lists *)

Lemma Qlt_bool_iff a b : Qlt_bool a b = true <-> a < b.
Proof.
  unfold Qlt_bool. rewrite negb_true_iff. split.
  - intros H. apply Qnot_le_lt. intros Hle. apply Qle_bool_iff in Hle. congruence.
  - intros H. destruct (Qle_bool b a) eqn:E; auto.
    apply Qle_bool_iff in E. lra.
Qed.

Lemma Qlt_bool_false_iff a b : Qlt_bool a b = false <-> b <= a.
Proof.
  unfold Qlt_bool. rewrite negb_false_iff. apply Qle_bool_iff.
Qed.

Lemma Qle_bool_false_iff a b : Qle_bool a b = false <-> b < a.
Proof.
  rewrite <- Qlt_bool_iff. unfold Qlt_bool. now rewrite negb_true_iff.
Qed.

#[global] Instance Qlt_bool_comp : Proper (Qeq ==> Qeq ==> eq) Qlt_bool.
Proof. intros a a' Ha b b' Hb. unfold Qlt_bool. now rewrite Ha, Hb. Qed.

Lemma np_sum_cons a l : np_sum (a :: l) = a + np_sum l.
Proof. reflexivity. Qed.

Lemma np_sum_app l1 l2 : np_sum (l1 ++ l2) == np_sum l1 + np_sum l2.
Proof.
  induction l1 as [|a l1 IH]; simpl.
  - ring.
  - rewrite IH. ring.
Qed.

Lemma np_sum_perm l l' : Permutation l l' -> np_sum l == np_sum l'.
Proof.
  induction 1; simpl; try ring.
  - now rewrite IHPermutation.
  - now rewrite IHPermutation1.
Qed.

Lemma zip_with_length {A B C} (f : A -> B -> C) l1 l2 :
  length l1 = length l2 -> length (zip_with f l1 l2) = length l1.
Proof.
  revert l2. induction l1 as [|a l1 IH]; intros [|b l2]; simpl; intros H;
    try discriminate; auto.
Qed.

Lemma np_last_ne {A} (a : A) l : exists r, np_last (a :: l) = Ok r.
Proof.
  revert a. induction l as [|b l IH]; intros a.
  - now exists a.
  - destruct (IH b) as [r Hr]. exists r. exact Hr.
Qed.

Lemma np_last_cons {A} (a : A) l :
  np_last (a :: l) = match np_last l with Ok r => Ok r | Raise _ => Ok a end.
Proof.
  destruct l as [|b l]; [reflexivity|].
  destruct (np_last_ne b l) as [r Hr].
  change (np_last (a :: b :: l)) with (np_last (b :: l)). now rewrite Hr.
Qed.

(** ** The threshold search of [project_onto_l1_ball] *)

Lemma threshold_arrays N s : forall k acc,
  let cssv := map (fun c => c - N) (cumsum_from acc s) in
  let ind := map (fun i => (i + 1)%Z) (map Z.of_nat (seq k (length s))) in
  let cond := zip_with (fun a b => Qlt_bool 0 (a - b))
                s (zip_with (fun c i => c / inject_Z i) cssv ind) in
  np_last (np_mask ind cond)
  = match last_qual N k acc s with Some (r, _) => Ok r | None => Raise IndexError end
  /\ np_last (np_mask cssv cond)
  = match last_qual N k acc s with Some (_, c) => Ok c | None => Raise IndexError end.
Proof.
  induction s as [|a t IH]; intros k acc; [split; reflexivity|].
  specialize (IH (S k) (acc + a)). cbv zeta in IH. destruct IH as [IH1 IH2].
  cbn [length seq map cumsum_from zip_with np_mask last_qual].
  destruct (Qlt_bool 0 (a - (acc + a - N) / inject_Z (Z.of_nat k + 1))) eqn:T.
  - rewrite !np_last_cons, IH1, IH2.
    destruct (last_qual N (S k) (acc + a) t) as [[r c]|]; split; reflexivity.
  - rewrite IH1, IH2.
    destruct (last_qual N (S k) (acc + a) t) as [[r c]|]; split; reflexivity.
Qed.

Lemma l1_threshold_last_qual u N :
  l1_threshold u N
  = match last_qual N 0 0 (rev (np_sort u)) with
    | Some (r, c) => Ok (r, c / inject_Z r)
    | None => Raise IndexError
    end.
Proof.
  unfold l1_threshold, np_cumsum, np_arange.
  destruct (threshold_arrays N (rev (np_sort u)) 0%nat 0) as [H1 H2].
  cbv zeta in H1, H2. rewrite H1, H2.
  destruct (last_qual N 0 0 (rev (np_sort u))) as [[r c]|]; reflexivity.
Qed.

Lemma last_qual_None N s : forall k acc,
  last_qual N k acc s = None -> fails_from N k acc s.
Proof.
  induction s as [|a t IH]; intros k acc H p b q Hs.
  - destruct p; discriminate.
  - cbn [last_qual] in H.
    destruct (last_qual N (S k) (acc + a) t) eqn:E; [discriminate|].
    destruct (Qlt_bool 0 (a - (acc + a - N) / inject_Z (Z.of_nat k + 1))) eqn:T;
      [discriminate|].
    destruct p as [|a' p]; injection Hs as -> ->.
    + cbn [np_sum fold_right length]. rewrite Nat.add_0_r, <- T.
      apply Qlt_bool_comp; [reflexivity|].
      assert (acc + 0 + b == acc + b) as -> by ring. reflexivity.
    + specialize (IH (S k) (acc + a') E p b q eq_refl).
      cbn [length]. rewrite Nat.add_succ_r, <- IH.
      apply Qlt_bool_comp; [reflexivity|].
      rewrite np_sum_cons.
      assert (acc + (a' + np_sum p) + b == acc + a' + np_sum p + b) as -> by ring.
      reflexivity.
Qed.

Lemma fails_from_shift N k k' acc acc' s :
  k = k' -> acc == acc' -> fails_from N k acc s -> fails_from N k' acc' s.
Proof.
  intros -> Hacc H p b q Hs. rewrite <- (H p b q Hs).
  apply Qlt_bool_comp; [reflexivity|]. now rewrite Hacc.
Qed.

Lemma last_qual_Some N s : forall k acc r c,
  last_qual N k acc s = Some (r, c) ->
  exists s1 a s2,
    s = s1 ++ a :: s2 /\
    r = (Z.of_nat (k + length s1) + 1)%Z /\
    c == acc + np_sum s1 + a - N /\
    0 < a - c / inject_Z r /\
    fails_from N (S (k + length s1)) (acc + np_sum s1 + a) s2.
Proof.
  induction s as [|a0 t IH]; intros k acc r c H; [discriminate|].
  cbn [last_qual] in H.
  destruct (last_qual N (S k) (acc + a0) t) as [[r0 c0]|] eqn:E.
  - injection H as -> ->.
    destruct (IH _ _ _ _ E) as (s1 & a & s2 & -> & Hr & Hc & Ht & Hf).
    exists (a0 :: s1), a, s2. cbn [length]. rewrite Nat.add_succ_r.
    repeat split; auto.
    + rewrite Hc, np_sum_cons. ring.
    + eapply fails_from_shift; [reflexivity| |exact Hf].
      rewrite np_sum_cons. ring.
  - destruct (Qlt_bool 0 (a0 - (acc + a0 - N) / inject_Z (Z.of_nat k + 1))) eqn:T;
      [|discriminate].
    injection H as <- <-. apply Qlt_bool_iff in T.
    exists [], a0, t. cbn [length np_sum fold_right app]. rewrite Nat.add_0_r.
    repeat split; auto.
    + ring.
    + eapply fails_from_shift; [reflexivity| |exact (last_qual_None _ _ _ _ E)].
      ring.
Qed.

(** ** Descending order *)

Lemma descending_split s1 a s2 :
  descending (s1 ++ a :: s2) ->
  Forall (fun e => a <= e) s1 /\ Forall (fun e => e <= a) s2.
Proof.
  unfold descending. induction s1 as [|x s1 IH]; cbn [app]; intros H;
    apply StronglySorted_inv in H; destruct H as [Hs Hx].
  - split; [constructor | exact Hx].
  - destruct (IH Hs) as [H1 H2]. split; [|exact H2].
    constructor; [|exact H1].
    rewrite Forall_forall in Hx. apply Hx, in_elt.
Qed.

Lemma StronglySorted_snoc {A} (R : A -> A -> Prop) l a :
  StronglySorted R l -> Forall (fun e => R e a) l -> StronglySorted R (l ++ [a]).
Proof.
  induction 1 as [|x l Hs IH Hx]; intros Ha; cbn [app].
  - repeat constructor.
  - inversion Ha as [|? ? Hxa Hl]; subst. constructor; [apply IH, Hl|].
    apply Forall_app. split; [exact Hx | repeat constructor; exact Hxa].
Qed.

Lemma StronglySorted_rev {A} (R : A -> A -> Prop) l :
  StronglySorted R l -> StronglySorted (fun a b => R b a) (rev l).
Proof.
  induction 1 as [|x l Hs IH Hx]; cbn [rev]; [constructor|].
  apply StronglySorted_snoc; [exact IH|]. apply Forall_rev, Hx.
Qed.

Lemma insert_sorted_perm a l : Permutation (a :: l) (insert_sorted a l).
Proof.
  induction l as [|b t IH]; cbn [insert_sorted]; [reflexivity|].
  destruct (Qle_bool a b); [reflexivity|].
  etransitivity; [apply perm_swap | apply perm_skip, IH].
Qed.

Lemma insert_sorted_ascending a l :
  StronglySorted Qle l -> StronglySorted Qle (insert_sorted a l).
Proof.
  induction 1 as [|b t Hs IH Hb]; cbn [insert_sorted].
  - repeat constructor.
  - destruct (Qle_bool a b) eqn:E.
    + apply Qle_bool_iff in E. constructor; [constructor; assumption|].
      constructor; [exact E|].
      eapply Forall_impl; [|exact Hb]. cbv beta. intros e He. lra.
    + apply Qle_bool_false_iff in E. constructor; [exact IH|].
      apply (Permutation_Forall (insert_sorted_perm a t)).
      constructor; [lra | exact Hb].
Qed.

Lemma np_sort_ascending u : StronglySorted Qle (np_sort u).
Proof.
  induction u as [|a u IH]; cbn [np_sort fold_right]; [constructor|].
  apply insert_sorted_ascending, IH.
Qed.

Lemma np_sort_perm u : Permutation u (np_sort u).
Proof.
  induction u as [|a u IH]; cbn [np_sort fold_right]; [reflexivity|].
  etransitivity; [apply perm_skip, IH | apply insert_sorted_perm].
Qed.

Lemma sorted_descending u : descending (rev (np_sort u)).
Proof.
  unfold descending.
  apply (StronglySorted_rev Qle _ (np_sort_ascending u)).
Qed.

Lemma sorted_perm u : Permutation u (rev (np_sort u)).
Proof.
  etransitivity; [apply np_sort_perm | apply Permutation_rev].
Qed.

(** ** The threshold splits the sorted magnitudes *)

Lemma shrink_nonneg th e : 0 <= shrink th e.
Proof. unfold shrink. apply Q.le_max_r. Qed.

Lemma shrink_above th e : th <= e -> shrink th e == e - th.
Proof. intros H. unfold shrink. apply Q.max_l. lra. Qed.

Lemma shrink_below th e : e <= th -> shrink th e == 0.
Proof. intros H. unfold shrink. apply Q.max_r. lra. Qed.

Lemma inject_nat_succ n :
  inject_Z (Z.of_nat (S n)) == inject_Z (Z.of_nat n) + 1.
Proof. rewrite Nat2Z.inj_succ. unfold Z.succ. now rewrite inject_Z_plus. Qed.

Lemma inject_nat_nonneg n : 0 <= inject_Z (Z.of_nat n).
Proof.
  change 0 with (inject_Z 0). rewrite <- Zle_Qle. apply Nat2Z.is_nonneg.
Qed.

Lemma shrink_sum_above th l :
  Forall (fun e => th <= e) l ->
  np_sum (map (shrink th) l) == np_sum l - inject_Z (Z.of_nat (length l)) * th.
Proof.
  induction 1 as [|e l He Hl IH]; cbn [map length].
  - cbn. ring.
  - rewrite !np_sum_cons, IH, (shrink_above _ _ He), inject_nat_succ. ring.
Qed.

Lemma shrink_sum_below th l :
  Forall (fun e => e <= th) l -> np_sum (map (shrink th) l) == 0.
Proof.
  induction 1 as [|e l He Hl IH]; cbn [map]; [reflexivity|].
  rewrite np_sum_cons, IH, (shrink_below _ _ He). ring.
Qed.

Lemma next_fails_le (b C N R c : Q) :
  0 < R -> c == C - N -> b - (C + b - N) / (R + 1) <= 0 -> b <= c / R.
Proof.
  intros HR Hc H. apply Qle_shift_div_l; [exact HR|].
  assert (E : (C + b - N) / (R + 1) * (R + 1) == C + b - N) by (field; lra).
  nra.
Qed.

(** The outcome of the search on a descending array: the elements up to
    position [rho] lie above [theta], the ones after it do not. *)
Lemma threshold_split N s r c :
  descending s ->
  last_qual N 0 0 s = Some (r, c) ->
  exists s1 a s2,
    s = s1 ++ a :: s2 /\
    r = (Z.of_nat (length s1) + 1)%Z /\
    c == np_sum s1 + a - N /\
    c / inject_Z r < a /\
    Forall (fun e => c / inject_Z r <= e) (s1 ++ [a]) /\
    Forall (fun e => e <= c / inject_Z r) s2 /\
    fails_from N (S (length s1)) (np_sum s1 + a) s2.
Proof.
  intros Hd H.
  destruct (last_qual_Some _ _ _ _ _ _ H) as (s1 & a & s2 & -> & Hr & Hc & Ht & Hf).
  cbn [Nat.add] in Hr, Hf.
  destruct (descending_split _ _ _ Hd) as [H1 H2].
  exists s1, a, s2. repeat split; auto.
  - rewrite Hc. ring.
  - lra.
  - apply Forall_app. split.
    + eapply Forall_impl; [|exact H1]. cbv beta. intros e He. lra.
    + repeat constructor. lra.
  - destruct s2 as [|b q]; [constructor|].
    assert (Hb : b <= c / inject_Z r).
    { specialize (Hf [] b q eq_refl). apply Qlt_bool_false_iff in Hf.
      cbn [np_sum fold_right length] in Hf. rewrite Nat.add_0_r in Hf.
      apply (next_fails_le b (np_sum s1 + a) N (inject_Z r) c).
      - subst r. rewrite inject_Z_plus. pose proof (inject_nat_nonneg (length s1)).
        change (inject_Z 1) with 1. lra.
      - rewrite Hc. ring.
      - subst r. rewrite inject_Z_plus, inject_nat_succ in Hf.
        rewrite inject_Z_plus. change (inject_Z 1) with 1 in *.
        assert (E : 0 + np_sum s1 + a + 0 + b - N == np_sum s1 + a + b - N) by ring.
        rewrite E in Hf. exact Hf. }
    assert (Hq : Forall (fun e => e <= b) q).
    { change (s1 ++ a :: b :: q) with (s1 ++ [a] ++ b :: q) in Hd.
      rewrite app_assoc in Hd. apply (descending_split _ _ _ Hd). }
    constructor; [exact Hb|].
    eapply Forall_impl; [|exact Hq]. cbv beta. intros e He. lra.
  - eapply fails_from_shift; [reflexivity| |exact Hf]. ring.
Qed.

Lemma shrink_sum_total N s r c :
  descending s ->
  last_qual N 0 0 s = Some (r, c) ->
  np_sum (map (shrink (c / inject_Z r)) s) == N.
Proof.
  intros Hd H.
  destruct (threshold_split _ _ _ _ Hd H)
    as (s1 & a & s2 & -> & Hr & Hc & _ & Hup & Hdown & _).
  change (s1 ++ a :: s2) with (s1 ++ [a] ++ s2). rewrite app_assoc, map_app.
  rewrite np_sum_app, (shrink_sum_above _ _ Hup), (shrink_sum_below _ _ Hdown).
  rewrite np_sum_app, length_app, Nat.add_1_r, inject_nat_succ.
  cbn [np_sum fold_right length].
  assert (HR : inject_Z r == inject_Z (Z.of_nat (length s1)) + 1).
  { subst r. now rewrite inject_Z_plus. }
  pose proof (inject_nat_nonneg (length s1)) as Hn.
  rewrite HR, Hc. field. lra.
Qed.

Lemma last_qual_exists N s :
  0 < N -> s <> [] -> exists r c, last_qual N 0 0 s = Some (r, c).
Proof.
  intros HN Hs. destruct (last_qual N 0 0 s) as [[r c]|] eqn:E; [eauto|].
  destruct s as [|b q]; [congruence|]. exfalso.
  pose proof (last_qual_None _ _ _ _ E [] b q eq_refl) as H.
  apply Qlt_bool_false_iff in H. cbn [np_sum fold_right length Nat.add Z.of_nat Z.add] in H.
  change (inject_Z 1) with 1 in H.
  assert (E1 : b - (0 + 0 + b - N) / 1 == N) by (field).
  rewrite E1 in H. lra.
Qed.

Lemma sum_ge_length_times a l :
  Forall (fun e => a <= e) l -> inject_Z (Z.of_nat (length l)) * a <= np_sum l.
Proof.
  induction 1 as [|e l He Hl IH]; cbn [length].
  - change (0 * a <= 0). lra.
  - rewrite np_sum_cons, inject_nat_succ. lra.
Qed.

Lemma last_qual_nonpos N s :
  N <= 0 -> descending s -> last_qual N 0 0 s = None.
Proof.
  intros HN Hd. destruct (last_qual N 0 0 s) as [[r c]|] eqn:E; [|reflexivity].
  exfalso.
  destruct (threshold_split _ _ _ _ Hd E)
    as (s1 & a & s2 & -> & Hr & Hc & Hlt & _).
  destruct (descending_split _ _ _ Hd) as [H1 _].
  pose proof (sum_ge_length_times _ _ H1) as Hsum.
  pose proof (inject_nat_nonneg (length s1)) as Hn.
  assert (HR : inject_Z r == inject_Z (Z.of_nat (length s1)) + 1).
  { subst r. now rewrite inject_Z_plus. }
  assert (Hpos : 0 < inject_Z r) by lra.
  apply (Qmult_lt_compat_r _ _ _ Hpos) in Hlt.
  assert (E1 : c / inject_Z r * inject_Z r == c) by (field; lra).
  rewrite E1, Hc, HR in Hlt. lra.
Qed.

Lemma theta_nonneg N s r c :
  descending s -> Forall (fun e => 0 <= e) s -> N < np_sum s ->
  last_qual N 0 0 s = Some (r, c) ->
  0 <= c / inject_Z r.
Proof.
  intros Hd Hs HN H.
  destruct (threshold_split _ _ _ _ Hd H)
    as (s1 & a & s2 & -> & Hr & Hc & _ & _ & Hdown & _).
  destruct s2 as [|b q].
  - rewrite np_sum_app in HN. cbn [np_sum fold_right] in HN.
    apply Qle_shift_div_l.
    + subst r. rewrite inject_Z_plus. pose proof (inject_nat_nonneg (length s1)).
      change (inject_Z 1) with 1. lra.
    + lra.
  - apply Forall_app in Hs. destruct Hs as [_ Hs].
    inversion Hs as [|? ? _ Hs']; subst. inversion Hs' as [|? ? Hb _]; subst.
    inversion Hdown; subst. lra.
Qed.

(** ** [np.sign] and the output of the projection *)

Lemma np_sign_cases v :
  (v < 0 /\ np_sign v = -1) \/ (v == 0 /\ np_sign v = 0) \/ (0 < v /\ np_sign v = 1).
Proof.
  destruct v as [[|n|n] d]; unfold np_sign, Qlt, Qeq; cbn.
  - right; left. split; reflexivity.
  - right; right. split; [lia|reflexivity].
  - left. split; [lia|reflexivity].
Qed.

Lemma zip_with_map_same {A B C D} (h : B -> C -> D) (f1 : A -> B) (f2 : A -> C) l :
  zip_with h (map f1 l) (map f2 l) = map (fun v => h (f1 v) (f2 v)) l.
Proof. induction l as [|a l IH]; cbn; [reflexivity | now rewrite IH]. Qed.

Lemma norm1_general_path x N :
  Qle_bool (norm1 x) N = false -> N < np_sum (rev (np_sort (np_abs x))).
Proof.
  intros H. apply Qle_bool_false_iff in H.
  rewrite <- (np_sum_perm _ _ (sorted_perm (np_abs x))). exact H.
Qed.

(** The slow path of [project_onto_l1_ball] in terms of the search. *)
Lemma project_general x N :
  Qle_bool (norm1 x) N = false ->
  project_onto_l1_ball x N
  = match last_qual N 0 0 (rev (np_sort (np_abs x))) with
    | Some (r, c) => Ok (Spec.output x (c / inject_Z r))
    | None => Raise IndexError
    end.
Proof.
  intros H. unfold project_onto_l1_ball. rewrite H.
  change (np_sum (np_abs x)) with (norm1 x). rewrite H.
  rewrite l1_threshold_last_qual.
  destruct (last_qual N 0 0 (rev (np_sort (np_abs x)))) as [[r c]|];
    [|reflexivity].
  cbn [bind]. unfold np_abs. rewrite map_map, zip_with_map_same. reflexivity.
Qed.

(** ** The search of the code and the index of the specification *)

Lemma test_at_split P b Q0 N :
  Spec.test (P ++ b :: Q0) N (S (length P))
  = Qlt_bool 0 (b - (np_sum P + b - N) / inject_Z (Z.of_nat (length P) + 1)).
Proof.
  unfold Spec.test, Spec.s_at, Spec.cssv, Spec.cumsum.
  cbn [Nat.sub]. rewrite Nat.sub_0_r, nth_middle.
  rewrite <- (Nat.add_1_r (length P)), firstn_app_2. cbn [firstn].
  apply Qlt_bool_comp; [reflexivity|].
  rewrite np_sum_app, Nat2Z.inj_add. cbn [np_sum fold_right Z.of_nat Pos.of_succ_nat].
  assert (E : np_sum P + (b + 0) == np_sum P + b) by ring.
  rewrite E. reflexivity.
Qed.

Lemma last_qual_is_rho N s r c :
  descending s ->
  last_qual N 0 0 s = Some (r, c) ->
  exists rho, r = Z.of_nat rho /\ Spec.is_rho s N rho /\
              c / inject_Z r == Spec.theta s N rho.
Proof.
  intros Hd H.
  destruct (threshold_split _ _ _ _ Hd H)
    as (s1 & a & s2 & -> & Hr & Hc & Hlt & _ & _ & Hf).
  exists (S (length s1)).
  assert (Hr' : r = Z.of_nat (S (length s1))) by lia.
  assert (Hth : c / inject_Z r
                == Spec.theta (s1 ++ a :: s2) N (S (length s1))).
  { unfold Spec.theta, Spec.cssv, Spec.cumsum.
    rewrite <- (Nat.add_1_r (length s1)) at 1. rewrite firstn_app_2. cbn [firstn].
    rewrite np_sum_app. cbn [np_sum fold_right]. rewrite Hr', Hc.
    assert (E : np_sum s1 + (a + 0) == np_sum s1 + a) by ring.
    rewrite E. reflexivity. }
  split; [exact Hr'|]. split; [|exact Hth].
  split; [rewrite length_app; cbn [length]; lia|]. split.
  - rewrite test_at_split. apply Qlt_bool_iff.
    rewrite <- Hr, <- Hc. lra.
  - intros i [Hi1 Hi2]. rewrite length_app in Hi2. cbn [length] in Hi2.
    destruct (nth_split s2 0 (n := i - S (S (length s1)))) as (p & q & Hs2 & Hp);
      [lia|].
    set (b := nth (i - S (S (length s1))) s2 0) in *.
    specialize (Hf p b q Hs2). rewrite Hs2.
    change (s1 ++ a :: p ++ b :: q) with (s1 ++ (a :: p) ++ b :: q).
    rewrite app_assoc.
    replace i with (S (length (s1 ++ a :: p)))
      by (rewrite length_app; cbn [length]; lia).
    rewrite test_at_split, <- Hf, length_app. cbn [length].
    apply Qlt_bool_comp; [reflexivity|].
    rewrite np_sum_app, np_sum_cons.
    replace (length s1 + S (length p))%nat with (S (length s1) + length p)%nat by lia.
    assert (E : np_sum s1 + (a + np_sum p) + b == np_sum s1 + a + np_sum p + b)
      by ring.
    rewrite E. reflexivity.
Qed.

Lemma output_proper v th th' :
  th == th' -> Forall2 Qeq (Spec.output v th) (Spec.output v th').
Proof.
  intros H. unfold Spec.output. induction v as [|a v IH]; cbn [map]; constructor; auto.
  now rewrite H.
Qed.

Lemma abs_nonneg_all x : Forall (fun e => 0 <= e) (rev (np_sort (np_abs x))).
Proof.
  apply Forall_forall. intros e He.
  apply (Permutation_in _ (Permutation_sym (sorted_perm (np_abs x)))) in He.
  unfold np_abs in He. apply in_map_iff in He. destruct He as (v & <- & _).
  apply Qabs_nonneg.
Qed.

(** On the slow path with a positive radius the search succeeds. *)
Lemma project_slow_path x N :
  0 < N -> Qle_bool (norm1 x) N = false ->
  exists r c,
    last_qual N 0 0 (rev (np_sort (np_abs x))) = Some (r, c) /\
    project_onto_l1_ball x N = Ok (Spec.output x (c / inject_Z r)) /\
    0 <= c / inject_Z r /\
    np_sum (map (shrink (c / inject_Z r)) (np_abs x)) == N.
Proof.
  intros HN Hx.
  pose proof (norm1_general_path _ _ Hx) as Hsum.
  pose proof (sorted_descending (np_abs x)) as Hd.
  destruct (last_qual_exists N (rev (np_sort (np_abs x))) HN) as (r & c & E).
  { intros E. rewrite E in Hsum. cbn in Hsum. lra. }
  exists r, c. split; [exact E|]. split; [|split].
  - rewrite (project_general _ _ Hx), E. reflexivity.
  - apply (theta_nonneg N _ r c Hd (abs_nonneg_all x) Hsum E).
  - rewrite <- (shrink_sum_total _ _ _ _ Hd E).
    apply np_sum_perm, Permutation_map, sorted_perm.
Qed.

(** ** The L1-ball projector: results *)

Lemma project_fast_path v N :
  Qle_bool (norm1 v) N = true -> project_onto_l1_ball v N = Ok v.
Proof. intros H. unfold project_onto_l1_ball. now rewrite H. Qed.

(** In exact arithmetic: when the L1 norm of [v] exceeds a positive radius
    [N], the call returns, and the result is
    the vector of [sign(v[j]) * max(|v[j]| - theta, 0)], where [theta] is
    [(cumsum[rho] - N) / rho] over the descending sort [s] of [|v|] and [rho]
    is the largest 1-based index passing the test
    [s[rho] - (cumsum[rho] - N) / rho > 0]; for [v = [4, -3, 2]] and [N = 5]
    the threshold is 4/3 (at [rho = 3]) and the result [8/3, -5/3, 2/3]. *)
Lemma exact_general_path :
  (forall (v : vec) (N : Q),
     0 < N -> N < norm1 v ->
     let s := rev (np_sort (np_abs v)) in
     descending s /\ Permutation (np_abs v) s /\
     exists rho out,
       Spec.is_rho s N rho /\
       project_onto_l1_ball v N = Ok out /\
       Forall2 Qeq out (Spec.output v (Spec.theta s N rho))) /\
  (exists th out,
     l1_threshold (np_abs [4; -3; 2]) 5 = Ok (3%Z, th) /\ Qred th = 4 # 3 /\
     project_onto_l1_ball [4; -3; 2] 5 = Ok out /\
     map Qred out = [8 # 3; -5 # 3; 2 # 3]).
Proof.
  split.
  - intros v N HN Hv s.
    split; [apply sorted_descending|]. split; [apply sorted_perm|].
    apply Qle_bool_false_iff in Hv.
    destruct (project_slow_path v N HN Hv) as (r & c & E & Hp & _ & _).
    destruct (last_qual_is_rho N s r c (sorted_descending _) E)
      as (rho & _ & Hrho & Hth).
    exists rho, (Spec.output v (c / inject_Z r)).
    split; [exact Hrho|]. split; [exact Hp|]. apply output_proper, Hth.
  - eexists. eexists. vm_compute. repeat split.
Qed.

Lemma exact_general_path_witness :
  0 < 5 /\ 5 < norm1 [4; -3; 2] /\
  exists rho out,
    Spec.is_rho (rev (np_sort (np_abs [4; -3; 2]))) 5 rho /\
    project_onto_l1_ball [4; -3; 2] 5 = Ok out /\
    Forall2 Qeq out
      (Spec.output [4; -3; 2]
         (Spec.theta (rev (np_sort (np_abs [4; -3; 2]))) 5 rho)).
Proof.
  assert (H1 : 0 < 5) by reflexivity.
  assert (H2 : 5 < norm1 [4; -3; 2]) by reflexivity.
  split; [exact H1|]. split; [exact H2|].
  exact (proj2 (proj2
           (proj1 exact_general_path [4; -3; 2] 5 H1 H2))).
Defined.

Lemma output_abs_le th v :
  Qabs (np_sign v * shrink th (Qabs v)) <= shrink th (Qabs v).
Proof.
  pose proof (shrink_nonneg th (Qabs v)) as Hs.
  rewrite Qabs_Qmult, (Qabs_pos _ Hs).
  destruct (np_sign_cases v) as [[_ ->]|[[_ ->]|[_ ->]]].
  - change (Qabs (-1)) with 1. lra.
  - change (Qabs 0) with 0. lra.
  - change (Qabs 1) with 1. lra.
Qed.

Lemma np_sum_le_map {A} (f1 f2 : A -> Q) l :
  (forall a, f1 a <= f2 a) -> np_sum (map f1 l) <= np_sum (map f2 l).
Proof.
  intros H. induction l as [|a l IH]; cbn [map]; [apply Qle_refl|].
  rewrite !np_sum_cons. specialize (H a). lra.
Qed.

Lemma shrink_le_abs th v : 0 <= th -> shrink th (Qabs v) <= Qabs v.
Proof.
  intros H. pose proof (Qabs_nonneg v). unfold shrink.
  apply Q.max_lub; lra.
Qed.

Lemma output_same_sign th v : 0 <= np_sign v * shrink th (Qabs v) * v.
Proof.
  pose proof (shrink_nonneg th (Qabs v)) as Hs.
  destruct (np_sign_cases v) as [[Hv ->]|[[Hv ->]|[Hv ->]]]; nra.
Qed.

(** In exact arithmetic: for a positive radius, every coordinate of the
    result is at most as
    large in magnitude as the coordinate of the input, and never of the
    opposite sign. *)
Lemma exact_shrinks (v : vec) (N : Q) :
  0 < N ->
  exists out,
    project_onto_l1_ball v N = Ok out /\
    Forall2 (fun o vj => Qabs o <= Qabs vj /\ 0 <= o * vj) out v.
Proof.
  intros HN. destruct (Qle_bool (norm1 v) N) eqn:Hv.
  - exists v. split; [apply project_fast_path, Hv|].
    clear Hv. induction v as [|a v IH]; constructor; auto.
    split; [apply Qle_refl | nra].
  - destruct (project_slow_path v N HN Hv) as (r & c & _ & Hp & Hth & _).
    exists (Spec.output v (c / inject_Z r)). split; [exact Hp|].
    clear Hv Hp. unfold Spec.output.
    induction v as [|a v IH]; cbn [map]; constructor; auto.
    split.
    + eapply Qle_trans; [apply output_abs_le | apply shrink_le_abs, Hth].
    + apply output_same_sign.
Qed.

Lemma exact_shrinks_witness :
  0 < 5 /\
  exists out,
    project_onto_l1_ball [4; -3; 2] 5 = Ok out /\
    Forall2 (fun o vj => Qabs o <= Qabs vj /\ 0 <= o * vj) out [4; -3; 2].
Proof.
  assert (H : 0 < 5) by reflexivity.
  split; [exact H | exact (exact_shrinks [4; -3; 2] 5 H)].
Defined.

Lemma norm1_nonneg v : 0 <= norm1 v.
Proof.
  unfold norm1, np_abs. induction v as [|a v IH]; cbn [map]; [apply Qle_refl|].
  rewrite np_sum_cons. pose proof (Qabs_nonneg a). lra.
Qed.

Lemma norm1_zero v : norm1 v <= 0 -> Forall (fun e => e == 0) v.
Proof.
  induction v as [|a v IH]; [constructor|].
  unfold norm1, np_abs. cbn [map]. rewrite np_sum_cons. intros H.
  pose proof (Qabs_nonneg a) as Ha. pose proof (norm1_nonneg v) as Hv.
  unfold norm1, np_abs in Hv, IH.
  constructor; [|apply IH; lra].
  assert (Ha0 : Qabs a <= 0) by lra.
  apply Qabs_Qle_condition in Ha0. lra.
Qed.

(** In exact arithmetic: with a radius [N <= 0] the projector returns [v]
    unchanged when the L1 norm of [v] is at most [N] (so [N] is 0 and [v]
    is all zeros); otherwise no index passes the threshold test and
    indexing the empty selection raises [IndexError], after the sort and
    the cumulative sums have been computed. *)
Lemma exact_nonpositive_radius (v : vec) (N : Q) :
  N <= 0 ->
  project_onto_l1_ball v N
  = (if Qle_bool (norm1 v) N then Ok v else Raise IndexError) /\
  (norm1 v <= N -> N == 0 /\ Forall (fun e => e == 0) v).
Proof.
  intros HN. split.
  - destruct (Qle_bool (norm1 v) N) eqn:Hv.
    + apply project_fast_path, Hv.
    + rewrite (project_general _ _ Hv).
      now rewrite (last_qual_nonpos N _ HN (sorted_descending (np_abs v))).
  - intros Hv. pose proof (norm1_nonneg v) as H0.
    split; [lra|]. apply norm1_zero. lra.
Qed.

Lemma exact_nonpositive_radius_witness :
  -1 <= 0 /\
  project_onto_l1_ball [3] (-1) = Raise IndexError /\
  (norm1 [3] <= -1 -> -1 == 0 /\ Forall (fun e => e == 0) [3]).
Proof.
  assert (H : -1 <= 0) by (vm_compute; discriminate).
  split; [exact H | exact (exact_nonpositive_radius [3] (-1) H)].
Defined.

(** ** The Huber gradient *)

Lemma np_sum_map_ext {A} (t t' : A -> Q) l :
  (forall i, In i l -> t i == t' i) -> np_sum (map t l) == np_sum (map t' l).
Proof.
  induction l as [|a l IH]; intros H; cbn [map]; [reflexivity|].
  rewrite !np_sum_cons, (H a (or_introl eq_refl)), IH; [reflexivity|].
  intros i Hi. apply H. now right.
Qed.


Lemma list_as_map_nth {A} (d : A) l :
  map (fun i => nth i l d) (seq 0 (length l)) = l.
Proof.
  induction l as [|a l IH]; [reflexivity|].
  cbn [length seq map nth]. f_equal.
  rewrite <- seq_shift, map_map. exact IH.
Qed.


Lemma nth_map_lt {A B} (h : A -> B) l i d d' :
  (i < length l)%nat -> nth i (map h l) d = h (nth i l d').
Proof.
  intros H. rewrite (nth_indep _ d (h d')); [apply map_nth|].
  now rewrite length_map.
Qed.



Lemma np_where_map {A} (c : A -> bool) (h1 h2 : A -> Q) l :
  np_where (map c l) (map h1 l) (map h2 l)
  = map (fun u => if c u then h1 u else h2 u) l.
Proof. induction l as [|a l IH]; cbn; [reflexivity | now rewrite IH]. Qed.

#[global] Instance np_sign_comp : Proper (Qeq ==> Qeq) np_sign.
Proof.
  intros a b H.
  destruct (np_sign_cases a) as [[Ha ->]|[[Ha ->]|[Ha ->]]];
    destruct (np_sign_cases b) as [[Hb ->]|[[Hb ->]|[Hb ->]]];
    try reflexivity; exfalso; lra.
Qed.

#[global] Instance huber_prime_comp : Proper (Qeq ==> Qeq) Spec.huber_prime.
Proof.
  intros a b H. unfold Spec.huber_prime. rewrite H.
  destruct (Qle_bool (Qabs b) 1); now rewrite H.
Qed.

(** What [huber_gradient] computes on arrays of matching shapes. *)
Lemma huber_gradient_ok A x y m n :
  wf_matrix A m n -> length x = n -> length y = m ->
  huber_gradient A x y
  = Ok (map (fun j => dot (map (fun r => nth j r 0) (rows A))
                          (map Spec.huber_prime
                               (zip_with Qminus (map (fun r => dot r x) (rows A)) y)))
            (seq 0 n)).
Proof.
  intros (Hm & Hn & Hrows) Hx Hy. unfold huber_gradient, matvec.
  rewrite Hx, Hn, Nat.eqb_refl. cbn [bind].
  unfold broadcast2. rewrite length_map, Hm, Hy, Nat.eqb_refl. cbn [bind].
  rewrite np_where_map. cbn [transpose ncols rows].
  rewrite length_map, zip_with_length, length_map, Hm, Nat.eqb_refl
    by (rewrite length_map; lia).
  rewrite map_map, Hn. reflexivity.
Qed.

Lemma huber_gradient_length A x y m n gr :
  wf_matrix A m n -> length x = n -> length y = m ->
  huber_gradient A x y = Ok gr -> length gr = n.
Proof.
  intros HA Hx Hy H. rewrite (huber_gradient_ok _ _ _ _ _ HA Hx Hy) in H.
  injection H as <-. now rewrite length_map, length_seq.
Qed.



(** ** Projected gradient descent *)

Lemma Qsquare_nonneg x : 0 <= x * x.
Proof. unfold Qle, Qmult. cbn. rewrite Z.mul_1_r. apply Z.square_nonneg. Qed.

Lemma sum_squares_nonneg v : 0 <= sum_squares v.
Proof.
  unfold sum_squares. induction v as [|a v IH]; cbn [map]; [apply Qle_refl|].
  rewrite np_sum_cons. pose proof (Qsquare_nonneg a). lra.
Qed.

(** [norm2_lt] is the comparison of the real Euclidean norm with the
    tolerance. *)
Lemma norm2_lt_sqrt v tol :
  norm2_lt v tol = true
  <-> Rdefinitions.Rlt (R_sqrt.sqrt (Rdefinitions.Q2R (sum_squares v)))
                       (Rdefinitions.Q2R tol).
Proof.
  unfold norm2_lt. rewrite andb_true_iff, !Qlt_bool_iff.
  pose proof (Qreals.Qle_Rle _ _ (sum_squares_nonneg v)) as HS.
  rewrite RMicromega.Q2R_0 in HS.
  set (S2 := Rdefinitions.Q2R (sum_squares v)) in *.
  split.
  - intros [Ht Hlt].
    apply Qreals.Qlt_Rlt in Ht, Hlt. rewrite RMicromega.Q2R_0 in Ht.
    rewrite Qreals.Q2R_mult in Hlt. fold S2 in Hlt.
    rewrite <- (R_sqrt.sqrt_square (Rdefinitions.Q2R tol))
      by (apply RIneq.Rlt_le, Ht).
    apply R_sqrt.sqrt_lt_1_alt. split; assumption.
  - intros H.
    pose proof (R_sqrt.sqrt_pos S2) as Hp.
    assert (Ht : Rdefinitions.Rlt (Rdefinitions.IZR 0) (Rdefinitions.Q2R tol))
      by (eapply RIneq.Rle_lt_trans; eassumption).
    split.
    + apply Qreals.Rlt_Qlt. now rewrite RMicromega.Q2R_0.
    + apply Qreals.Rlt_Qlt. rewrite Qreals.Q2R_mult. fold S2.
      rewrite <- (R_sqrt.sqrt_sqrt S2 HS) at 1.
      apply RIneq.Rmult_le_0_lt_compat; assumption.
Qed.

Lemma project_length x N out :
  project_onto_l1_ball x N = Ok out -> length out = length x.
Proof.
  destruct (Qle_bool (norm1 x) N) eqn:Hx.
  - rewrite (project_fast_path _ _ Hx). now intros [= <-].
  - rewrite (project_general _ _ Hx).
    destruct (last_qual N 0 0 (rev (np_sort (np_abs x)))) as [[r c]|];
      [|discriminate].
    intros [= <-]. unfold Spec.output. apply length_map.
Qed.

Lemma project_total x N :
  0 < N ->
  exists out, project_onto_l1_ball x N = Ok out /\
              length out = length x /\ norm1 out <= N.
Proof.
  intros HN. destruct (Qle_bool (norm1 x) N) eqn:Hx.
  - exists x. rewrite (project_fast_path _ _ Hx).
    repeat split. apply Qle_bool_iff, Hx.
  - destruct (project_slow_path x N HN Hx) as (r & c & _ & Hp & _ & Hsum).
    exists (Spec.output x (c / inject_Z r)). split; [exact Hp|]. split.
    + apply length_map.
    + rewrite <- Hsum. unfold norm1, np_abs, Spec.output. rewrite !map_map.
      apply np_sum_le_map. intros a. apply output_abs_le.
Qed.

Section Descent.
Variables (radius : Q) (A : matrix) (y : vec) (eta eps : Q) (m n : nat).
Hypothesis radius_pos : 0 < radius.
Hypothesis A_shape : wf_matrix A m n.
Hypothesis y_shape : length y = m.

(** One pass through the loop body succeeds on an iterate of length [n]. *)
Lemma step_total x :
  length x = n ->
  exists gr x1 x2,
    huber_gradient A x y = Ok gr /\ length gr = n /\
    broadcast2 Qminus x (map (Qmult eta) gr) = Ok x1 /\
    project_onto_l1_ball x1 radius = Ok x2 /\
    length x2 = n /\ norm1 x2 <= radius /\
    Spec.step radius A y eta x = Ok x2.
Proof.
  intros Hx.
  pose proof (huber_gradient_ok _ _ _ _ _ A_shape Hx y_shape) as Hg.
  pose proof (huber_gradient_length _ _ _ _ _ _ A_shape Hx y_shape Hg) as Hlen.
  set (gr := map _ (seq 0 n)) in *.
  assert (H1 : broadcast2 Qminus x (map (Qmult eta) gr)
               = Ok (zip_with Qminus x (map (Qmult eta) gr))).
  { unfold broadcast2. now rewrite length_map, Hx, Hlen, Nat.eqb_refl. }
  destruct (project_total (zip_with Qminus x (map (Qmult eta) gr)) radius radius_pos)
    as (x2 & Hp & Hl2 & Hn2).
  exists gr, (zip_with Qminus x (map (Qmult eta) gr)), x2.
  rewrite zip_with_length in Hl2 by (rewrite length_map; lia).
  repeat split; auto; try lia.
  unfold Spec.step. rewrite Hg. cbn [bind]. rewrite H1. exact Hp.
Qed.

Lemma iterate_total x0 :
  length x0 = n ->
  forall k, exists xk,
    Spec.iterate radius A y eta x0 k = Ok xk /\ length xk = n /\
    ((0 < k)%nat -> norm1 xk <= radius).
Proof.
  intros Hx0. induction k as [|k (xk & Hk & Hlen & _)].
  - exists x0. repeat split; auto. lia.
  - destruct (step_total xk Hlen) as (gr & x1 & x2 & _ & _ & _ & _ & Hl & Hn & Hs).
    exists x2. cbn [Spec.iterate]. rewrite Hk. cbn [bind].
    repeat split; auto.
Qed.

End Descent.

Lemma N_pos : 0 < N.
Proof. reflexivity. Qed.

Example gradient_descent_two_steps :
  exists x',
    gradient_descent {| ncols := 1; rows := [[1]] |} [0] [1] (1 # 4) 2 (1 # 100)
    = Ok (x', []) /\ map Qred x' = [3 # 4].
Proof. eexists. vm_compute. split; reflexivity. Qed.

Example gradient_descent_converges :
  exists x',
    gradient_descent {| ncols := 1; rows := [[1]] |} [1] [1] (1 # 4) 5 (1 # 100)
    = Ok (x', [0%Z]) /\ map Qred x' = [1].
Proof. eexists. vm_compute. split; reflexivity. Qed.

(** C10: with a budget of 0 the loop body never runs and the starting point
    comes back as it is, whatever the inputs: also a point outside the L1
    ball, and also inputs on which the gradient oracle would raise. *)
Theorem gradient_descent_zero_budget :
  (forall (A : matrix) (x0 y : vec) (eta eps : Q),
     gradient_descent A x0 y eta 0 eps = Ok (x0, [])) /\
  (N < norm1 [20] /\
   gradient_descent {| ncols := 1; rows := [[1]] |} [20] [0] 1 0 1
   = Ok ([20], [])) /\
  (huber_gradient {| ncols := 1; rows := [[1]] |} [1; 2] [0] = Raise ValueError /\
   gradient_descent {| ncols := 1; rows := [[1]] |} [1; 2] [0] 1 0 1
   = Ok ([1; 2], [])).
Proof. repeat split. Qed.

(** ** ADMM *)

Lemma sum_squares_neg_dual rho (D lam : vec) :
  sum_squares (zip_with Qminus D (map (fun a => a / rho) lam))
  == sum_squares (zip_with Qplus D (map (fun a => a / rho) (map Qopp lam))).
Proof.
  unfold sum_squares. revert lam.
  induction D as [|d D IH]; intros [|l lam]; cbn [map zip_with]; try reflexivity.
  rewrite !np_sum_cons, IH. unfold Qdiv. ring.
Qed.

(** The objective of the w-update is the one of the specification with
    the dual variable negated. *)
Lemma w_obj_neg_dual rho w_t lam u :
  w_obj rho w_t lam u == Spec.w_objective rho w_t (map Qopp lam) u.
Proof.
  unfold w_obj, Spec.w_objective. now rewrite sum_squares_neg_dual.
Qed.

Lemma is_minimizer_ext n (obj obj' : objective) u :
  (forall v, obj v == obj' v) -> is_minimizer n obj u -> is_minimizer n obj' u.
Proof.
  intros H [Hl Hmin]. split; [exact Hl|].
  intros v Hv. rewrite <- !H. apply Hmin, Hv.
Qed.

(** C2 (as the code has it): in every pass through the loop the w-update
    hands the solver the objective [g(u) + (rho/2) ||u - w_tilde - y/rho||^2],
    with [w_tilde] the value left by the w_tilde-update of the same pass and
    [y] the dual variable before this pass updates it; when that solve meets
    its contract, [w] is a minimiser of this objective, which is the
    objective of the specification with the sign of the dual term reversed. *)
Theorem admm_w_update (A : matrix) (b : vec) (rho : Q)
    (solve : objective -> result solve_out) (n : nat)
    (st st' : admm_state) (stop : bool) :
  admm_iteration A b rho solve st = Ok (st', stop) ->
  (forall w_t out u,
      solve (w_obj rho w_t (y_dual st)) = Ok out -> value out = Some u ->
      is_minimizer n (w_obj rho w_t (y_dual st)) u) ->
  exists w out1 w_t w',
    w_value st = Some w /\
    solve (w_tilde_obj A b rho w (y_dual st)) = Ok out1 /\
    value out1 = Some w_t /\
    w_tilde_value st' = Some w_t /\
    w_value st' = Some w' /\
    is_minimizer n
      (fun u => g u + (rho / 2) * sum_squares
                  (zip_with Qminus (zip_with Qminus u w_t)
                                   (map (fun a => a / rho) (y_dual st)))) w' /\
    is_minimizer n (Spec.w_objective rho w_t (map Qopp (y_dual st))) w'.
Proof.
  unfold admm_iteration. intros H Hc.
  destruct (w_value st) as [w|]; [|discriminate]. cbn [get_value bind] in H.
  destruct (solve (w_tilde_obj A b rho w (y_dual st))) as [out1|] eqn:E1;
    [|discriminate].
  cbn [bind] in H.
  destruct (value out1) as [w_t|] eqn:V1; [|discriminate]. cbn [get_value bind] in H.
  destruct (solve (w_obj rho w_t (y_dual st))) as [out2|] eqn:E2; [|discriminate].
  cbn [bind] in H.
  destruct (value out2) as [w'|] eqn:V2; [|discriminate]. cbn [get_value bind] in H.
  injection H as <- _. cbn [w_value w_tilde_value].
  pose proof (Hc w_t out2 w' E2 V2) as Hmin.
  exists w, out1, w_t, w'.
  split; [reflexivity|]. split; [exact E1|]. split; [exact V1|].
  split; [reflexivity|]. split; [reflexivity|].
  split; [exact Hmin|].
  apply (is_minimizer_ext _ _ _ _ (w_obj_neg_dual rho w_t (y_dual st)) Hmin).
Qed.

Lemma quad_solve1_exact (obj : objective) (al be ga : Q) :
  0 < al ->
  (forall q, obj [q] == al * q * q + be * q + ga) ->
  forall out u, quad_solve1 obj = Ok out -> value out = Some u ->
                is_minimizer 1 obj u.
Proof.
  intros Hal Hobj out u H V.
  set (u0 := Qred (- ((obj [1] - obj [-1]) / 2)
                   / (2 * ((obj [1] + obj [-1] - 2 * obj [0]) / 2)))).
  assert (Hout : out = {| status := optimal; value := Some [u0] |})
    by (unfold quad_solve1 in H; cbv zeta in H; fold u0 in H; congruence).
  rewrite Hout in V. change (Some [u0] = Some u) in V.
  assert (Hu0 : u = [u0]) by congruence. rewrite Hu0. clear H V Hout Hu0 out u.
  assert (Hu : 2 * al * u0 == - be).
  { unfold u0. rewrite Qred_correct, !Hobj. field. intros Hx.
    assert (E : al + be + ga + (al * -1 * -1 + be * -1 + ga) - 2 * ga == 2 * al)
      by ring.
    rewrite E in Hx. lra. }
  clearbody u0. split; [reflexivity|].
  intros [|q [|? ?]] Hv; try discriminate.
  rewrite !Hobj.
  pose proof (Qmult_le_0_compat al ((q - u0) * (q - u0))) as Hsq.
  pose proof (Qsquare_nonneg (q - u0)) as H0.
  specialize (Hsq (Qlt_le_weak _ _ Hal) H0).
  assert (E : al * q * q + be * q + ga - (al * u0 * u0 + be * u0 + ga)
              == al * ((q - u0) * (q - u0)) + (q - u0) * (2 * al * u0 + be)) by ring.
  assert (E' : (q - u0) * (2 * al * u0 + be) == 0) by (rewrite Hu; ring).
  lra.
Qed.

Lemma w_obj_quadratic rho w_t lam :
  0 <= rho ->
  exists al be ga, 0 < al /\
    forall q, w_obj rho w_t lam [q] == al * q * q + be * q + ga.
Proof.
  intros Hrho. unfold w_obj, g, sum_squares.
  destruct w_t as [|t w_t]; [|destruct lam as [|l lam]].
  - exists (1 # 2), 0, 0. split; [reflexivity|]. intros q.
    cbn [zip_with map np_sum fold_right]. field.
  - exists (1 # 2), 0, 0. split; [reflexivity|]. intros q.
    cbn [zip_with map np_sum fold_right]. field.
  - exists ((1 # 2) + rho * (1 # 2)), (- rho * (t + l / rho)),
      (rho * (1 # 2) * ((t + l / rho) * (t + l / rho))).
    split; [lra|]. intros q.
    cbn [zip_with map np_sum fold_right]. unfold Qdiv.
    set (ir := / rho). field.
Qed.

Lemma quad_solve1_w_obj rho lam :
  0 <= rho ->
  forall w_t out u,
    quad_solve1 (w_obj rho w_t lam) = Ok out -> value out = Some u ->
    is_minimizer 1 (w_obj rho w_t lam) u.
Proof.
  intros Hrho w_t out u.
  destruct (w_obj_quadratic rho w_t lam Hrho) as (al & be & ga & Hal & Hq).
  apply (quad_solve1_exact _ al be ga Hal Hq).
Qed.

(** The second pass of the run on [f(u) = (u - 1)^2 / 2], where the dual
    variable is 1/4: the w-update returns 3/8. *)
Lemma admm_w_update_witness :
  let A := {| ncols := 1; rows := [[1]] |} in
  let st := {| w_value := Some [1 # 4]; w_tilde_value := Some [1 # 2];
               y_dual := [1 # 4]; residuals := [1 # 16] |} in
  let st' := {| w_value := Some [3 # 8]; w_tilde_value := Some [1 # 2];
                y_dual := [24 # 64]; residuals := [1 # 16; 4 # 256] |} in
  admm_iteration A [1] 1 quad_solve1 st = Ok (st', false) /\
  (forall w_t out u,
      quad_solve1 (w_obj 1 w_t (y_dual st)) = Ok out ->
      value out = Some u ->
      is_minimizer 1 (w_obj 1 w_t (y_dual st)) u) /\
  exists w out1 w_t w',
    w_value st = Some w /\
    quad_solve1 (w_tilde_obj A [1] 1 w (y_dual st)) = Ok out1 /\
    value out1 = Some w_t /\
    w_tilde_value st' = Some w_t /\
    w_value st' = Some w' /\
    is_minimizer 1
      (fun u => g u + (1 / 2) * sum_squares
                  (zip_with Qminus (zip_with Qminus u w_t)
                     (map (fun a => a / 1) (y_dual st)))) w' /\
    is_minimizer 1 (Spec.w_objective 1 w_t (map Qopp (y_dual st))) w'.
Proof.
  intros A st st'.
  assert (E : admm_iteration A [1] 1 quad_solve1 st = Ok (st', false))
    by (vm_compute; reflexivity).
  assert (Hc : forall w_t out u,
             quad_solve1 (w_obj 1 w_t (y_dual st)) = Ok out ->
             value out = Some u ->
             is_minimizer 1 (w_obj 1 w_t (y_dual st)) u).
  { apply quad_solve1_w_obj. discriminate. }
  split; [exact E|]. split; [exact Hc|].
  exact (admm_w_update A [1] 1 quad_solve1 1%nat st st' false E Hc).
Defined.

(** C2 fails on the code: on [f(u) = (u - 1)^2 / 2], [g(u) = u^2 / 2] and
    [rho = 1], started from zero with an exact solver, the second pass has
    [w_tilde = 1/2] and the dual [y = 1/4] from the first pass, and it sets
    [w = 3/8], the minimiser of [g(u) + (rho/2) (u - w_tilde - y/rho)^2];
    the objective with [+ y/rho] is smaller at [1/8]. *)
Lemma admm_w_update_sign_counterexample :
  exists st1 st2 stop lam w_t w',
    admm_loop {| ncols := 1; rows := [[1]] |} [1] 1 quad_solve1 (admm_init 1)
              (range 1) = Ok st1 /\
    admm_iteration {| ncols := 1; rows := [[1]] |} [1] 1 quad_solve1 st1
    = Ok (st2, stop) /\
    y_dual st1 = lam /\ w_tilde_value st2 = Some w_t /\ w_value st2 = Some w' /\
    map Qred lam = [1 # 4] /\ map Qred w_t = [1 # 2] /\ map Qred w' = [3 # 8] /\
    is_minimizer 1 (w_obj 1 w_t lam) w' /\
    ~ is_minimizer 1 (Spec.w_objective 1 w_t lam) w'.
Proof.
  let r1 := eval vm_compute in
      (admm_loop {| ncols := 1; rows := [[1]] |} [1] 1 quad_solve1 (admm_init 1)
                 (range 1)) in
  match r1 with
  | Ok ?s1 =>
      let r2 := eval vm_compute in
          (admm_iteration {| ncols := 1; rows := [[1]] |} [1] 1 quad_solve1 s1) in
      match r2 with
      | Ok (?s2, ?stop) =>
          let wt := eval vm_compute in (w_tilde_value s2) in
          let w' := eval vm_compute in (w_value s2) in
          let lam := eval vm_compute in (y_dual s1) in
          match wt with
          | Some ?wt0 =>
              match w' with
              | Some ?w0 => exists s1, s2, stop, lam, wt0, w0
              end
          end
      end
  end.
  split; [vm_compute; reflexivity|].
  split; [vm_compute; reflexivity|].
  split; [reflexivity|]. split; [reflexivity|]. split; [reflexivity|].
  split; [vm_compute; reflexivity|].
  split; [vm_compute; reflexivity|].
  split; [vm_compute; reflexivity|].
  split.
  - eapply quad_solve1_w_obj; [discriminate | reflexivity | vm_compute; reflexivity].
  - intros [_ H]. specialize (H [1 # 8] eq_refl). vm_compute in H.
    apply H. reflexivity.
Qed.

(** ** ADMM: the status a sub-solve reports *)

Lemma admm_iteration_same_values A b rho solve1 solve2 st :
  same_values solve1 solve2 ->
  admm_iteration A b rho solve1 st = admm_iteration A b rho solve2 st.
Proof.
  intros H. unfold admm_iteration.
  destruct (w_value st) as [w|]; [|reflexivity]. cbn [get_value bind].
  pose proof (H (w_tilde_obj A b rho w (y_dual st))) as H1.
  destruct (solve1 (w_tilde_obj A b rho w (y_dual st))) as [o1|e1],
           (solve2 (w_tilde_obj A b rho w (y_dual st))) as [o2|e2];
    try contradiction; [|now subst].
  cbn [bind]. rewrite <- H1.
  destruct (value o1) as [w_t|]; [|reflexivity]. cbn [get_value bind].
  pose proof (H (w_obj rho w_t (y_dual st))) as H2.
  destruct (solve1 (w_obj rho w_t (y_dual st))) as [o3|e3],
           (solve2 (w_obj rho w_t (y_dual st))) as [o4|e4];
    try contradiction; [|now subst].
  cbn [bind]. rewrite <- H2. reflexivity.
Qed.

Lemma admm_iteration_raises A b rho solve st e :
  admm_iteration A b rho solve st = Raise e ->
  e = MissingValue \/ exists obj, solve obj = Raise e.
Proof.
  unfold admm_iteration.
  destruct (w_value st) as [w|]; cbn [get_value bind];
    [|intros [= <-]; now left].
  destruct (solve (w_tilde_obj A b rho w (y_dual st))) as [o1|e1] eqn:E1;
    cbn [bind]; [|intros [= <-]; right; eauto].
  destruct (value o1) as [w_t|]; cbn [get_value bind]; [|intros [= <-]; now left].
  destruct (solve (w_obj rho w_t (y_dual st))) as [o2|e2] eqn:E2;
    cbn [bind]; [|intros [= <-]; right; eauto].
  destruct (value o2) as [w'|]; cbn [get_value bind]; [|intros [= <-]; now left].
  discriminate.
Qed.

(** C6 (as the code has it): the loop never reads the status a sub-solve
    reports.  Two solvers that leave the same values and raise the same
    exceptions give the same run whatever statuses they report, so a
    sub-solve that reports a failure but leaves a value is followed by the
    next steps of the loop on that value; and the only exceptions that end a
    run are those the solver itself raises and the one of a variable without
    a value: none names a block or an iteration. *)
Theorem admm_ignores_status (A : matrix) (b : vec) (rho : Q)
    (solve1 solve2 : objective -> result solve_out) (n : nat) (max_iters : Z) :
  same_values solve1 solve2 ->
  admm A b rho solve1 n max_iters = admm A b rho solve2 n max_iters /\
  forall e, admm A b rho solve1 n max_iters = Raise e ->
            e = MissingValue \/ exists obj, solve1 obj = Raise e.
Proof.
  intros H. unfold admm. generalize (admm_init n) as st.
  induction (range max_iters) as [|k ks IH]; intros st; cbn [admm_loop].
  - split; [reflexivity | discriminate].
  - rewrite (admm_iteration_same_values A b rho solve1 solve2 st H).
    pose proof (admm_iteration_raises A b rho solve2 st) as Hr.
    destruct (admm_iteration A b rho solve2 st) as [[st' stop]|e'] eqn:E;
      cbn [bind].
    + destruct stop; [split; [reflexivity | discriminate] | apply IH].
    + split; [reflexivity|]. intros e [= <-].
      destruct (Hr e' eq_refl) as [->|[obj Hobj]]; [now left|right].
      exists obj. specialize (H obj). rewrite Hobj in H.
      destruct (solve1 obj); [contradiction | now subst].
Qed.

Lemma quad_solve1_inaccurate_same_values :
  same_values quad_solve1 (with_status optimal_inaccurate quad_solve1).
Proof. intros obj. reflexivity. Qed.

Lemma admm_ignores_status_witness :
  same_values quad_solve1 (with_status optimal_inaccurate quad_solve1) /\
  admm {| ncols := 1; rows := [[1]] |} [1] 1 quad_solve1 1 3
  = admm {| ncols := 1; rows := [[1]] |} [1] 1
         (with_status optimal_inaccurate quad_solve1) 1 3 /\
  forall e, admm {| ncols := 1; rows := [[1]] |} [1] 1 quad_solve1 1 3 = Raise e ->
            e = MissingValue \/ exists obj, quad_solve1 obj = Raise e.
Proof.
  split; [exact quad_solve1_inaccurate_same_values|].
  exact (admm_ignores_status {| ncols := 1; rows := [[1]] |} [1] 1 quad_solve1
           (with_status optimal_inaccurate quad_solve1) 1 3
           quad_solve1_inaccurate_same_values).
Defined.

(** C6 fails on the code: a solver that reports at each call that it did
    not converge (status [optimal_inaccurate]) makes the loop neither raise
    nor stop: it runs its three passes and records three residuals. *)
Lemma admm_continues_after_failure :
  (forall obj, exists out,
      with_status optimal_inaccurate quad_solve1 obj = Ok out /\
      status out = optimal_inaccurate) /\
  exists st,
    admm {| ncols := 1; rows := [[1]] |} [1] 1
         (with_status optimal_inaccurate quad_solve1) 1 3 = Ok st /\
    length (residuals st) = 3%nat.
Proof.
  split.
  - intros obj. eexists. split; reflexivity.
  - eexists. split; [vm_compute; reflexivity | reflexivity].
Qed.

(** * Further properties of the code *)

(** ** The L1-ball projector *)

Lemma output_abs_eq th v :
  0 <= th -> Qabs (np_sign v * shrink th (Qabs v)) == shrink th (Qabs v).
Proof.
  intros Hth. pose proof (shrink_nonneg th (Qabs v)) as Hs.
  rewrite Qabs_Qmult, (Qabs_pos _ Hs).
  destruct (np_sign_cases v) as [[_ ->]|[[Hv ->]|[_ ->]]].
  - change (Qabs (-1)) with 1. ring.
  - change (Qabs 0) with 0.
    assert (E : shrink th (Qabs v) == 0).
    { apply shrink_below. rewrite Hv. exact Hth. }
    rewrite E. ring.
  - change (Qabs 1) with 1. ring.
Qed.

Lemma slow_path_norm v N r c :
  0 <= c / inject_Z r ->
  np_sum (map (shrink (c / inject_Z r)) (np_abs v)) == N ->
  norm1 (Spec.output v (c / inject_Z r)) == N.
Proof.
  intros Hth Hsum. rewrite <- Hsum.
  unfold norm1, np_abs, Spec.output. rewrite !map_map.
  apply np_sum_map_ext. intros a _. apply output_abs_eq, Hth.
Qed.

(** In exact arithmetic, on the slow path the result lies on the boundary
    of the ball: its L1 norm is exactly the radius. *)
Theorem project_onto_l1_ball_boundary (v : vec) (N : Q) :
  0 < N -> N < norm1 v ->
  exists out, project_onto_l1_ball v N = Ok out /\ norm1 out == N.
Proof.
  intros HN Hv. apply Qle_bool_false_iff in Hv.
  destruct (project_slow_path v N HN Hv) as (r & c & _ & Hp & Hth & Hsum).
  exists (Spec.output v (c / inject_Z r)). split; [exact Hp|].
  apply slow_path_norm; assumption.
Qed.

Lemma project_onto_l1_ball_boundary_witness :
  0 < 5 /\ 5 < norm1 [4; -3; 2] /\
  exists out, project_onto_l1_ball [4; -3; 2] 5 = Ok out /\ norm1 out == 5.
Proof.
  assert (H1 : 0 < 5) by reflexivity.
  assert (H2 : 5 < norm1 [4; -3; 2]) by reflexivity.
  split; [exact H1|]. split; [exact H2|].
  exact (project_onto_l1_ball_boundary [4; -3; 2] 5 H1 H2).
Defined.

(** In exact arithmetic, projecting twice is projecting once: the result of
    a projection is returned unchanged by a second projection onto the
    same ball. *)
Theorem project_onto_l1_ball_idempotent (v : vec) (N : Q) :
  0 < N ->
  exists out,
    project_onto_l1_ball v N = Ok out /\ project_onto_l1_ball out N = Ok out.
Proof.
  intros HN. destruct (project_total v N HN) as (out & Hp & _ & Hn).
  exists out. split; [exact Hp|]. apply project_fast_path, Qle_bool_iff, Hn.
Qed.

Lemma project_onto_l1_ball_idempotent_witness :
  0 < 5 /\
  exists out,
    project_onto_l1_ball [4; -3; 2] 5 = Ok out /\
    project_onto_l1_ball out 5 = Ok out.
Proof.
  assert (H : 0 < 5) by reflexivity.
  split; [exact H | exact (project_onto_l1_ball_idempotent [4; -3; 2] 5 H)].
Defined.

(** In exact arithmetic the projector fails in one way only: it raises
    [IndexError], exactly when the radius is not positive and smaller than
    the L1 norm of the input; and a result has the shape of the input. *)
Lemma exact_failure (v : vec) (N : Q) :
  (forall e, project_onto_l1_ball v N = Raise e <->
             e = IndexError /\ N <= 0 /\ N < norm1 v) /\
  (forall out, project_onto_l1_ball v N = Ok out -> length out = length v).
Proof.
  split; [|intros out; apply project_length].
  intros e. split.
  - intros H. destruct (Qlt_le_dec 0 N) as [HN|HN].
    + destruct (project_total v N HN) as (out & Hp & _). congruence.
    + destruct (Qle_bool (norm1 v) N) eqn:Hv.
      * rewrite (project_fast_path _ _ Hv) in H. discriminate.
      * rewrite (project_general _ _ Hv),
          (last_qual_nonpos N _ HN (sorted_descending (np_abs v))) in H.
        injection H as <-. apply Qle_bool_false_iff in Hv. auto.
  - intros (-> & HN & Hv). apply Qle_bool_false_iff in Hv.
    rewrite (project_general _ _ Hv).
    now rewrite (last_qual_nonpos N _ HN (sorted_descending (np_abs v))).
Qed.

Lemma norm1_cons a l : norm1 (a :: l) = Qabs a + norm1 l.
Proof. reflexivity. Qed.

Lemma dist2_cons a l b l' :
  dist2 (a :: l) (b :: l') = (a - b) * (a - b) + dist2 l l'.
Proof. reflexivity. Qed.

Lemma dist2_same v : dist2 v v == 0.
Proof.
  induction v as [|a v IH]; [reflexivity|]. rewrite dist2_cons, IH. ring.
Qed.

Lemma shrink_cases th e :
  (th <= e /\ shrink th e == e - th) \/ (e <= th /\ shrink th e == 0).
Proof.
  destruct (Qlt_le_dec e th) as [H|H].
  - right. split; [lra | apply shrink_below; lra].
  - left. split; [exact H | apply shrink_above, H].
Qed.

(** One coordinate of the projection against one coordinate of any other
    point. *)
Lemma coord_nearest th v z :
  0 <= th ->
  2 * th * (Qabs (np_sign v * shrink th (Qabs v)) - Qabs z)
  <= (z - v) * (z - v)
     - (np_sign v * shrink th (Qabs v) - v) * (np_sign v * shrink th (Qabs v) - v).
Proof.
  intros Hth. rewrite (output_abs_eq _ _ Hth).
  pose proof (Qabs_nonneg z) as Hz0. pose proof (Qle_Qabs z) as Hz1.
  assert (Hz2 : - z <= Qabs z) by (rewrite <- Qabs_opp; apply Qle_Qabs).
  set (az := Qabs z) in *.
  pose proof (Qmult_le_0_compat _ _ Hth Hz0) as P0.
  assert (P1 : 0 <= th * (az - z)) by (apply Qmult_le_0_compat; lra).
  assert (P2 : 0 <= th * (az + z)) by (apply Qmult_le_0_compat; lra).
  destruct (np_sign_cases v) as [[Hv ->]|[[Hv ->]|[Hv ->]]].
  - assert (Ha : Qabs v == - v) by (apply Qabs_neg; lra).
    destruct (shrink_cases th (Qabs v)) as [[Hc ->]|[Hc ->]]; rewrite Ha in *.
    + pose proof (Qsquare_nonneg (z - v - th)) as Sq.
      assert (E : (z - v) * (z - v) - (-1 * (- v - th) - v) * (-1 * (- v - th) - v)
                  - 2 * th * (- v - th - az)
                  == (z - v - th) * (z - v - th) + 2 * (th * (az + z))) by ring.
      lra.
    + pose proof (Qsquare_nonneg z) as Sq.
      assert (P3 : 0 <= (az + z) * (- v)) by (apply Qmult_le_0_compat; lra).
      assert (P4 : 0 <= az * (th + v)) by (apply Qmult_le_0_compat; lra).
      assert (E : (z - v) * (z - v) - (-1 * 0 - v) * (-1 * 0 - v)
                  - 2 * th * (0 - az)
                  == z * z + 2 * ((az + z) * (- v)) + 2 * (az * (th + v))) by ring.
      lra.
  - pose proof (Qsquare_nonneg z) as Sq.
    assert (Ha : Qabs v == 0) by (rewrite Hv; reflexivity).
    assert (Es : shrink th (Qabs v) == 0) by (apply shrink_below; lra).
    rewrite Es, Hv.
    assert (E : (z - 0) * (z - 0) - (0 * 0 - 0) * (0 * 0 - 0) - 2 * th * (0 - az)
                == z * z + 2 * (th * az)) by ring.
    lra.
  - assert (Ha : Qabs v == v) by (apply Qabs_pos; lra).
    destruct (shrink_cases th (Qabs v)) as [[Hc ->]|[Hc ->]]; rewrite Ha in *.
    + pose proof (Qsquare_nonneg (z - v + th)) as Sq.
      assert (E : (z - v) * (z - v) - (1 * (v - th) - v) * (1 * (v - th) - v)
                  - 2 * th * (v - th - az)
                  == (z - v + th) * (z - v + th) + 2 * (th * (az - z))) by ring.
      lra.
    + pose proof (Qsquare_nonneg z) as Sq.
      assert (P3 : 0 <= (az - z) * v) by (apply Qmult_le_0_compat; lra).
      assert (P4 : 0 <= az * (th - v)) by (apply Qmult_le_0_compat; lra).
      assert (E : (z - v) * (z - v) - (1 * 0 - v) * (1 * 0 - v)
                  - 2 * th * (0 - az)
                  == z * z + 2 * ((az - z) * v) + 2 * (az * (th - v))) by ring.
      lra.
Qed.

Lemma nearest_sum th :
  0 <= th ->
  forall v z, length z = length v ->
    2 * th * (norm1 (Spec.output v th) - norm1 z)
    <= dist2 z v - dist2 (Spec.output v th) v.
Proof.
  intros Hth. induction v as [|a v IH]; intros [|b z] Hlen; try discriminate.
  - cbn. lra.
  - injection Hlen as Hlen. specialize (IH z Hlen).
    unfold Spec.output in *. cbn [map].
    rewrite !norm1_cons, !dist2_cons.
    pose proof (coord_nearest th a b Hth) as Hc.
    change (Qmax (Qabs a - th) 0) with (shrink th (Qabs a)).
    lra.
Qed.

(** In exact arithmetic the result is a nearest point of the ball: no
    vector of the same shape with L1 norm at most [N] is closer to the
    input in Euclidean distance. *)
Theorem project_onto_l1_ball_nearest (v : vec) (N : Q) (out z : vec) :
  0 < N ->
  project_onto_l1_ball v N = Ok out ->
  length z = length v -> norm1 z <= N ->
  dist2 out v <= dist2 z v.
Proof.
  intros HN Hp Hlen Hz. destruct (Qle_bool (norm1 v) N) eqn:Hv.
  - rewrite (project_fast_path _ _ Hv) in Hp. injection Hp as <-.
    rewrite dist2_same. apply sum_squares_nonneg.
  - destruct (project_slow_path v N HN Hv) as (r & c & _ & Hp' & Hth & Hsum).
    rewrite Hp' in Hp. injection Hp as <-.
    pose proof (slow_path_norm v N r c Hth Hsum) as Hn.
    pose proof (nearest_sum _ Hth v z Hlen) as Hs.
    rewrite Hn in Hs.
    assert (P : 0 <= c / inject_Z r * (N - norm1 z))
      by (apply Qmult_le_0_compat; lra).
    lra.
Qed.

Lemma project_onto_l1_ball_nearest_witness :
  exists out,
    0 < 5 /\ project_onto_l1_ball [4; -3; 2] 5 = Ok out /\
    length [3; -2; 0] = length [4; -3; 2] /\ norm1 [3; -2; 0] <= 5 /\
    dist2 out [4; -3; 2] <= dist2 [3; -2; 0] [4; -3; 2].
Proof.
  destruct (project_onto_l1_ball [4; -3; 2] 5) as [out|e] eqn:E.
  - exists out.
    assert (H1 : 0 < 5) by reflexivity.
    assert (H2 : norm1 [3; -2; 0] <= 5) by (vm_compute; discriminate).
    split; [exact H1|]. split; [reflexivity|]. split; [reflexivity|].
    split; [exact H2|].
    exact (project_onto_l1_ball_nearest [4; -3; 2] 5 out [3; -2; 0] H1 E eq_refl H2).
  - exfalso. vm_compute in E. discriminate.
Defined.

Lemma np_abs_opp v : np_abs (map Qopp v) = np_abs v.
Proof.
  unfold np_abs. rewrite map_map. apply map_ext. intros [n d].
  unfold Qabs, Qopp. cbn. now rewrite Z.abs_opp.
Qed.

Lemma np_sign_opp a : np_sign (- a) == - np_sign a.
Proof.
  destruct a as [[|n|n] d]; reflexivity.
Qed.

(** The projection is odd: negating the input negates the result, and a
    failure stays the same failure. *)
Theorem project_onto_l1_ball_odd (v : vec) (N : Q) :
  match project_onto_l1_ball v N with
  | Ok out =>
      exists out', project_onto_l1_ball (map Qopp v) N = Ok out' /\
                   Forall2 Qeq out' (map Qopp out)
  | Raise e => project_onto_l1_ball (map Qopp v) N = Raise e
  end.
Proof.
  assert (Hn : norm1 (map Qopp v) = norm1 v) by (unfold norm1; now rewrite np_abs_opp).
  destruct (Qle_bool (norm1 v) N) eqn:Hv.
  - rewrite (project_fast_path _ _ Hv).
    exists (map Qopp v). split.
    + apply project_fast_path. now rewrite Hn.
    + clear. induction v; constructor; auto. reflexivity.
  - assert (Hv' : Qle_bool (norm1 (map Qopp v)) N = false) by now rewrite Hn.
    rewrite (project_general _ _ Hv), (project_general _ _ Hv'), np_abs_opp.
    destruct (last_qual N 0 0 (rev (np_sort (np_abs v)))) as [[r c]|];
      [|reflexivity].
    eexists. split; [reflexivity|].
    unfold Spec.output. rewrite !map_map.
    clear. induction v as [|a v IH]; cbn [map]; constructor; auto.
    rewrite np_sign_opp, Qabs_opp. ring.
Qed.

(** ** The Huber gradient: shapes and failures *)

Lemma broadcast2_cases f a b :
  (length a = length b /\ broadcast2 f a b = Ok (zip_with f a b))
  \/ (length a <> length b /\ length a = 1%nat /\
      exists r, broadcast2 f a b = Ok r /\ length r = length b)
  \/ (length a <> length b /\ length a <> 1%nat /\ length b = 1%nat /\
      exists r, broadcast2 f a b = Ok r /\ length r = length a)
  \/ (length a <> length b /\ length a <> 1%nat /\ length b <> 1%nat /\
      broadcast2 f a b = Raise ValueError).
Proof.
  unfold broadcast2. destruct (Nat.eqb (length a) (length b)) eqn:E.
  - left. apply Nat.eqb_eq in E. auto.
  - right. apply Nat.eqb_neq in E.
    destruct a as [|a0 [|a1 a]].
    + destruct b as [|b0 [|b1 b]]; cbn [length] in *.
      * congruence.
      * right; left. repeat split; auto. eexists; split; reflexivity.
      * right; right. repeat split; auto; discriminate.
    + left. repeat split; auto. eexists; split; [reflexivity|apply length_map].
    + right. destruct b as [|b0 [|b1 b]]; cbn [length] in *.
      * right. repeat split; auto; discriminate.
      * left. repeat split; auto; try discriminate.
        eexists; split; [reflexivity|]. now rewrite length_map.
      * right. repeat split; auto; discriminate.
Qed.

Lemma np_where_length (c : Q -> bool) (h1 h2 : Q -> Q) r :
  length (np_where (map c r) (map h1 r) (map h2 r)) = length r.
Proof. now rewrite np_where_map, length_map. Qed.

Lemma matvec_cases A x :
  (length x = ncols A /\ exists r, matvec A x = Ok r /\ length r = length (rows A))
  \/ (length x <> ncols A /\ matvec A x = Raise ValueError).
Proof.
  unfold matvec. destruct (Nat.eqb (length x) (ncols A)) eqn:E.
  - left. apply Nat.eqb_eq in E. split; [exact E|].
    eexists; split; [reflexivity | apply length_map].
  - right. apply Nat.eqb_neq in E. auto.
Qed.

Lemma transpose_shape A : ncols (transpose A) = length (rows A)
                          /\ length (rows (transpose A)) = ncols A.
Proof. cbn [transpose ncols rows]. now rewrite length_map, length_seq. Qed.

Lemma huber_gradient_shape_cases (A : matrix) (x y : vec) (m n : nat) :
  wf_matrix A m n ->
  (length x = n /\ (length y = m \/ length y = 1%nat) ->
   exists gr, huber_gradient A x y = Ok gr /\ length gr = n) /\
  (~ (length x = n /\ (length y = m \/ length y = 1%nat)) ->
   huber_gradient A x y = Raise ValueError).
Proof.
  intros (Hm & Hn & _). unfold huber_gradient.
  destruct (transpose_shape A) as [Ht1 Ht2].
  destruct (matvec_cases A x) as [(Hx & ax & -> & Hax)|(Hx & ->)]; cbn [bind].
  2:{ split; [intros [H _]; congruence | reflexivity]. }
  assert (Htail : forall r,
    (length r = m ->
     exists gr, matvec (transpose A)
                  (np_where (map (fun r => Qle_bool (Qabs r) 1) r)
                            (map (Qmult 2) r) (map (fun r => 2 * np_sign r) r))
                = Ok gr /\ length gr = n) /\
    (length r <> m ->
     matvec (transpose A)
       (np_where (map (fun r => Qle_bool (Qabs r) 1) r)
                 (map (Qmult 2) r) (map (fun r => 2 * np_sign r) r))
     = Raise ValueError)).
  { intros r.
    destruct (matvec_cases (transpose A)
                (np_where (map (fun r => Qle_bool (Qabs r) 1) r)
                          (map (Qmult 2) r) (map (fun r => 2 * np_sign r) r)))
      as [(Hl & gr & Hg & Hgl)|(Hl & Hg)];
      rewrite np_where_length in Hl; rewrite Hg.
    - split; [intros _; exists gr; split; [reflexivity|lia] | lia].
    - split; [lia | reflexivity]. }
  destruct (broadcast2_cases Qminus ax y)
    as [(Hl & ->)|[(Hl & Ha & r & -> & Hr)|[(Hl & Ha & Hb & r & -> & Hr)
                                           |(Hl & Ha & Hb & ->)]]];
    cbn [bind].
  - destruct (Htail (zip_with Qminus ax y)) as [Hok _].
    split; [intros _; apply Hok; rewrite zip_with_length; lia|].
    intros H. exfalso. apply H. split; lia.
  - destruct (Htail r) as [_ Hbad].
    split; [intros [_ H]; exfalso; lia | intros _; apply Hbad; lia].
  - destruct (Htail r) as [Hok _].
    split; [intros _; apply Hok; lia | intros H; exfalso; apply H; split; lia].
  - split; [intros [_ H]; exfalso; lia | reflexivity].
Qed.

(** Which shapes [huber_gradient] accepts: [x] must have as many entries as
    [A] has columns, and [y] as many as [A] has rows or a single one (which
    is then broadcast); every other combination raises [ValueError]. *)
Theorem huber_gradient_shapes (A : matrix) (x y : vec) (m n : nat) :
  wf_matrix A m n ->
  (length x = n /\ (length y = m \/ length y = 1%nat) ->
   exists gr, huber_gradient A x y = Ok gr /\ length gr = n) /\
  (~ (length x = n /\ (length y = m \/ length y = 1%nat)) ->
   huber_gradient A x y = Raise ValueError).
Proof. apply huber_gradient_shape_cases. Qed.

Lemma huber_gradient_shapes_witness :
  wf_matrix {| ncols := 2; rows := [[1; 2]; [0; 1]; [3; 0]] |} 3 2 /\
  (length [1; 1] = 2%nat /\ (length [5] = 3%nat \/ length [5] = 1%nat)) /\
  (exists gr,
     huber_gradient {| ncols := 2; rows := [[1; 2]; [0; 1]; [3; 0]] |} [1; 1] [5]
     = Ok gr /\ length gr = 2%nat) /\
  ~ (length [1; 1] = 2%nat /\ (length [5; 6] = 3%nat \/ length [5; 6] = 1%nat)) /\
  huber_gradient {| ncols := 2; rows := [[1; 2]; [0; 1]; [3; 0]] |} [1; 1] [5; 6]
  = Raise ValueError.
Proof.
  assert (HA : wf_matrix {| ncols := 2; rows := [[1; 2]; [0; 1]; [3; 0]] |} 3 2)
    by (repeat split; repeat constructor).
  assert (H1 : length [1; 1] = 2%nat /\ (length [5] = 3%nat \/ length [5] = 1%nat))
    by (split; [reflexivity | right; reflexivity]).
  assert (H2 : ~ (length [1; 1] = 2%nat
                  /\ (length [5; 6] = 3%nat \/ length [5; 6] = 1%nat)))
    by (intros [_ [H|H]]; discriminate).
  split; [exact HA|]. split; [exact H1|].
  split; [exact (proj1 (huber_gradient_shapes _ [1; 1] [5] 3 2 HA) H1)|].
  split; [exact H2|].
  exact (proj2 (huber_gradient_shapes _ [1; 1] [5; 6] 3 2 HA) H2).
Defined.

(** ** The Huber gradient: size of the result *)

Lemma huber_weights_map r : huber_weights r = map Spec.huber_prime r.
Proof. unfold huber_weights. apply np_where_map. Qed.

Lemma huber_prime_clip u : Spec.huber_prime u == 2 * Qmax (-1) (Qmin u 1).
Proof.
  unfold Spec.huber_prime. destruct (Qle_bool (Qabs u) 1) eqn:E.
  - apply Qle_bool_iff, Qabs_Qle_condition in E. destruct E as [E1 E2].
    rewrite (Q.min_l u 1 E2), (Q.max_r (-1) u) by lra. reflexivity.
  - apply Qle_bool_false_iff in E.
    destruct (np_sign_cases u) as [[Hu ->]|[[Hu ->]|[Hu ->]]].
    + rewrite (Qabs_neg u) in E by lra.
      rewrite (Q.min_l u 1), (Q.max_l (-1) u) by lra. reflexivity.
    + rewrite Hu in E. exfalso. revert E. cbn. discriminate.
    + rewrite (Qabs_pos u) in E by lra.
      rewrite (Q.min_r u 1), (Q.max_r (-1) 1) by lra. reflexivity.
Qed.

Lemma huber_prime_bound u : Qabs (Spec.huber_prime u) <= 2.
Proof.
  rewrite huber_prime_clip. apply Qabs_Qle_condition.
  destruct (Q.max_spec (-1) (Qmin u 1)) as [[Hm ->]|[Hm ->]];
    destruct (Q.min_spec u 1) as [[? E]|[? E]]; rewrite ?E in *; lra.
Qed.

Lemma clip_lipschitz u v :
  Qabs (Qmax (-1) (Qmin u 1) - Qmax (-1) (Qmin v 1)) <= Qabs (u - v).
Proof.
  apply Qabs_case; intros _; apply Qabs_case; intros Huv;
    destruct (Q.max_spec (-1) (Qmin u 1)) as [[? ->]|[? ->]];
    destruct (Q.max_spec (-1) (Qmin v 1)) as [[? ->]|[? ->]];
    destruct (Q.min_spec u 1) as [[? Eu]|[? Eu]];
    destruct (Q.min_spec v 1) as [[? Ev]|[? Ev]];
    rewrite ?Eu, ?Ev in *; lra.
Qed.

(** The array [grad] of [huber_gradient] is twice the residual clipped to
    [-1, 1]: its entries are bounded by 2 whatever the residual, and two
    residuals give entries that differ by at most twice what they differ. *)
Theorem huber_weights_clip (r r' : vec) :
  length r = length r' ->
  Forall2 (fun w u => w == 2 * Qmax (-1) (Qmin u 1) /\ Qabs w <= 2)
          (huber_weights r) r /\
  Forall2 (fun d e => Qabs d <= 2 * Qabs e)
          (zip_with Qminus (huber_weights r) (huber_weights r'))
          (zip_with Qminus r r').
Proof.
  intros Hlen. rewrite !huber_weights_map. split.
  - clear. induction r as [|a r IH]; cbn [map]; constructor; auto.
    split; [apply huber_prime_clip | apply huber_prime_bound].
  - revert r' Hlen. induction r as [|a r IH]; intros [|b r'] Hlen;
      try discriminate; cbn [map zip_with]; constructor;
      [|apply IH; now injection Hlen].
    rewrite !huber_prime_clip.
    assert (E : 2 * Qmax (-1) (Qmin a 1) - 2 * Qmax (-1) (Qmin b 1)
                == 2 * (Qmax (-1) (Qmin a 1) - Qmax (-1) (Qmin b 1))) by ring.
    rewrite E, Qabs_Qmult. change (Qabs 2) with 2.
    pose proof (clip_lipschitz a b). lra.
Qed.

Lemma huber_weights_clip_witness :
  length [1 # 2; 2; -2] = length [0; 3; 1] /\
  Forall2 (fun w u => w == 2 * Qmax (-1) (Qmin u 1) /\ Qabs w <= 2)
          (huber_weights [1 # 2; 2; -2]) [1 # 2; 2; -2] /\
  Forall2 (fun d e => Qabs d <= 2 * Qabs e)
          (zip_with Qminus (huber_weights [1 # 2; 2; -2]) (huber_weights [0; 3; 1]))
          (zip_with Qminus [1 # 2; 2; -2] [0; 3; 1]).
Proof.
  split; [reflexivity|].
  exact (huber_weights_clip [1 # 2; 2; -2] [0; 3; 1] eq_refl).
Defined.




(** ** The gradient at an exact fit, and descent from it *)









Lemma range_pos K : (0 < K)%Z -> exists ks, range K = 0%Z :: ks.
Proof.
  intros HK. unfold range, np_arange.
  destruct (Z.to_nat K) as [|k] eqn:E; [lia|].
  cbn [seq map]. eauto.
Qed.



(** The edges of the budget and of the shapes: with a budget of at least
    one pass, arrays whose shapes the gradient does not accept make the
    descent raise [ValueError] in its first pass; with a budget of zero or
    less nothing runs and the starting point is returned, whatever the
    shapes. *)
Theorem gradient_descent_edges (A : matrix) (x0 y : vec) (eta : Q) (K : Z)
    (eps : Q) (m n : nat) :
  wf_matrix A m n ->
  ((0 < K)%Z -> ~ (length x0 = n /\ (length y = m \/ length y = 1%nat)) ->
   gradient_descent A x0 y eta K eps = Raise ValueError) /\
  ((K <= 0)%Z -> gradient_descent A x0 y eta K eps = Ok (x0, [])).
Proof.
  intros HA. split.
  - intros HK Hbad. destruct (range_pos K HK) as (ks & Hks).
    unfold gradient_descent. rewrite Hks. cbn [gd_loop].
    now rewrite (proj2 (huber_gradient_shape_cases A x0 y m n HA) Hbad).
  - intros HK. unfold gradient_descent, range, np_arange.
    replace (Z.to_nat K) with 0%nat by lia. reflexivity.
Qed.

Lemma gradient_descent_edges_witness :
  wf_matrix {| ncols := 1; rows := [[1]] |} 1 1 /\
  (0 < 3)%Z /\
  ~ (length [1; 2] = 1%nat /\ (length [0] = 1%nat \/ length [0] = 1%nat)) /\
  gradient_descent {| ncols := 1; rows := [[1]] |} [1; 2] [0] 1 3 1
  = Raise ValueError /\
  (-2 <= 0)%Z /\
  gradient_descent {| ncols := 1; rows := [[1]] |} [1; 2] [0] 1 (-2) 1
  = Ok ([1; 2], []).
Proof.
  assert (HA : wf_matrix {| ncols := 1; rows := [[1]] |} 1 1)
    by (repeat split; repeat constructor).
  assert (HK : (0 < 3)%Z) by reflexivity.
  assert (Hbad : ~ (length [1; 2] = 1%nat
                    /\ (length [0] = 1%nat \/ length [0] = 1%nat)))
    by (intros [H _]; discriminate).
  assert (HK' : (-2 <= 0)%Z) by discriminate.
  split; [exact HA|]. split; [exact HK|]. split; [exact Hbad|].
  split; [exact (proj1 (gradient_descent_edges _ [1; 2] [0] 1 3 1 1 1 HA) HK Hbad)|].
  split; [exact HK'|].
  exact (proj2 (gradient_descent_edges _ [1; 2] [0] 1 (-2) 1 1 1 HA) HK').
Defined.

(** ** ADMM: the residual history and the dual variable *)

Lemma admm_iteration_inv A b rho solve st st' stop :
  admm_iteration A b rho solve st = Ok (st', stop) ->
  exists w_t w',
    w_tilde_value st' = Some w_t /\ w_value st' = Some w' /\
    y_dual st' = zip_with Qplus (y_dual st)
                   (map (Qmult rho) (zip_with Qminus w_t w')) /\
    residuals st' = residuals st ++ [sum_squares (zip_with Qminus w' w_t)] /\
    stop = norm2_lt (zip_with Qminus w' w_t) (1 # 10000).
Proof.
  unfold admm_iteration. intros H.
  destruct (w_value st) as [w|]; [|discriminate]. cbn [get_value bind] in H.
  destruct (solve (w_tilde_obj A b rho w (y_dual st))) as [out1|]; [|discriminate].
  cbn [bind] in H.
  destruct (value out1) as [w_t|] eqn:V1; [|discriminate]. cbn [get_value bind] in H.
  destruct (solve (w_obj rho w_t (y_dual st))) as [out2|]; [|discriminate].
  cbn [bind] in H.
  destruct (value out2) as [w'|] eqn:V2; [|discriminate]. cbn [get_value bind] in H.
  injection H as <- <-. cbn [w_value w_tilde_value y_dual residuals].
  exists w_t, w'. repeat split; assumption.
Qed.

Lemma stop_iff d :
  norm2_lt d (1 # 10000) = true
  <-> sum_squares d < (1 # 10000) * (1 # 10000).
Proof.
  unfold norm2_lt. rewrite andb_true_iff, !Qlt_bool_iff.
  split; [intros [_ H]; exact H | intros H; split; [reflexivity | exact H]].
Qed.

Lemma admm_loop_history A b rho solve ks : forall st st',
  admm_loop A b rho solve st ks = Ok st' ->
  exists rs,
    residuals st' = residuals st ++ rs /\
    (length rs <= length ks)%nat /\
    (forall i, (S i < length rs)%nat ->
               (1 # 10000) * (1 # 10000) <= nth i rs 0) /\
    ((length rs < length ks)%nat ->
     exists init last, rs = init ++ [last] /\
                       last < (1 # 10000) * (1 # 10000)).
Proof.
  induction ks as [|k ks IH]; intros st st' H; cbn [admm_loop] in H.
  - injection H as <-. exists []. rewrite app_nil_r.
    repeat split; auto; cbn [length]; intros; lia.
  - destruct (admm_iteration A b rho solve st) as [[st1 stop]|] eqn:E;
      [|discriminate].
    cbn [bind] in H.
    destruct (admm_iteration_inv _ _ _ _ _ _ _ E)
      as (w_t & w' & _ & _ & _ & Hres & Hstop).
    set (r := sum_squares (zip_with Qminus w' w_t)) in *.
    destruct stop.
    + injection H as <-. exists [r]. split; [exact Hres|].
      split; [cbn [length]; lia|]. split; [cbn [length]; intros; lia|].
      intros _. exists [], r. split; [reflexivity|].
      apply stop_iff. now symmetry.
    + destruct (IH _ _ H) as (rs & Hrs & Hlen & Hmid & Hlast).
      exists (r :: rs). split; [rewrite Hrs, Hres, <- app_assoc; reflexivity|].
      split; [cbn [length]; lia|]. split.
      * intros [|i] Hi; cbn [nth length] in *; [|apply Hmid; lia].
        apply Qnot_lt_le. intros Hlt. apply stop_iff in Hlt.
        unfold r in Hlt. congruence.
      * cbn [length]. intros Hl. destruct Hlast as (init & last & -> & Hl2); [lia|].
        exists (r :: init), last. split; [reflexivity | exact Hl2].
Qed.

(** The history of a run: each pass appends one residual (its square is
    what the list holds), there are at most [max_iters] of them, every one
    but the last is at least the tolerance 1e-4, and when the run used
    fewer passes than its budget the last one is below it. *)
Theorem admm_residual_history (A : matrix) (b : vec) (rho : Q)
    (solve : objective -> result solve_out) (n : nat) (max_iters : Z)
    (st' : admm_state) :
  admm A b rho solve n max_iters = Ok st' ->
  (length (residuals st') <= Z.to_nat max_iters)%nat /\
  (forall i, (S i < length (residuals st'))%nat ->
             (1 # 10000) * (1 # 10000) <= nth i (residuals st') 0) /\
  ((length (residuals st') < Z.to_nat max_iters)%nat ->
   exists init last, residuals st' = init ++ [last] /\
                     last < (1 # 10000) * (1 # 10000)).
Proof.
  unfold admm. intros H.
  destruct (admm_loop_history _ _ _ _ _ _ _ H) as (rs & Hrs & Hlen & Hmid & Hlast).
  cbn [admm_init residuals app] in Hrs. rewrite Hrs.
  unfold range, np_arange in Hlen, Hlast. rewrite length_map, length_seq in Hlen, Hlast.
  repeat split; assumption.
Qed.

Lemma admm_residual_history_witness :
  exists st',
    admm {| ncols := 1; rows := [[1]] |} [1] 1 quad_solve1 1 3 = Ok st' /\
    (length (residuals st') <= Z.to_nat 3)%nat /\
    (forall i, (S i < length (residuals st'))%nat ->
               (1 # 10000) * (1 # 10000) <= nth i (residuals st') 0) /\
    ((length (residuals st') < Z.to_nat 3)%nat ->
     exists init last, residuals st' = init ++ [last] /\
                       last < (1 # 10000) * (1 # 10000)).
Proof.
  destruct (admm {| ncols := 1; rows := [[1]] |} [1] 1 quad_solve1 1 3)
    as [st'|e] eqn:E.
  - exists st'. split; [reflexivity|].
    exact (admm_residual_history _ _ _ _ _ _ _ E).
  - exfalso. vm_compute in E. discriminate.
Defined.






(** ** ADMM: the w-update in closed form *)

Lemma w_obj_cons rho b t c l a u :
  w_obj rho (b :: t) (c :: l) (a :: u)
  == a * a * (1 # 2)
     + rho * (1 # 2) * ((a - b - c / rho) * (a - b - c / rho))
     + w_obj rho t l u.
Proof.
  unfold w_obj, g, sum_squares. cbn [zip_with map]. rewrite !np_sum_cons.
  unfold Qdiv. set (ir := / rho). field.
Qed.

Lemma w_obj_gap rho :
  0 < rho ->
  forall u t l, length u = length t -> length t = length l ->
    w_obj rho t l u
    - w_obj rho t l (zip_with (fun b c => (rho * b + c) / (1 + rho)) t l)
    == (1 + rho) * (1 # 2)
       * dist2 u (zip_with (fun b c => (rho * b + c) / (1 + rho)) t l).
Proof.
  intros Hrho. induction u as [|a u IH]; intros [|b t] [|c l] H1 H2;
    try discriminate.
  - cbn [zip_with]. unfold dist2, sum_squares. cbn. field.
  - injection H1 as H1. injection H2 as H2. specialize (IH t l H1 H2).
    cbn [zip_with]. rewrite !w_obj_cons, dist2_cons.
    set (rest := zip_with _ t l) in *.
    assert (E : forall X Y D : Q,
               X - Y == (1 + rho) * (1 # 2) * D ->
               a * a * (1 # 2)
               + rho * (1 # 2) * ((a - b - c / rho) * (a - b - c / rho)) + X
               - ((rho * b + c) / (1 + rho) * ((rho * b + c) / (1 + rho)) * (1 # 2)
                  + rho * (1 # 2)
                    * (((rho * b + c) / (1 + rho) - b - c / rho)
                       * ((rho * b + c) / (1 + rho) - b - c / rho)) + Y)
               == (1 + rho) * (1 # 2)
                  * ((a - (rho * b + c) / (1 + rho))
                     * (a - (rho * b + c) / (1 + rho)) + D)).
    { intros X Y D HXY.
      assert (HX : X == Y + (1 + rho) * (1 # 2) * D) by lra.
      rewrite HX. field. split; lra. }
    apply E, IH.
Qed.

Lemma dist2_nonneg a b : 0 <= dist2 a b.
Proof. apply sum_squares_nonneg. Qed.

Lemma dist2_zero a : forall b,
  length a = length b -> dist2 a b <= 0 -> Forall2 Qeq a b.
Proof.
  induction a as [|u a IH]; intros [|v b] Hlen H; try discriminate; constructor.
  - rewrite dist2_cons in H. pose proof (dist2_nonneg a b) as H0.
    pose proof (Qsquare_nonneg (u - v)) as H1.
    assert (E : (u - v) * (u - v) == 0) by lra.
    destruct (Qmult_integral _ _ E); lra.
  - apply IH; [now injection Hlen|].
    rewrite dist2_cons in H. pose proof (Qsquare_nonneg (u - v)). lra.
Qed.

(** What the w-update has to return: for [rho > 0] and arrays of one
    shape, the objective [g(u) + (rho/2) ||u - w_tilde - y/rho||^2] with
    [g(u) = ||u||^2 / 2] has the minimiser [(rho w_tilde + y) / (1 + rho)],
    coordinate by coordinate, and no other. *)
Theorem w_update_closed_form (rho : Q) (w_t lam : vec) :
  0 < rho -> length w_t = length lam ->
  is_minimizer (length lam) (w_obj rho w_t lam)
    (zip_with (fun b c => (rho * b + c) / (1 + rho)) w_t lam) /\
  forall u, is_minimizer (length lam) (w_obj rho w_t lam) u ->
            Forall2 Qeq u (zip_with (fun b c => (rho * b + c) / (1 + rho)) w_t lam).
Proof.
  intros Hrho Hlen.
  assert (Hl : length (zip_with (fun b c => (rho * b + c) / (1 + rho)) w_t lam)
               = length lam) by (rewrite zip_with_length; lia).
  split.
  - split; [exact Hl|]. intros v Hv.
    pose proof (dist2_nonneg v (zip_with (fun b c => (rho * b + c) / (1 + rho)) w_t lam))
      as Hd.
    assert (P : 0 <= (1 + rho) * (1 # 2)
                     * dist2 v (zip_with (fun b c => (rho * b + c) / (1 + rho)) w_t lam))
      by (apply Qmult_le_0_compat; [lra | exact Hd]).
    pose proof (w_obj_gap rho Hrho v w_t lam (eq_trans Hv (eq_sym Hlen)) Hlen) as G.
    lra.
  - intros u [Hu Hmin]. specialize (Hmin _ Hl).
    pose proof (w_obj_gap rho Hrho u w_t lam (eq_trans Hu (eq_sym Hlen)) Hlen) as G.
    apply dist2_zero; [lia|].
    set (d := dist2 u _) in *.
    assert (P : (1 + rho) * (1 # 2) * d <= 0) by lra.
    pose proof (dist2_nonneg u (zip_with (fun b c => (rho * b + c) / (1 + rho)) w_t lam))
      as Hd. fold d in Hd.
    assert (Q0 : 0 <= rho * d) by (apply Qmult_le_0_compat; lra).
    lra.
Qed.

Lemma w_update_closed_form_witness :
  0 < 1 /\ length [1 # 2; 3] = length [1 # 4; -1] /\
  is_minimizer (length [1 # 4; -1]) (w_obj 1 [1 # 2; 3] [1 # 4; -1])
    (zip_with (fun b c => (1 * b + c) / (1 + 1)) [1 # 2; 3] [1 # 4; -1]) /\
  forall u, is_minimizer (length [1 # 4; -1]) (w_obj 1 [1 # 2; 3] [1 # 4; -1]) u ->
            Forall2 Qeq u
              (zip_with (fun b c => (1 * b + c) / (1 + 1)) [1 # 2; 3] [1 # 4; -1]).
Proof.
  assert (H : 0 < 1) by reflexivity.
  split; [exact H|]. split; [reflexivity|].
  exact (w_update_closed_form 1 [1 # 2; 3] [1 # 4; -1] H eq_refl).
Defined.

(** ** ADMM: shapes *)

Lemma admm_iteration_shapes A b rho solve n st :
  (forall obj, exists out u,
      solve obj = Ok out /\ value out = Some u /\ length u = n) ->
  (exists w, w_value st = Some w /\ length w = n) ->
  length (y_dual st) = n ->
  exists st' stop,
    admm_iteration A b rho solve st = Ok (st', stop) /\
    (exists w, w_value st' = Some w /\ length w = n) /\
    (exists w_t, w_tilde_value st' = Some w_t /\ length w_t = n) /\
    length (y_dual st') = n.
Proof.
  intros Hs (w & Hw & Hwl) Hy. unfold admm_iteration. rewrite Hw. cbn [get_value bind].
  destruct (Hs (w_tilde_obj A b rho w (y_dual st))) as (o1 & w_t & -> & V1 & L1).
  cbn [bind]. rewrite V1. cbn [get_value bind].
  destruct (Hs (w_obj rho w_t (y_dual st))) as (o2 & w' & -> & V2 & L2).
  cbn [bind]. rewrite V2. cbn [get_value bind].
  eexists. eexists. split; [reflexivity|]. cbn [w_value w_tilde_value y_dual].
  split; [eauto|]. split; [eauto|].
  rewrite zip_with_length; [exact Hy|].
  rewrite length_map, zip_with_length; lia.
Qed.

(** With a solver that always leaves a value of length [n], a run never
    raises, and it ends with both variables and the dual array of length
    [n]. *)
Theorem admm_shapes (A : matrix) (b : vec) (rho : Q)
    (solve : objective -> result solve_out) (n : nat) (max_iters : Z) :
  (forall obj, exists out u,
      solve obj = Ok out /\ value out = Some u /\ length u = n) ->
  exists st,
    admm A b rho solve n max_iters = Ok st /\
    (exists w, w_value st = Some w /\ length w = n) /\
    (exists w_t, w_tilde_value st = Some w_t /\ length w_t = n) /\
    length (y_dual st) = n.
Proof.
  intros Hs. unfold admm.
  assert (Hinit : (exists w, w_value (admm_init n) = Some w /\ length w = n) /\
                  (exists w_t, w_tilde_value (admm_init n) = Some w_t
                               /\ length w_t = n) /\
                  length (y_dual (admm_init n)) = n).
  { cbn [admm_init w_value w_tilde_value y_dual].
    repeat split; try (eexists; split; [reflexivity|]); apply repeat_length. }
  revert Hinit. generalize (admm_init n) as st.
  induction (range max_iters) as [|k ks IH]; intros st (Hw & Ht & Hy);
    cbn [admm_loop].
  - exists st. repeat split; assumption.
  - destruct (admm_iteration_shapes A b rho solve n st Hs Hw Hy)
      as (st' & stop & -> & Hw' & Ht' & Hy').
    cbn [bind]. destruct stop; [exists st'; repeat split; assumption|].
    apply IH. repeat split; assumption.
Qed.

Lemma admm_shapes_witness :
  (forall obj, exists out u,
      quad_solve1 obj = Ok out /\ value out = Some u /\ length u = 1%nat) /\
  exists st,
    admm {| ncols := 1; rows := [[1]] |} [1] 1 quad_solve1 1 3 = Ok st /\
    (exists w, w_value st = Some w /\ length w = 1%nat) /\
    (exists w_t, w_tilde_value st = Some w_t /\ length w_t = 1%nat) /\
    length (y_dual st) = 1%nat.
Proof.
  assert (Hs : forall obj, exists out u,
             quad_solve1 obj = Ok out /\ value out = Some u /\ length u = 1%nat).
  { intros obj. eexists. eexists. repeat split. }
  split; [exact Hs|].
  exact (admm_shapes {| ncols := 1; rows := [[1]] |} [1] 1 quad_solve1 1 3 Hs).
Defined.

(** ** Sudoku: cell indices *)

Lemma cell_index_div_mod n i j :
  (j < n)%nat ->
  (cell_index n i j / n = i)%nat /\ (cell_index n i j mod n = j)%nat.
Proof.
  intros Hj. unfold cell_index. split.
  - rewrite Nat.div_add_l by lia. rewrite Nat.div_small by exact Hj. lia.
  - rewrite Nat.add_comm, Nat.Div0.mod_add. apply Nat.mod_small, Hj.
Qed.

Lemma cell_index_lt n i j :
  (i < n)%nat -> (j < n)%nat -> (cell_index n i j < n * n)%nat.
Proof. unfold cell_index. nia. Qed.

(** [cell_index] numbers the cells of the grid one to one: row [i] and
    column [j] are recovered from the index by division by [n], and every
    index below [n * n] is the index of a cell. *)
Theorem cell_index_round_trip (n : nat) :
  (forall i j, (i < n)%nat -> (j < n)%nat ->
     (cell_index n i j < n * n)%nat /\
     (cell_index n i j / n)%nat = i /\ (cell_index n i j mod n)%nat = j) /\
  (forall c, (c < n * n)%nat ->
     (c / n < n)%nat /\ (c mod n < n)%nat /\
     cell_index n (c / n) (c mod n) = c).
Proof.
  split.
  - intros i j Hi Hj. split; [apply cell_index_lt; assumption|].
    apply cell_index_div_mod, Hj.
  - intros c Hc. assert (Hn : n <> 0%nat) by lia. split; [|split].
    + apply Nat.Div0.div_lt_upper_bound. exact Hc.
    + apply Nat.mod_upper_bound, Hn.
    + unfold cell_index. rewrite (Nat.div_mod_eq c n) at 3. lia.
Qed.

Lemma cell_index_round_trip_witness :
  (2 < 9)%nat /\ (3 < 9)%nat /\
  (cell_index 9 2 3 < 9 * 9)%nat /\
  (cell_index 9 2 3 / 9)%nat = 2%nat /\ (cell_index 9 2 3 mod 9)%nat = 3%nat.
Proof.
  assert (H1 : (2 < 9)%nat) by lia. assert (H2 : (3 < 9)%nat) by lia.
  split; [exact H1|]. split; [exact H2|].
  exact (proj1 (cell_index_round_trip 9) 2%nat 3%nat H1 H2).
Defined.

(** ** Sudoku: reading the solution off the values *)

Lemma fold_pick_none (t : nat -> bool) (F : nat -> Z) L : forall a0,
  (forall k, In k L -> t k = false) ->
  fold_left (fun acc k => if t k then F k else acc) L a0 = a0.
Proof.
  induction L as [|a L IH]; intros a0 H; [reflexivity|].
  cbn [fold_left]. rewrite (H a (or_introl eq_refl)).
  apply IH. intros k Hk. apply H. now right.
Qed.

Lemma fold_pick_last (t : nat -> bool) (F : nat -> Z) L1 k0 L2 a0 :
  t k0 = true -> (forall k, In k L2 -> t k = false) ->
  fold_left (fun acc k => if t k then F k else acc) (L1 ++ k0 :: L2) a0 = F k0.
Proof.
  intros Hk0 H. rewrite fold_left_app. cbn [fold_left]. rewrite Hk0.
  apply fold_pick_none, H.
Qed.

Lemma seq_split_at n k0 :
  (k0 < n)%nat -> seq 0 n = seq 0 k0 ++ k0 :: seq (S k0) (n - S k0).
Proof.
  intros H. replace n with (k0 + S (n - S k0))%nat at 1 by lia.
  rewrite seq_app. reflexivity.
Qed.

Lemma solution_cell_none n X i j :
  (forall k, (k < n)%nat -> x_at X (cell_index n i j) k <= 1 # 2) ->
  solution_cell n X i j = 0%Z.
Proof.
  intros H. unfold solution_cell.
  apply (fold_pick_none (fun k => Qlt_bool (1 # 2) (x_at X (cell_index n i j) k))
                        (fun k => (Z.of_nat k + 1)%Z)).
  intros k Hk. apply in_seq in Hk. apply Qlt_bool_false_iff, H. lia.
Qed.

Lemma solution_cell_last n X i j k0 :
  (k0 < n)%nat -> 1 # 2 < x_at X (cell_index n i j) k0 ->
  (forall k, (k0 < k < n)%nat -> x_at X (cell_index n i j) k <= 1 # 2) ->
  solution_cell n X i j = (Z.of_nat k0 + 1)%Z.
Proof.
  intros Hk0 Hx H. unfold solution_cell. rewrite (seq_split_at n k0 Hk0).
  apply (fold_pick_last (fun k => Qlt_bool (1 # 2) (x_at X (cell_index n i j) k))
                        (fun k => (Z.of_nat k + 1)%Z)).
  - apply Qlt_bool_iff, Hx.
  - intros k Hk. apply in_seq in Hk. apply Qlt_bool_false_iff, H. lia.
Qed.

Lemma extract_solution_at n X i j :
  (i < n)%nat -> (j < n)%nat ->
  grid_at (extract_solution n X) i j = solution_cell n X i j.
Proof.
  intros Hi Hj. unfold grid_at, extract_solution.
  rewrite (nth_map_lt _ (seq 0 n) i [] 0%nat) by (rewrite length_seq; exact Hi).
  rewrite (nth_map_lt _ (seq 0 n) j 0%Z 0%nat) by (rewrite length_seq; exact Hj).
  now rewrite !seq_nth by assumption.
Qed.

Lemma extract_solution_wf n X : wf_grid n (extract_solution n X).
Proof.
  unfold wf_grid, extract_solution. rewrite length_map, length_seq.
  split; [reflexivity|]. apply Forall_forall. intros r Hr.
  apply in_map_iff in Hr. destruct Hr as (i & <- & _).
  now rewrite length_map, length_seq.
Qed.

(** How a cell of the printed grid is read off the values, whatever they
    are: it stays 0 when no value of the cell exceeds 0.5, and otherwise it
    is one more than the largest [k] whose value exceeds 0.5; the grid has
    [n] rows of [n] cells. *)
Theorem extract_solution_cells (n : nat) (X : matrix) (i j : nat) :
  (i < n)%nat -> (j < n)%nat ->
  wf_grid n (extract_solution n X) /\
  ((forall k, (k < n)%nat -> x_at X (cell_index n i j) k <= 1 # 2) ->
   grid_at (extract_solution n X) i j = 0%Z) /\
  (forall k0, (k0 < n)%nat -> 1 # 2 < x_at X (cell_index n i j) k0 ->
     (forall k, (k0 < k < n)%nat -> x_at X (cell_index n i j) k <= 1 # 2) ->
     grid_at (extract_solution n X) i j = (Z.of_nat k0 + 1)%Z).
Proof.
  intros Hi Hj. split; [apply extract_solution_wf|].
  rewrite (extract_solution_at n X i j Hi Hj). split.
  - apply solution_cell_none.
  - intros k0. apply solution_cell_last.
Qed.

Lemma extract_solution_cells_witness :
  (0 < 2)%nat /\ (1 < 2)%nat /\ (1 < 2)%nat /\
  1 # 2 < x_at {| ncols := 2; rows := [[0; 1]; [1; 1]; [0; 0]; [1; 0]] |}
               (cell_index 2 0 1) 1 /\
  grid_at (extract_solution 2
             {| ncols := 2; rows := [[0; 1]; [1; 1]; [0; 0]; [1; 0]] |}) 0 1
  = (Z.of_nat 1 + 1)%Z.
Proof.
  assert (Hi : (0 < 2)%nat) by lia. assert (Hj : (1 < 2)%nat) by lia.
  assert (Hx : 1 # 2 < x_at {| ncols := 2; rows := [[0; 1]; [1; 1]; [0; 0]; [1; 0]] |}
                            (cell_index 2 0 1) 1) by reflexivity.
  split; [exact Hi|]. split; [exact Hj|]. split; [exact Hj|]. split; [exact Hx|].
  apply (proj2 (proj2 (extract_solution_cells 2 _ 0 1 Hi Hj)) 1%nat Hj Hx).
  intros k Hk. lia.
Defined.

(** ** Sudoku: a feasible point is a solved grid *)

Lemma bool_sum_nonneg {A} (f : A -> Q) L :
  (forall l, In l L -> f l == 0 \/ f l == 1) -> 0 <= np_sum (map f L).
Proof.
  induction L as [|a L IH]; intros H; cbn [map]; [apply Qle_refl|].
  rewrite np_sum_cons.
  assert (IH' : 0 <= np_sum (map f L)) by (apply IH; intros l Hl; apply H; now right).
  destruct (H a (or_introl eq_refl)) as [E|E]; rewrite E; lra.
Qed.

Lemma bool_sum_zero {A} (f : A -> Q) L :
  (forall l, In l L -> f l == 0 \/ f l == 1) ->
  np_sum (map f L) == 0 -> forall l, In l L -> f l == 0.
Proof.
  induction L as [|a L IH]; intros H Hs l Hl; [contradiction|].
  cbn [map] in Hs. rewrite np_sum_cons in Hs.
  assert (Hb : forall l, In l L -> f l == 0 \/ f l == 1)
    by (intros l' Hl'; apply H; now right).
  pose proof (bool_sum_nonneg f L Hb) as H0.
  destruct (H a (or_introl eq_refl)) as [E|E]; rewrite E in Hs; [|lra].
  destruct Hl as [<-|Hl]; [exact E|]. apply IH; auto. lra.
Qed.

Lemma exactly_one {A} (f : A -> Q) L :
  (forall l, In l L -> f l == 0 \/ f l == 1) ->
  np_sum (map f L) == 1 ->
  exists l, In l L /\ f l == 1 /\ forall l', In l' L -> f l' == 1 -> l' = l.
Proof.
  induction L as [|a L IH]; intros H Hs.
  - cbn in Hs. discriminate.
  - cbn [map] in Hs. rewrite np_sum_cons in Hs.
    assert (Hb : forall l, In l L -> f l == 0 \/ f l == 1)
      by (intros l' Hl'; apply H; now right).
    destruct (H a (or_introl eq_refl)) as [E|E]; rewrite E in Hs.
    + destruct (IH Hb) as (l & Hl & Hf & Hu); [lra|].
      exists l. split; [now right|]. split; [exact Hf|].
      intros l' [<-|Hl'] Hf'; [rewrite E in Hf'; discriminate | now apply Hu].
    + exists a. split; [now left|]. split; [exact E|].
      intros l' [<-|Hl'] Hf'; [reflexivity|].
      assert (Hz : np_sum (map f L) == 0) by lra.
      rewrite (bool_sum_zero f L Hb Hz l' Hl') in Hf'. discriminate.
Qed.

Lemma holds_cell X c n :
  holds X (map (fun k => (c, k)) (seq 0 n))
  <-> np_sum (map (fun k => x_at X c k) (seq 0 n)) == 1.
Proof. unfold holds. rewrite map_map. reflexivity. Qed.

Lemma holds_house X n k (H : list (nat * nat)) :
  holds X (map (fun c => (cell_index n (fst c) (snd c), k)) H)
  <-> np_sum (map (fun c => x_at X (cell_index n (fst c) (snd c)) k) H) == 1.
Proof. unfold holds. rewrite map_map. reflexivity. Qed.

Section Feasible.
Variables (n : nat) (X : matrix).
Hypothesis X_bool : boolean_values n X.
Hypothesis X_cells : forall i j, (i < n)%nat -> (j < n)%nat ->
  holds X (map (fun k => (cell_index n i j, k)) (seq 0 n)).

(** Each cell has one digit switched on, and that digit is read off. *)
Lemma cell_digit i j :
  (i < n)%nat -> (j < n)%nat ->
  exists k0, (k0 < n)%nat /\ x_at X (cell_index n i j) k0 == 1 /\
             (forall k, (k < n)%nat -> x_at X (cell_index n i j) k == 1 -> k = k0) /\
             solution_cell n X i j = (Z.of_nat k0 + 1)%Z.
Proof.
  intros Hi Hj. pose proof (cell_index_lt n i j Hi Hj) as Hc.
  destruct (exactly_one (fun k => x_at X (cell_index n i j) k) (seq 0 n))
    as (k0 & Hk0 & Hx & Hu).
  - intros k Hk. apply in_seq in Hk. apply X_bool; [exact Hc | lia].
  - apply holds_cell, X_cells; assumption.
  - apply in_seq in Hk0. exists k0. split; [lia|]. split; [exact Hx|]. split.
    + intros k Hk Hxk. apply Hu; [apply in_seq; lia | exact Hxk].
    + apply solution_cell_last; [lia | rewrite Hx; reflexivity|].
      intros k Hk. destruct (X_bool (cell_index n i j) k Hc) as [E|E]; [lia| |].
      * rewrite E. discriminate.
      * assert (k = k0) by (apply Hu; [apply in_seq; lia | exact E]). lia.
Qed.

Lemma digit_iff i j k :
  (i < n)%nat -> (j < n)%nat -> (k < n)%nat ->
  solution_cell n X i j = (Z.of_nat k + 1)%Z <-> x_at X (cell_index n i j) k == 1.
Proof.
  intros Hi Hj Hk. destruct (cell_digit i j Hi Hj) as (k0 & Hk0 & Hx & Hu & Hs).
  rewrite Hs. split.
  - intros E. assert (k = k0) by lia. now subst.
  - intros E. now rewrite (Hu k Hk E).
Qed.

Lemma house_once (H : list (nat * nat)) k :
  (forall c, In c H -> (fst c < n)%nat /\ (snd c < n)%nat) -> (k < n)%nat ->
  holds X (map (fun c => (cell_index n (fst c) (snd c), k)) H) ->
  once_in (extract_solution n X) H (Z.of_nat k + 1).
Proof.
  intros HH Hk Hh. apply holds_house in Hh.
  destruct (exactly_one (fun c => x_at X (cell_index n (fst c) (snd c)) k) H)
    as (c & Hc & Hx & Hu).
  - intros c Hc. destruct (HH c Hc). apply X_bool; [apply cell_index_lt|]; assumption.
  - exact Hh.
  - exists c. destruct (HH c Hc) as [Hc1 Hc2]. split; [exact Hc|]. split.
    + rewrite extract_solution_at by assumption. now apply digit_iff.
    + intros c' Hc' Hd. destruct (HH c' Hc') as [Hc1' Hc2'].
      apply Hu; [exact Hc'|].
      rewrite extract_solution_at in Hd by assumption. now apply digit_iff in Hd.
Qed.
End Feasible.

Lemma in_range_step3 n bi : (3 * bi < n)%nat -> In (3 * bi)%nat (range_step3 n).
Proof.
  intros H. unfold range_step3. apply in_map, in_seq. split; [lia|].
  cbn [Nat.add]. apply (Nat.div_le_lower_bound (n + 2) 3 (S bi)); lia.
Qed.

Lemma range_step3_inv n b I :
  n = (3 * b)%nat -> In I (range_step3 n) ->
  exists bi, I = (3 * bi)%nat /\ (3 * bi < n)%nat.
Proof.
  intros -> H. unfold range_step3 in H. apply in_map_iff in H.
  destruct H as (q & <- & Hq). apply in_seq in Hq. exists q. split; [reflexivity|].
  assert (E : ((3 * b + 2) / 3 = b)%nat).
  { rewrite (Nat.mul_comm 3 b), Nat.div_add_l by lia. cbn. lia. }
  lia.
Qed.

Lemma box_terms (n I J k : nat) :
  flat_map (fun di => map (fun dj => (cell_index n (I + di) (J + dj), k)) (seq 0 3))
           (seq 0 3)
  = map (fun c => (cell_index n (fst c) (snd c), k)) (box_cells I J).
Proof. reflexivity. Qed.

Lemma box_cells_in n b bi bj c :
  n = (3 * b)%nat -> (3 * bi < n)%nat -> (3 * bj < n)%nat ->
  In c (box_cells (3 * bi) (3 * bj)) -> (fst c < n)%nat /\ (snd c < n)%nat.
Proof.
  intros -> Hi Hj Hc. unfold box_cells in Hc. cbn [seq flat_map map app] in Hc.
  cbn [In] in Hc.
  repeat (destruct Hc as [<-|Hc]; [cbn [fst snd]; lia|]). contradiction.
Qed.

Lemma feasible_valid (n b : nat) (puzzle : grid) (X : matrix) :
  n = (3 * b)%nat ->
  (forall i j, (i < n)%nat -> (j < n)%nat ->
               (0 <= grid_at puzzle i j <= Z.of_nat n)%Z) ->
  boolean_values n X ->
  (forall c, In c (constraints n puzzle) -> holds X c) ->
  valid_sudoku n puzzle (extract_solution n X).
Proof.
  intros Hn Hpz Hbool Hall.
  assert (Hcells : forall i j, (i < n)%nat -> (j < n)%nat ->
            holds X (map (fun k => (cell_index n i j, k)) (seq 0 n))).
  { intros i j Hi Hj. apply Hall. unfold constraints. apply in_or_app. left.
    unfold cell_constraints.
    apply (in_map (fun cell => map (fun k => (cell, k)) (seq 0 n))).
    apply in_seq. pose proof (cell_index_lt n i j Hi Hj). lia. }
  assert (Hd : forall d, (1 <= d <= Z.of_nat n)%Z ->
            exists k, (k < n)%nat /\ d = (Z.of_nat k + 1)%Z).
  { intros d Hd. exists (Z.to_nat (d - 1)). lia. }
  split; [apply extract_solution_wf|]. split; [|split; [|split; [|split]]].
  - intros i j Hi Hj. rewrite extract_solution_at by assumption.
    destruct (cell_digit n X Hbool Hcells i j Hi Hj) as (k0 & Hk0 & _ & _ & ->). lia.
  - intros i d Hi Hdr. destruct (Hd d Hdr) as (k & Hk & ->).
    apply (house_once n X Hbool Hcells); [|exact Hk|].
    + intros c Hc. unfold row_cells in Hc. apply in_map_iff in Hc.
      destruct Hc as (j & <- & Hj). apply in_seq in Hj. cbn [fst snd]. lia.
    + apply Hall. unfold constraints. apply in_or_app. right. apply in_or_app. left.
      unfold row_constraints. apply in_flat_map. exists i.
      split; [apply in_seq; lia|].
      unfold row_cells. rewrite map_map. cbn [fst snd].
      apply (in_map (fun k => map (fun j => (cell_index n i j, k)) (seq 0 n))).
      apply in_seq. lia.
  - intros j d Hj Hdr. destruct (Hd d Hdr) as (k & Hk & ->).
    apply (house_once n X Hbool Hcells); [|exact Hk|].
    + intros c Hc. unfold col_cells in Hc. apply in_map_iff in Hc.
      destruct Hc as (i & <- & Hi). apply in_seq in Hi. cbn [fst snd]. lia.
    + apply Hall. unfold constraints. do 2 (apply in_or_app; right).
      apply in_or_app. left.
      unfold col_constraints. apply in_flat_map. exists j.
      split; [apply in_seq; lia|].
      unfold col_cells. rewrite map_map. cbn [fst snd].
      apply (in_map (fun k => map (fun i => (cell_index n i j, k)) (seq 0 n))).
      apply in_seq. lia.
  - intros bi bj d Hbi Hbj Hdr. destruct (Hd d Hdr) as (k & Hk & ->).
    apply (house_once n X Hbool Hcells); [|exact Hk|].
    + intros c. apply (box_cells_in n b bi bj c Hn Hbi Hbj).
    + apply Hall. unfold constraints. do 3 (apply in_or_app; right).
      apply in_or_app. left.
      unfold box_constraints. apply in_flat_map. exists (3 * bi)%nat.
      split; [apply in_range_step3, Hbi|].
      apply in_flat_map. exists (3 * bj)%nat.
      split; [apply in_range_step3, Hbj|].
      rewrite <- box_terms.
      apply (in_map (fun k =>
               flat_map (fun di =>
                 map (fun dj => (cell_index n (3 * bi + di) (3 * bj + dj), k))
                     (seq 0 3)) (seq 0 3))).
      apply in_seq. lia.
  - intros i j Hi Hj Hv. rewrite extract_solution_at by assumption.
    specialize (Hpz i j Hi Hj).
    assert (Hk : (Z.to_nat (grid_at puzzle i j - 1) < n)%nat) by lia.
    assert (Hv' : grid_at puzzle i j
                  = (Z.of_nat (Z.to_nat (grid_at puzzle i j - 1)) + 1)%Z) by lia.
    rewrite Hv' at 1.
    apply (digit_iff n X Hbool Hcells i j _ Hi Hj Hk).
    assert (Hc : holds X [(cell_index n i j, Z.to_nat (grid_at puzzle i j - 1))]).
    { apply Hall. unfold constraints. do 4 (apply in_or_app; right).
      unfold clue_constraints. apply in_flat_map. exists i.
      split; [apply in_seq; lia|]. apply in_flat_map. exists j.
      split; [apply in_seq; lia|].
      destruct (Z.eqb_spec (grid_at puzzle i j) 0); [contradiction|]. now left. }
    unfold holds in Hc. cbn [map] in Hc. rewrite np_sum_cons in Hc.
    change (np_sum []) with 0 in Hc. lra.
Qed.

(** ** Sudoku: a solved grid is a feasible point *)

Lemma x_at_encode n G cell k :
  (cell < n * n)%nat -> (k < n)%nat ->
  x_at (encode_grid n G) cell k
  = if Z.eqb (grid_at G (cell / n) (cell mod n)) (Z.of_nat k + 1) then 1 else 0.
Proof.
  intros Hc Hk. unfold x_at, encode_grid. cbn [rows].
  rewrite (nth_map_lt _ (seq 0 (n * n)) cell (@nil Q) 0%nat)
    by (rewrite length_seq; exact Hc).
  rewrite (nth_map_lt _ (seq 0 n) k 0 0%nat) by (rewrite length_seq; exact Hk).
  now rewrite !seq_nth by assumption.
Qed.

Lemma x_at_encode_cell n G i j k :
  (i < n)%nat -> (j < n)%nat -> (k < n)%nat ->
  x_at (encode_grid n G) (cell_index n i j) k
  = if Z.eqb (grid_at G i j) (Z.of_nat k + 1) then 1 else 0.
Proof.
  intros Hi Hj Hk. rewrite x_at_encode by (try apply cell_index_lt; assumption).
  destruct (cell_index_div_mod n i j Hj) as [-> ->]. reflexivity.
Qed.

Lemma zeros_sum {A} (f : A -> Q) L :
  (forall l, In l L -> f l == 0) -> np_sum (map f L) == 0.
Proof.
  induction L as [|a L IH]; intros H; cbn [map]; [reflexivity|].
  rewrite np_sum_cons, (H a (or_introl eq_refl)), IH; [ring|].
  intros l Hl. apply H. now right.
Qed.

Lemma indicator_sum {A} (f : A -> Q) L a :
  NoDup L -> In a L -> f a == 1 ->
  (forall l, In l L -> l <> a -> f l == 0) ->
  np_sum (map f L) == 1.
Proof.
  induction 1 as [|x L Hx HL IH]; intros Ha Hfa Hz; [contradiction|].
  cbn [map]. rewrite np_sum_cons. destruct Ha as [->|Ha].
  - rewrite Hfa, zeros_sum; [ring|].
    intros l Hl. apply Hz; [now right|]. intros ->. contradiction.
  - rewrite (Hz x (or_introl eq_refl)) by (intros ->; contradiction).
    rewrite IH; [ring | exact Ha | exact Hfa |].
    intros l Hl. apply Hz. now right.
Qed.

Lemma NoDup_map_inj {A B} (h : A -> B) L :
  (forall x y, h x = h y -> x = y) -> NoDup L -> NoDup (map h L).
Proof.
  intros Hinj. induction 1 as [|x L Hx HL IH]; cbn [map]; constructor; auto.
  intros Hin. apply in_map_iff in Hin. destruct Hin as (y & Hy & Hin).
  apply Hinj in Hy. now subst.
Qed.

Lemma box_cells_NoDup I J : NoDup (box_cells I J).
Proof.
  unfold box_cells. cbn [seq flat_map map app].
  repeat (constructor;
          [cbn [In]; intros Hc;
           repeat (destruct Hc as [Hc|Hc]; [injection Hc; lia|]); exact Hc|]).
  constructor.
Qed.

Section Solved.
Variables (n : nat) (puzzle G : grid).
Hypothesis G_valid : valid_sudoku n puzzle G.

Lemma solved_digit i j :
  (i < n)%nat -> (j < n)%nat ->
  exists k0, (k0 < n)%nat /\ grid_at G i j = (Z.of_nat k0 + 1)%Z.
Proof.
  intros Hi Hj. destruct G_valid as (_ & Hd & _). specialize (Hd i j Hi Hj).
  exists (Z.to_nat (grid_at G i j - 1)). lia.
Qed.

Lemma solved_cell_holds cell :
  (cell < n * n)%nat ->
  holds (encode_grid n G) (map (fun k => (cell, k)) (seq 0 n)).
Proof.
  intros Hc. apply holds_cell.
  destruct (proj2 (cell_index_round_trip n) cell Hc) as (Hi & Hj & _).
  destruct (solved_digit _ _ Hi Hj) as (k0 & Hk0 & Hd).
  apply (indicator_sum _ _ k0); [apply seq_NoDup | apply in_seq; lia | |].
  - rewrite x_at_encode by assumption. rewrite Hd, Z.eqb_refl. reflexivity.
  - intros k Hk Hne. apply in_seq in Hk. rewrite x_at_encode by (try assumption; lia).
    rewrite Hd. destruct (Z.eqb_spec (Z.of_nat k0 + 1) (Z.of_nat k + 1));
      [lia | reflexivity].
Qed.

Lemma solved_house_holds (H : list (nat * nat)) k :
  NoDup H ->
  (forall c, In c H -> (fst c < n)%nat /\ (snd c < n)%nat) -> (k < n)%nat ->
  once_in G H (Z.of_nat k + 1) ->
  holds (encode_grid n G) (map (fun c => (cell_index n (fst c) (snd c), k)) H).
Proof.
  intros Hnd HH Hk (c0 & Hc0 & Hd & Hu). apply holds_house.
  apply (indicator_sum _ _ c0 Hnd Hc0).
  - destruct (HH c0 Hc0). rewrite x_at_encode_cell by assumption.
    rewrite Hd, Z.eqb_refl. reflexivity.
  - intros c Hc Hne. destruct (HH c Hc). rewrite x_at_encode_cell by assumption.
    destruct (Z.eqb_spec (grid_at G (fst c) (snd c)) (Z.of_nat k + 1)) as [E|E];
      [|reflexivity].
    exfalso. apply Hne, Hu; assumption.
Qed.

Lemma solved_extract i j :
  (i < n)%nat -> (j < n)%nat ->
  solution_cell n (encode_grid n G) i j = grid_at G i j.
Proof.
  intros Hi Hj. destruct (solved_digit i j Hi Hj) as (k0 & Hk0 & Hd).
  rewrite Hd. apply solution_cell_last; [exact Hk0 | |].
  - rewrite x_at_encode_cell by assumption. rewrite Hd, Z.eqb_refl. reflexivity.
  - intros k Hk. rewrite x_at_encode_cell by (try assumption; lia).
    rewrite Hd. destruct (Z.eqb_spec (Z.of_nat k0 + 1) (Z.of_nat k + 1));
      [lia | discriminate].
Qed.

Lemma solved_round_trip : extract_solution n (encode_grid n G) = G.
Proof.
  destruct G_valid as ((Hlen & Hrows) & _). unfold extract_solution.
  transitivity (map (fun i => nth i G []) (seq 0 (length G)));
    [|apply list_as_map_nth].
  rewrite Hlen. apply map_ext_in. intros i Hi. apply in_seq in Hi.
  assert (Hr : length (nth i G []) = n).
  { rewrite Forall_forall in Hrows. apply Hrows, nth_In. lia. }
  transitivity (map (fun j => nth j (nth i G []) 0%Z) (seq 0 (length (nth i G []))));
    [|apply list_as_map_nth].
  rewrite Hr. apply map_ext_in. intros j Hj. apply in_seq in Hj.
  apply solved_extract; lia.
Qed.
End Solved.

Lemma solved_feasible (n b : nat) (puzzle G : grid) :
  n = (3 * b)%nat ->
  valid_sudoku n puzzle G ->
  boolean_values n (encode_grid n G) /\
  (forall c, In c (constraints n puzzle) -> holds (encode_grid n G) c) /\
  extract_solution n (encode_grid n G) = G.
Proof.
  intros Hn HG. split; [|split; [|apply (solved_round_trip n puzzle G HG)]].
  - intros cell k Hc Hk. rewrite x_at_encode by assumption.
    match goal with |- context [if ?t then _ else _] => destruct t end;
      [right | left]; reflexivity.
  - pose proof HG as (_ & Hdig & Hrow & Hcol & Hbox & Hclue).
    assert (Hd : forall k, (k < n)%nat -> (1 <= Z.of_nat k + 1 <= Z.of_nat n)%Z)
      by (intros; lia).
    intros c Hc. unfold constraints in Hc.
    apply in_app_or in Hc. destruct Hc as [Hc|Hc].
    { unfold cell_constraints in Hc. apply in_map_iff in Hc.
      destruct Hc as (cell & <- & Hcell). apply in_seq in Hcell.
      apply (solved_cell_holds n puzzle G HG). lia. }
    apply in_app_or in Hc. destruct Hc as [Hc|Hc].
    { unfold row_constraints in Hc. apply in_flat_map in Hc.
      destruct Hc as (i & Hi & Hc). apply in_seq in Hi.
      apply in_map_iff in Hc. destruct Hc as (k & <- & Hk). apply in_seq in Hk.
      replace (map (fun j => (cell_index n i j, k)) (seq 0 n))
        with (map (fun c => (cell_index n (fst c) (snd c), k)) (row_cells n i))
        by (unfold row_cells; rewrite map_map; reflexivity).
      apply (solved_house_holds n G); [| |lia|apply Hrow; [lia|apply Hd; lia]].
      - apply NoDup_map_inj; [intros x y [= ->]; reflexivity | apply seq_NoDup].
      - intros c Hc. unfold row_cells in Hc. apply in_map_iff in Hc.
        destruct Hc as (j & <- & Hj). apply in_seq in Hj. cbn [fst snd]. lia. }
    apply in_app_or in Hc. destruct Hc as [Hc|Hc].
    { unfold col_constraints in Hc. apply in_flat_map in Hc.
      destruct Hc as (j & Hj & Hc). apply in_seq in Hj.
      apply in_map_iff in Hc. destruct Hc as (k & <- & Hk). apply in_seq in Hk.
      replace (map (fun i => (cell_index n i j, k)) (seq 0 n))
        with (map (fun c => (cell_index n (fst c) (snd c), k)) (col_cells n j))
        by (unfold col_cells; rewrite map_map; reflexivity).
      apply (solved_house_holds n G); [| |lia|apply Hcol; [lia|apply Hd; lia]].
      - apply NoDup_map_inj; [intros x y [= ->]; reflexivity | apply seq_NoDup].
      - intros c Hc. unfold col_cells in Hc. apply in_map_iff in Hc.
        destruct Hc as (i & <- & Hi). apply in_seq in Hi. cbn [fst snd]. lia. }
    apply in_app_or in Hc. destruct Hc as [Hc|Hc].
    { unfold box_constraints in Hc. apply in_flat_map in Hc.
      destruct Hc as (I & HI & Hc). apply in_flat_map in Hc.
      destruct Hc as (J & HJ & Hc).
      apply in_map_iff in Hc. destruct Hc as (k & <- & Hk). apply in_seq in Hk.
      destruct (range_step3_inv n b I Hn HI) as (bi & -> & Hbi).
      destruct (range_step3_inv n b J Hn HJ) as (bj & -> & Hbj).
      rewrite box_terms.
      apply (solved_house_holds n G);
        [apply box_cells_NoDup | | lia | apply Hbox; [assumption..|apply Hd; lia]].
      intros c. apply (box_cells_in n b bi bj c Hn Hbi Hbj). }
    unfold clue_constraints in Hc. apply in_flat_map in Hc.
    destruct Hc as (i & Hi & Hc). apply in_seq in Hi. apply in_flat_map in Hc.
    destruct Hc as (j & Hj & Hc). apply in_seq in Hj.
    destruct (Z.eqb_spec (grid_at puzzle i j) 0) as [E|E]; [contradiction|].
    destruct Hc as [<-|[]].
    assert (Hi' : (i < n)%nat) by lia. assert (Hj' : (j < n)%nat) by lia.
    specialize (Hclue i j Hi' Hj' E). specialize (Hdig i j Hi' Hj').
    unfold holds. cbn [map]. rewrite np_sum_cons.
    rewrite x_at_encode_cell by lia.
    replace (Z.of_nat (Z.to_nat (grid_at puzzle i j - 1)) + 1)%Z
      with (grid_at G i j) by lia.
    rewrite Z.eqb_refl. reflexivity.
Qed.

Lemma printed_solution_feasible :
  boolean_values 9 (encode_grid 9 printed_solution) /\
  (forall c, In c (constraints 9 initial_grid) ->
             holds (encode_grid 9 printed_solution) c).
Proof.
  split.
  - intros cell k Hc Hk. rewrite x_at_encode by assumption.
    match goal with |- context [if ?t then _ else _] => destruct t end;
      [right | left]; reflexivity.
  - assert (E : forallb (fun c =>
                  Qeq_bool (np_sum (map (fun '(cell, k) =>
                              x_at (encode_grid 9 printed_solution) cell k) c)) 1)
                  (constraints 9 initial_grid) = true) by (vm_compute; reflexivity).
    intros c Hc. rewrite forallb_forall in E. apply Qeq_bool_iff, (E c Hc).
Qed.

Lemma initial_grid_digits :
  forall i j, (i < 9)%nat -> (j < 9)%nat ->
              (0 <= grid_at initial_grid i j <= Z.of_nat 9)%Z.
Proof.
  intros i j Hi Hj.
  do 9 (destruct i as [|i];
        [do 9 (destruct j as [|j]; [vm_compute; split; discriminate|]); lia|]).
  lia.
Qed.

Lemma printed_solution_valid : valid_sudoku 9 initial_grid printed_solution.
Proof.
  change printed_solution
    with (extract_solution 9 (encode_grid 9 printed_solution)).
  destruct printed_solution_feasible as [Hb Hall].
  exact (feasible_valid 9 3 initial_grid _ eq_refl initial_grid_digits Hb Hall).
Qed.

(** Every array of 0/1 values that satisfies the constraints built from a
    puzzle decodes to a solved Sudoku: the grid read off it has every cell
    filled with a digit from 1 to [n], every digit exactly once in each
    row, each column and each 3x3 box, and the given cells unchanged. *)
Theorem sudoku_feasible_is_solution (n b : nat) (puzzle : grid) (X : matrix) :
  n = (3 * b)%nat ->
  (forall i j, (i < n)%nat -> (j < n)%nat ->
               (0 <= grid_at puzzle i j <= Z.of_nat n)%Z) ->
  boolean_values n X ->
  (forall c, In c (constraints n puzzle) -> holds X c) ->
  valid_sudoku n puzzle (extract_solution n X).
Proof. apply feasible_valid. Qed.

Lemma sudoku_feasible_is_solution_witness :
  9%nat = (3 * 3)%nat /\
  (forall i j, (i < 9)%nat -> (j < 9)%nat ->
               (0 <= grid_at initial_grid i j <= Z.of_nat 9)%Z) /\
  boolean_values 9 (encode_grid 9 printed_solution) /\
  (forall c, In c (constraints 9 initial_grid) ->
             holds (encode_grid 9 printed_solution) c) /\
  valid_sudoku 9 initial_grid
    (extract_solution 9 (encode_grid 9 printed_solution)).
Proof.
  split; [reflexivity|]. split; [exact initial_grid_digits|].
  split; [exact (proj1 printed_solution_feasible)|].
  split; [exact (proj2 printed_solution_feasible)|].
  exact (sudoku_feasible_is_solution 9 3 initial_grid _ eq_refl initial_grid_digits
           (proj1 printed_solution_feasible) (proj2 printed_solution_feasible)).
Defined.

(** Every solved Sudoku that agrees with the given cells is a feasible
    point of the model: its one-hot array has 0/1 values, satisfies every
    constraint built from the puzzle, and is read back as the same grid. *)
Theorem sudoku_solution_is_feasible (n b : nat) (puzzle G : grid) :
  n = (3 * b)%nat ->
  valid_sudoku n puzzle G ->
  boolean_values n (encode_grid n G) /\
  (forall c, In c (constraints n puzzle) -> holds (encode_grid n G) c) /\
  extract_solution n (encode_grid n G) = G.
Proof. apply solved_feasible. Qed.

Lemma sudoku_solution_is_feasible_witness :
  9%nat = (3 * 3)%nat /\
  valid_sudoku 9 initial_grid printed_solution /\
  boolean_values 9 (encode_grid 9 printed_solution) /\
  (forall c, In c (constraints 9 initial_grid) ->
             holds (encode_grid 9 printed_solution) c) /\
  extract_solution 9 (encode_grid 9 printed_solution) = printed_solution.
Proof.
  split; [reflexivity|]. split; [exact printed_solution_valid|].
  exact (sudoku_solution_is_feasible 9 3 initial_grid printed_solution eq_refl
           printed_solution_valid).
Defined.

Lemma feasible_values (n : nat) (X : matrix) :
  boolean_values n X ->
  (forall i j, (i < n)%nat -> (j < n)%nat ->
     holds X (map (fun k => (cell_index n i j, k)) (seq 0 n))) ->
  forall cell k, (cell < n * n)%nat -> (k < n)%nat ->
    x_at (encode_grid n (extract_solution n X)) cell k == x_at X cell k.
Proof.
  intros Hb Hcells cell k Hc Hk.
  destruct (proj2 (cell_index_round_trip n) cell Hc) as (Hi & Hj & Hidx).
  rewrite x_at_encode by assumption.
  rewrite extract_solution_at by assumption.
  pose proof (digit_iff n X Hb Hcells _ _ k Hi Hj Hk) as Hiff. rewrite Hidx in Hiff.
  destruct (Z.eqb_spec (solution_cell n X (cell / n) (cell mod n)) (Z.of_nat k + 1))
    as [E|E].
  - symmetry. now apply Hiff.
  - destruct (Hb cell k Hc Hk) as [E0|E1]; [now rewrite E0|].
    exfalso. apply E. now apply Hiff.
Qed.

(** Reading the grid off a feasible array loses nothing: the one-hot array
    of the grid read off an array of 0/1 values that satisfies the cell
    constraints has the values of that array. *)
Theorem sudoku_values_round_trip (n : nat) (puzzle : grid) (X : matrix) :
  boolean_values n X ->
  (forall c, In c (constraints n puzzle) -> holds X c) ->
  forall cell k, (cell < n * n)%nat -> (k < n)%nat ->
    x_at (encode_grid n (extract_solution n X)) cell k == x_at X cell k.
Proof.
  intros Hb Hall. apply (feasible_values n X Hb).
  intros i j Hi Hj. apply Hall. unfold constraints. apply in_or_app. left.
  unfold cell_constraints.
  apply (in_map (fun cell => map (fun k => (cell, k)) (seq 0 n))).
  apply in_seq. pose proof (cell_index_lt n i j Hi Hj). lia.
Qed.

Lemma sudoku_values_round_trip_witness :
  boolean_values 9 (encode_grid 9 printed_solution) /\
  (forall c, In c (constraints 9 initial_grid) ->
             holds (encode_grid 9 printed_solution) c) /\
  (40 < 9 * 9)%nat /\ (4 < 9)%nat /\
  x_at (encode_grid 9 (extract_solution 9 (encode_grid 9 printed_solution))) 40 4
  == x_at (encode_grid 9 printed_solution) 40 4.
Proof.
  assert (H1 : (40 < 9 * 9)%nat) by (cbn; lia).
  assert (H2 : (4 < 9)%nat) by lia.
  split; [exact (proj1 printed_solution_feasible)|].
  split; [exact (proj2 printed_solution_feasible)|].
  split; [exact H1|]. split; [exact H2|].
  exact (sudoku_values_round_trip 9 initial_grid _ (proj1 printed_solution_feasible)
           (proj2 printed_solution_feasible) 40%nat 4%nat H1 H2).
Defined.

(** What the last cell prints: a grid only when the solver reports the
    status optimal, and then, if the values the solver left are 0/1 and
    satisfy the constraints it was given, a solved Sudoku that agrees with
    the puzzle; with any other status it prints that no solution was
    found. *)
Theorem solve_sudoku_prints (cbc : list constraint -> solver_status * matrix)
    (n b : nat) (puzzle : grid) :
  n = (3 * b)%nat ->
  (forall i j, (i < n)%nat -> (j < n)%nat ->
               (0 <= grid_at puzzle i j <= Z.of_nat n)%Z) ->
  (fst (cbc (constraints n puzzle)) = optimal ->
   boolean_values n (snd (cbc (constraints n puzzle))) /\
   forall c, In c (constraints n puzzle) ->
             holds (snd (cbc (constraints n puzzle))) c) ->
  match solve_sudoku cbc n puzzle with
  | Some G => fst (cbc (constraints n puzzle)) = optimal /\ valid_sudoku n puzzle G
  | None => fst (cbc (constraints n puzzle)) <> optimal
  end.
Proof.
  intros Hn Hpz Hc. unfold solve_sudoku.
  destruct (cbc (constraints n puzzle)) as [st X]. cbn [fst snd] in *.
  destruct st; try discriminate.
  split; [reflexivity|]. destruct (Hc eq_refl) as [Hb Hall].
  apply (feasible_valid n b puzzle X Hn Hpz Hb Hall).
Qed.

Lemma solve_sudoku_prints_witness :
  9%nat = (3 * 3)%nat /\
  (forall i j, (i < 9)%nat -> (j < 9)%nat ->
               (0 <= grid_at initial_grid i j <= Z.of_nat 9)%Z) /\
  match solve_sudoku (fun _ => (optimal, encode_grid 9 printed_solution))
                     9 initial_grid with
  | Some G => optimal = optimal /\ valid_sudoku 9 initial_grid G
  | None => optimal <> optimal
  end.
Proof.
  split; [reflexivity|]. split; [exact initial_grid_digits|].
  exact (solve_sudoku_prints (fun _ => (optimal, encode_grid 9 printed_solution))
           9 3 initial_grid eq_refl initial_grid_digits
           (fun _ => printed_solution_feasible)).
Defined.

(** ** The L1-ball projector: uniqueness and stability *)

Lemma coord_variational th v z :
  0 <= th ->
  2 * th * (Qabs (np_sign v * shrink th (Qabs v)) - Qabs z)
  <= (z - v) * (z - v)
     - (np_sign v * shrink th (Qabs v) - v) * (np_sign v * shrink th (Qabs v) - v)
     - (z - np_sign v * shrink th (Qabs v)) * (z - np_sign v * shrink th (Qabs v)).
Proof.
  intros Hth. rewrite (output_abs_eq _ _ Hth).
  pose proof (Qabs_nonneg z) as Hz0. pose proof (Qle_Qabs z) as Hz1.
  assert (Hz2 : - z <= Qabs z) by (rewrite <- Qabs_opp; apply Qle_Qabs).
  set (az := Qabs z) in *.
  pose proof (Qmult_le_0_compat _ _ Hth Hz0) as P0.
  assert (P1 : 0 <= th * (az - z)) by (apply Qmult_le_0_compat; lra).
  assert (P2 : 0 <= th * (az + z)) by (apply Qmult_le_0_compat; lra).
  destruct (np_sign_cases v) as [[Hv ->]|[[Hv ->]|[Hv ->]]].
  - assert (Ha : Qabs v == - v) by (apply Qabs_neg; lra).
    destruct (shrink_cases th (Qabs v)) as [[Hc ->]|[Hc ->]]; rewrite Ha in *.
    + assert (E : (z - v) * (z - v) - (-1 * (- v - th) - v) * (-1 * (- v - th) - v)
                  - (z - -1 * (- v - th)) * (z - -1 * (- v - th))
                  - 2 * th * (- v - th - az)
                  == 2 * (th * (az + z))) by ring.
      lra.
    + assert (P3 : 0 <= (az + z) * (- v)) by (apply Qmult_le_0_compat; lra).
      assert (P4 : 0 <= az * (th + v)) by (apply Qmult_le_0_compat; lra).
      assert (E : (z - v) * (z - v) - (-1 * 0 - v) * (-1 * 0 - v)
                  - (z - -1 * 0) * (z - -1 * 0)
                  - 2 * th * (0 - az)
                  == 2 * ((az + z) * (- v)) + 2 * (az * (th + v))) by ring.
      lra.
  - assert (Ha : Qabs v == 0) by (rewrite Hv; reflexivity).
    assert (Es : shrink th (Qabs v) == 0) by (apply shrink_below; lra).
    rewrite Es, Hv.
    assert (E : (z - 0) * (z - 0) - (0 * 0 - 0) * (0 * 0 - 0)
                - (z - 0 * 0) * (z - 0 * 0) - 2 * th * (0 - az)
                == 2 * (th * az)) by ring.
    lra.
  - assert (Ha : Qabs v == v) by (apply Qabs_pos; lra).
    destruct (shrink_cases th (Qabs v)) as [[Hc ->]|[Hc ->]]; rewrite Ha in *.
    + assert (E : (z - v) * (z - v) - (1 * (v - th) - v) * (1 * (v - th) - v)
                  - (z - 1 * (v - th)) * (z - 1 * (v - th))
                  - 2 * th * (v - th - az)
                  == 2 * (th * (az - z))) by ring.
      lra.
    + assert (P3 : 0 <= (az - z) * v) by (apply Qmult_le_0_compat; lra).
      assert (P4 : 0 <= az * (th - v)) by (apply Qmult_le_0_compat; lra).
      assert (E : (z - v) * (z - v) - (1 * 0 - v) * (1 * 0 - v)
                  - (z - 1 * 0) * (z - 1 * 0)
                  - 2 * th * (0 - az)
                  == 2 * ((az - z) * v) + 2 * (az * (th - v))) by ring.
      lra.
Qed.

Lemma variational_sum th :
  0 <= th ->
  forall v z, length z = length v ->
    2 * th * (norm1 (Spec.output v th) - norm1 z)
    <= dist2 z v - dist2 (Spec.output v th) v - dist2 z (Spec.output v th).
Proof.
  intros Hth. induction v as [|a v IH]; intros [|b z] Hlen; try discriminate.
  - cbn. lra.
  - injection Hlen as Hlen. specialize (IH z Hlen).
    unfold Spec.output in *. cbn [map].
    rewrite !norm1_cons, !dist2_cons.
    pose proof (coord_variational th a b Hth) as Hc.
    change (Qmax (Qabs a - th) 0) with (shrink th (Qabs a)).
    lra.
Qed.

Lemma dist2_sym a : forall b, dist2 a b == dist2 b a.
Proof.
  induction a as [|u a IH]; intros [|v b]; try reflexivity.
  rewrite !dist2_cons, (IH b). ring.
Qed.

(** The projection against any point of the ball, with the distance between
    the two on the smaller side. *)
Lemma project_pythagoras v N out z :
  0 < N -> project_onto_l1_ball v N = Ok out ->
  length z = length v -> norm1 z <= N ->
  dist2 out v + dist2 z out <= dist2 z v.
Proof.
  intros HN Hp Hlen Hz. destruct (Qle_bool (norm1 v) N) eqn:Hv.
  - rewrite (project_fast_path _ _ Hv) in Hp. injection Hp as <-.
    rewrite dist2_same. lra.
  - destruct (project_slow_path v N HN Hv) as (r & c & _ & Hp' & Hth & Hsum).
    rewrite Hp' in Hp. injection Hp as <-.
    pose proof (slow_path_norm v N r c Hth Hsum) as Hn.
    pose proof (variational_sum _ Hth v z Hlen) as Hs.
    rewrite Hn in Hs.
    assert (P : 0 <= c / inject_Z r * (N - norm1 z))
      by (apply Qmult_le_0_compat; lra).
    lra.
Qed.

(** In exact arithmetic the nearest point is unique: a point of the ball
    that is as close to the input as the result of the projection is that
    result. *)
Theorem project_onto_l1_ball_unique (v : vec) (N : Q) (out z : vec) :
  0 < N ->
  project_onto_l1_ball v N = Ok out ->
  length z = length v -> norm1 z <= N ->
  dist2 z v <= dist2 out v ->
  Forall2 Qeq z out.
Proof.
  intros HN Hp Hlen Hz Hd.
  pose proof (project_pythagoras v N out z HN Hp Hlen Hz) as H.
  apply dist2_zero; [rewrite (project_length _ _ _ Hp); exact Hlen|].
  lra.
Qed.

Lemma project_onto_l1_ball_unique_witness :
  exists out,
    0 < 5 /\ project_onto_l1_ball [4; -3; 2] 5 = Ok out /\
    length [8 # 3; -5 # 3; 2 # 3] = length [4; -3; 2] /\
    norm1 [8 # 3; -5 # 3; 2 # 3] <= 5 /\
    dist2 [8 # 3; -5 # 3; 2 # 3] [4; -3; 2] <= dist2 out [4; -3; 2] /\
    Forall2 Qeq [8 # 3; -5 # 3; 2 # 3] out.
Proof.
  destruct (project_onto_l1_ball [4; -3; 2] 5) as [out|e] eqn:E.
  - exists out.
    assert (H1 : 0 < 5) by reflexivity.
    assert (H2 : norm1 [8 # 3; -5 # 3; 2 # 3] <= 5) by (vm_compute; discriminate).
    assert (H3 : dist2 [8 # 3; -5 # 3; 2 # 3] [4; -3; 2] <= dist2 out [4; -3; 2]).
    { vm_compute in E. injection E as <-. vm_compute. discriminate. }
    split; [exact H1|]. split; [reflexivity|]. split; [reflexivity|].
    split; [exact H2|]. split; [exact H3|].
    exact (project_onto_l1_ball_unique [4; -3; 2] 5 out [8 # 3; -5 # 3; 2 # 3]
             H1 E eq_refl H2 H3).
  - exfalso. vm_compute in E. discriminate.
Defined.

Lemma four_point : forall p q u v : vec,
  length p = length q -> length q = length u -> length u = length v ->
  dist2 q p
  + (dist2 q v - dist2 p v - dist2 q p)
  + (dist2 p u - dist2 q u - dist2 p q)
  <= dist2 u v.
Proof.
  induction p as [|p0 p IH]; intros [|q0 q] [|u0 u] [|v0 v] H1 H2 H3;
    try discriminate.
  injection H1 as H1. injection H2 as H2. injection H3 as H3.
  specialize (IH q u v H1 H2 H3). rewrite !dist2_cons.
  pose proof (Qsquare_nonneg ((u0 - v0) - (q0 - p0))) as Sq.
  assert (E : (u0 - v0) * (u0 - v0)
              - ((q0 - p0) * (q0 - p0)
                 + ((q0 - v0) * (q0 - v0) - (p0 - v0) * (p0 - v0)
                    - (q0 - p0) * (q0 - p0))
                 + ((p0 - u0) * (p0 - u0) - (q0 - u0) * (q0 - u0)
                    - (p0 - q0) * (p0 - q0)))
              == (u0 - v0 - (q0 - p0)) * (u0 - v0 - (q0 - p0))) by ring.
  lra.
Qed.

(** In exact arithmetic the projection brings no two points further apart:
    for two inputs of one shape the results are at most as far from each
    other as the inputs. *)
Theorem project_onto_l1_ball_nonexpansive (u v : vec) (N : Q) (q p : vec) :
  0 < N ->
  project_onto_l1_ball u N = Ok q -> project_onto_l1_ball v N = Ok p ->
  length u = length v ->
  dist2 q p <= dist2 u v.
Proof.
  intros HN Hq Hp Hlen.
  pose proof (project_length _ _ _ Hq) as Lq.
  pose proof (project_length _ _ _ Hp) as Lp.
  destruct (project_total u N HN) as (q' & Hq' & _ & Nq).
  destruct (project_total v N HN) as (p' & Hp' & _ & Np).
  rewrite Hq in Hq'. rewrite Hp in Hp'. injection Hq' as <-. injection Hp' as <-.
  pose proof (project_pythagoras v N p q HN Hp (eq_trans Lq Hlen) Nq) as H1.
  pose proof (project_pythagoras u N q p HN Hq (eq_trans Lp (eq_sym Hlen)) Np) as H2.
  pose proof (four_point p q u v (eq_trans Lp (eq_trans (eq_sym Hlen) (eq_sym Lq)))
                Lq Hlen) as H4.
  rewrite (dist2_sym p v), (dist2_sym q u) in *.
  pose proof (dist2_sym p q) as Hs.
  lra.
Qed.

Lemma project_onto_l1_ball_nonexpansive_witness :
  exists q p,
    0 < 5 /\ project_onto_l1_ball [4; -3; 2] 5 = Ok q /\
    project_onto_l1_ball [1; 7; 0] 5 = Ok p /\
    length [4; -3; 2] = length [1; 7; 0] /\
    dist2 q p <= dist2 [4; -3; 2] [1; 7; 0].
Proof.
  destruct (project_onto_l1_ball [4; -3; 2] 5) as [q|e] eqn:E1;
    [|exfalso; vm_compute in E1; discriminate].
  destruct (project_onto_l1_ball [1; 7; 0] 5) as [p|e] eqn:E2;
    [|exfalso; vm_compute in E2; discriminate].
  exists q, p. assert (H : 0 < 5) by reflexivity.
  split; [exact H|]. split; [reflexivity|]. split; [reflexivity|].
  split; [reflexivity|].
  exact (project_onto_l1_ball_nonexpansive [4; -3; 2] [1; 7; 0] 5 q p H E1 E2 eq_refl).
Defined.

Lemma exact_failure_witness :
  -1 <= 0 /\ -1 < norm1 [3] /\
  project_onto_l1_ball [3] (-1) = Raise IndexError /\
  (forall out, project_onto_l1_ball [4; -3; 2] 5 = Ok out ->
               length out = length [4; -3; 2]).
Proof.
  assert (H1 : -1 <= 0) by (vm_compute; discriminate).
  assert (H2 : -1 < norm1 [3]) by reflexivity.
  split; [exact H1|]. split; [exact H2|]. split.
  - exact (proj2 (proj1 (exact_failure [3] (-1)) IndexError)
             (conj eq_refl (conj H1 H2))).
  - exact (proj2 (exact_failure [4; -3; 2] 5)).
Defined.

(** * The code in binary64 arithmetic *)

(** ** Signs and comparisons of binary64 numbers *)

Lemma binary_round_aux_sign s m e l :
  match binary_round_aux prec emax s m e l with
  | S754_nan | S754_zero _ => True
  | S754_infinity s' | S754_finite s' _ _ => s' = s
  end.
Proof.
  unfold binary_round_aux.
  destruct (shr_fexp prec emax m e l) as [mrs' e'].
  destruct (shr_fexp prec emax _ e' loc_Exact) as [mrs'' e''].
  destruct (shr_m mrs''); auto.
  destruct (Z.leb e'' (Z.sub emax prec)); reflexivity.
Qed.




Lemma SFcompare_refl x : x <> S754_nan -> SFcompare x x = Some Eq.
Proof.
  destruct x as [s|s| |s m e]; cbn; intros H; try congruence.
  - destruct s; reflexivity.
  - destruct s; rewrite Z.compare_refl, Pos.compare_cont_refl; reflexivity.
Qed.

Lemma is_nan_spec a : is_nan a = true <-> Prim2SF a = S754_nan.
Proof.
  unfold is_nan. rewrite eqb_spec. unfold SFeqb. split.
  - intros H. destruct (Prim2SF a) eqn:E; auto;
      rewrite SFcompare_refl in H by discriminate; discriminate.
  - intros ->. reflexivity.
Qed.







Lemma ltb_leb a b : (a <? b)%float = true -> (a <=? b)%float = true.
Proof.
  rewrite ltb_spec, leb_spec. unfold SFltb, SFleb.
  destruct (SFcompare _ _) as [[]|]; auto.
Qed.

Lemma leb_not_nan a b :
  (a <=? b)%float = true -> is_nan a = false /\ is_nan b = false.
Proof.
  rewrite leb_spec. intros H.
  split; apply not_true_is_false; intros Hn; apply is_nan_spec in Hn;
    rewrite Hn in H; [|destruct (Prim2SF a)]; discriminate.
Qed.

(** [<=] is a total preorder on the numbers (everything but NaN). *)
Lemma SFleb_total x y :
  x <> S754_nan -> y <> S754_nan -> SFleb x y = false -> SFleb y x = true.
Proof.
  unfold SFleb.
  destruct x as [s|s| |s m e], y as [s'|s'| |s' m' e']; cbn; intros Hx Hy;
    try congruence;
    try (destruct s; try destruct s'; cbn; congruence);
    try (destruct s'; cbn; congruence).
  change (Pos.compare_cont Eq m m') with (Pos.compare m m').
  change (Pos.compare_cont Eq m' m) with (Pos.compare m' m).
  rewrite (Z.compare_antisym e e'), (Pos.compare_antisym m m').
  destruct s, s'; cbn; try congruence;
    destruct (Z.compare e e'); cbn; try congruence;
    destruct (Pos.compare m m'); cbn; congruence.
Qed.

Lemma SFleb_trans x y z :
  SFleb x y = true -> SFleb y z = true -> SFleb x z = true.
Proof.
  unfold SFleb.
  destruct x as [s|s| |s m e], y as [s'|s'| |s' m' e'],
           z as [s''|s''| |s'' m'' e''];
    cbn; try discriminate; auto;
    try (destruct s; try destruct s'; try destruct s''; cbn; congruence);
    try (destruct s'; try destruct s''; cbn; congruence);
    try (destruct s; try destruct s''; cbn; congruence).
  all: change (Pos.compare_cont Eq ?a ?b) with (Pos.compare a b).
  all: destruct s, s', s''; cbn; try discriminate; auto.
  all: destruct (Z.compare_spec e e'), (Z.compare_spec e' e''),
                (Z.compare_spec e e'');
       cbn; try discriminate; auto; try lia.
  all: subst.
  all: destruct (Pos.compare_spec m m'), (Pos.compare_spec m' m''),
                (Pos.compare_spec m m'');
       cbn; try discriminate; auto; try lia.
Qed.

Lemma sort_le_total a b :
  Binary64.sort_le a b = false -> Binary64.sort_le b a = true.
Proof.
  unfold Binary64.sort_le. intros H. apply orb_false_iff in H.
  destruct H as [Hle Hb]. apply orb_true_iff.
  destruct (is_nan a) eqn:Ha; [now right|]. left.
  rewrite leb_spec in *. apply SFleb_total; auto.
  - intros E. apply is_nan_spec in E. congruence.
  - intros E. apply is_nan_spec in E. congruence.
Qed.

Lemma sort_le_trans a b c :
  Binary64.sort_le a b = true -> Binary64.sort_le b c = true ->
  Binary64.sort_le a c = true.
Proof.
  unfold Binary64.sort_le. intros H1 H2.
  apply orb_true_iff in H1, H2. apply orb_true_iff.
  destruct H2 as [H2|H2]; [|now right]. left.
  destruct (leb_not_nan _ _ H2) as [Hb _].
  destruct H1 as [H1|H1]; [|congruence].
  rewrite leb_spec in *. eapply SFleb_trans; eassumption.
Qed.

(** ** Binary64: the reduction *)

Lemma pairwise_sum_eq fuel l :
  Binary64.pairwise_sum fuel l
  = if (length l <? 8)%nat then fold_left PrimFloat.add l (-0)%float
    else if (length l <=? 128)%nat then
      let '(r, rest) := Binary64.add_lanes (firstn 8 l) (skipn 8 l) in
      fold_left PrimFloat.add rest (Binary64.sum_lanes r)
    else
      match fuel with
      | O => 0%float
      | S fuel' =>
          let n2 := (length l / 2 - (length l / 2) mod 8)%nat in
          (Binary64.pairwise_sum fuel' (firstn n2 l)
           + Binary64.pairwise_sum fuel' (skipn n2 l))%float
      end.
Proof. destruct fuel; reflexivity. Qed.

Lemma cut_bounds n :
  (128 < n)%nat ->
  (1 <= n / 2 - (n / 2) mod 8 < n)%nat.
Proof.
  intros Hn.
  pose proof (Nat.div_mod_eq n 2) as H1.
  pose proof (Nat.mod_upper_bound n 2) as H2.
  pose proof (Nat.mod_upper_bound (n / 2) 8) as H3.
  lia.
Qed.

(** The sum does not depend on the fuel, once the fuel is at least the
    length of the array. *)
Lemma pairwise_sum_fuel : forall f1 f2 l,
  (length l <= f1)%nat -> (length l <= f2)%nat ->
  Binary64.pairwise_sum f1 l = Binary64.pairwise_sum f2 l.
Proof.
  induction f1 as [|f1 IH]; intros f2 l H1 H2; rewrite !pairwise_sum_eq.
  - destruct l; [reflexivity | cbn in H1; lia].
  - destruct (length l <? 8)%nat eqn:E8; [reflexivity|].
    destruct (length l <=? 128)%nat eqn:E128; [reflexivity|].
    apply Nat.leb_gt in E128.
    destruct f2 as [|f2]; [lia|].
    pose proof (cut_bounds _ E128) as Hc. cbv zeta.
    rewrite (IH f2 (firstn _ l)), (IH f2 (skipn _ l));
      rewrite ?length_firstn, ?length_skipn; try lia.
    reflexivity.
Qed.

Section Reduction.
Variable P : float -> Prop.
Hypothesis P_zero : P 0%float.
Hypothesis P_neg_zero : P (-0)%float.
Hypothesis P_add : forall a b, P a -> P b -> P (a + b)%float.

Lemma fold_add_closed l : forall acc,
  P acc -> Forall P l -> P (fold_left PrimFloat.add l acc).
Proof.
  induction l as [|a l IH]; intros acc Hacc Hl; [exact Hacc|].
  inversion Hl; subst. cbn [fold_left]. apply IH; auto.
Qed.

Lemma zip_add_closed r : forall l,
  Forall P r -> Forall P l -> Forall P (zip_with PrimFloat.add r l).
Proof.
  induction r as [|a r IH]; intros [|b l] Hr Hl; cbn [zip_with];
    try constructor; inversion Hr; inversion Hl; subst; auto.
Qed.

Lemma add_lanes_closed : forall n l r,
  (length l <= n)%nat -> Forall P r -> Forall P l ->
  Forall P (fst (Binary64.add_lanes r l))
  /\ Forall P (snd (Binary64.add_lanes r l)).
Proof.
  induction n as [|n IH]; intros l r Hn Hr Hl.
  - destruct l; [split; assumption | cbn in Hn; lia].
  - destruct l as [|a0 [|a1 [|a2 [|a3 [|a4 [|a5 [|a6 [|a7 t]]]]]]]];
      cbn [Binary64.add_lanes fst snd]; try (split; assumption).
    apply IH.
    + cbn [length] in Hn. lia.
    + apply zip_add_closed; [exact Hr|].
      rewrite Forall_forall in *. intros x Hx. apply Hl.
      cbn in *. tauto.
    + rewrite Forall_forall in *. intros x Hx. apply Hl.
      do 8 right. exact Hx.
Qed.

Lemma sum_lanes_closed r : Forall P r -> P (Binary64.sum_lanes r).
Proof.
  intros Hr. unfold Binary64.sum_lanes.
  destruct r as [|r0 [|r1 [|r2 [|r3 [|r4 [|r5 [|r6 [|r7 [|r8 t]]]]]]]]];
    try exact P_zero.
  rewrite Forall_forall in Hr.
  repeat apply P_add; apply Hr; cbn; tauto.
Qed.

Lemma pairwise_sum_closed : forall fuel l,
  Forall P l -> P (Binary64.pairwise_sum fuel l).
Proof.
  induction fuel as [|fuel IH]; intros l Hl; rewrite pairwise_sum_eq.
  - destruct (length l <? 8)%nat; [apply fold_add_closed; assumption|].
    destruct (length l <=? 128)%nat; [|exact P_zero].
    rewrite <- (firstn_skipn 8 l) in Hl. apply Forall_app in Hl.
    destruct (add_lanes_closed _ _ _ (Nat.le_refl _) (proj1 Hl) (proj2 Hl))
      as [H1 H2].
    destruct (Binary64.add_lanes (firstn 8 l) (skipn 8 l)) as [r rest].
    apply fold_add_closed; [apply sum_lanes_closed, H1 | exact H2].
  - destruct (length l <? 8)%nat; [apply fold_add_closed; assumption|].
    destruct (length l <=? 128)%nat.
    + rewrite <- (firstn_skipn 8 l) in Hl. apply Forall_app in Hl.
      destruct (add_lanes_closed _ _ _ (Nat.le_refl _) (proj1 Hl) (proj2 Hl))
        as [H1 H2].
      destruct (Binary64.add_lanes (firstn 8 l) (skipn 8 l)) as [r rest].
      apply fold_add_closed; [apply sum_lanes_closed, H1 | exact H2].
    + cbv zeta.
      rewrite <- (firstn_skipn (length l / 2 - (length l / 2) mod 8) l) in Hl.
      apply Forall_app in Hl. apply P_add; apply IH; apply Hl.
Qed.

(** What holds of 0 and is kept by [+] holds of the sum of an array whose
    entries have it. *)
Lemma np_sum_closed l : Forall P l -> P (Binary64.np_sum l).
Proof.
  intros Hl. unfold Binary64.np_sum.
  apply P_add; [exact P_zero | apply pairwise_sum_closed, Hl].
Qed.
End Reduction.

Lemma SFadd_nonneg x y :
  Binary64.sf_nonneg x -> Binary64.sf_nonneg y ->
  Binary64.sf_nonneg (SF64add x y).
Proof.
  destruct x as [sx|sx| |sx mx ex], y as [sy|sy| |sy my ey]; cbn;
    intros Hx Hy; subst; auto; try reflexivity;
    try (destruct sx, sy; cbn; auto; fail).
  unfold cond_Zopp.
  change (Z.add (Zpos ?p) (Zpos ?q)) with (Zpos (Pos.add p q)).
  unfold binary_normalize, binary_round.
  destruct (shl_align _ _ _) as [mz ez].
  apply (binary_round_aux_sign false).
Qed.

(** The computed L1 norm is zero, positive or NaN. *)
Lemma f64_norm1_nonneg (v : Binary64.vec) :
  Binary64.sf_nonneg (Prim2SF (Binary64.norm1 v)).
Proof.
  unfold Binary64.norm1.
  apply (np_sum_closed (fun a => Binary64.sf_nonneg (Prim2SF a))).
  - exact I.
  - exact I.
  - intros a b Ha Hb. rewrite add_spec. now apply SFadd_nonneg.
  - unfold Binary64.np_abs. apply Forall_map, Forall_forall. intros a _.
    rewrite abs_spec. destruct (Prim2SF a); cbn; auto.
Qed.

(** The computed L1 norm of an all-zero array is zero. *)
Lemma f64_norm1_zeros (n : nat) :
  exists s, Prim2SF (Binary64.norm1 (repeat 0%float n)) = S754_zero s.
Proof.
  unfold Binary64.norm1.
  apply (np_sum_closed (fun a => exists s, Prim2SF a = S754_zero s)).
  - now exists false.
  - now exists true.
  - intros a b [sa Ha] [sb Hb]. rewrite add_spec, Ha, Hb.
    destruct sa, sb; cbn; eauto.
  - unfold Binary64.np_abs. apply Forall_map, Forall_forall.
    intros a Ha. apply repeat_spec in Ha. subst a. now exists false.
Qed.

Lemma SFleb_nonneg_nonpos x y :
  Binary64.sf_nonneg x -> SFleb x y = true ->
  SFleb y (S754_zero false) = true ->
  SFeqb y (S754_zero false) = true /\ SFeqb x (S754_zero false) = true.
Proof.
  unfold SFleb, SFeqb.
  destruct x as [sx|sx| |sx mx ex], y as [sy|sy| |sy my ey]; cbn;
    intros Hx H1 H2; subst; auto; try discriminate;
    try (destruct sy; cbn in *; discriminate);
    try (destruct sx; cbn in *; discriminate).
Qed.

(** With a radius [N <= 0] the norm test passes only when [N] and the
    computed norm are both zero. *)
Lemma f64_fast_path_zero (v : Binary64.vec) (N : float) :
  (N <=? 0)%float = true -> (Binary64.norm1 v <=? N)%float = true ->
  (N =? 0)%float = true /\ (Binary64.norm1 v =? 0)%float = true.
Proof.
  rewrite !leb_spec, !eqb_spec. change (Prim2SF 0) with (S754_zero false).
  intros HN Hv.
  exact (SFleb_nonneg_nonpos _ _ (f64_norm1_nonneg v) Hv HN).
Qed.

(** A positive radius is at least the computed norm of an all-zero array. *)
Lemma f64_zeros_in_ball (n : nat) (N : float) :
  (0 <? N)%float = true ->
  (Binary64.norm1 (repeat 0%float n) <=? N)%float = true.
Proof.
  rewrite ltb_spec, leb_spec. destruct (f64_norm1_zeros n) as [s ->].
  change (Prim2SF 0) with (S754_zero false).
  unfold SFltb, SFleb. destruct (Prim2SF N) as [s'|s'| |s' m e]; cbn; auto;
    destruct s'; auto.
Qed.

(** ** Binary64: the sort *)

Lemma f64_insert_sorted_perm a l :
  Permutation (a :: l) (Binary64.insert_sorted a l).
Proof.
  induction l as [|b t IH]; cbn [Binary64.insert_sorted]; [reflexivity|].
  destruct (Binary64.sort_le a b); [reflexivity|].
  etransitivity; [apply perm_swap | apply perm_skip, IH].
Qed.

Lemma f64_insert_sorted_ascending a l :
  StronglySorted (fun p q => Binary64.sort_le p q = true) l ->
  StronglySorted (fun p q => Binary64.sort_le p q = true)
                 (Binary64.insert_sorted a l).
Proof.
  induction 1 as [|b t Hs IH Hb]; cbn [Binary64.insert_sorted].
  - repeat constructor.
  - destruct (Binary64.sort_le a b) eqn:E.
    + constructor; [constructor; assumption|].
      constructor; [exact E|].
      eapply Forall_impl; [|exact Hb]. cbv beta. intros e He.
      eapply sort_le_trans; eassumption.
    + constructor; [exact IH|].
      apply (Permutation_Forall (f64_insert_sorted_perm a t)).
      constructor; [apply sort_le_total, E | exact Hb].
Qed.

Lemma f64_sorted_descending u :
  Binary64.descending (rev (Binary64.np_sort u)).
Proof.
  unfold Binary64.descending.
  apply (StronglySorted_rev (fun p q => Binary64.sort_le p q = true)).
  induction u as [|a u IH]; cbn [Binary64.np_sort fold_right]; [constructor|].
  apply f64_insert_sorted_ascending, IH.
Qed.

Lemma f64_sorted_perm u : Permutation u (rev (Binary64.np_sort u)).
Proof.
  etransitivity; [|apply Permutation_rev].
  induction u as [|a u IH]; cbn [Binary64.np_sort fold_right]; [reflexivity|].
  etransitivity; [apply perm_skip, IH | apply f64_insert_sorted_perm].
Qed.

(** ** Binary64: the threshold search *)

(** Indexing a masked array with [-1]: the entry at the last position whose
    mask is set; the masked array is empty when no mask is set. *)
Lemma np_last_masked {B} (f : nat -> B) (t : nat -> bool) (n : nat) :
  forall k,
    ((forall i, (k <= i < k + n)%nat -> t i = false) /\
     np_mask (map f (seq k n)) (map t (seq k n)) = [])
    \/ exists i,
         (k <= i < k + n)%nat /\ t i = true /\
         (forall j, (i < j < k + n)%nat -> t j = false) /\
         np_last (np_mask (map f (seq k n)) (map t (seq k n))) = Ok (f i).
Proof.
  induction n as [|n IH]; intros k.
  - left. split; [intros i Hi; lia | reflexivity].
  - cbn [seq map np_mask].
    destruct (IH (S k)) as [[Hall Hnil]|(i & Hi & Hti & Hafter & Hlast)].
    + destruct (t k) eqn:Hk.
      * right. exists k. rewrite Hnil.
        split; [lia|]. split; [exact Hk|]. split; [|reflexivity].
        intros j Hj. apply Hall. lia.
      * left. split; [|exact Hnil].
        intros i Hi. destruct (Nat.eq_dec i k) as [->|Hne]; [exact Hk|].
        apply Hall. lia.
    + right. exists i.
      split; [lia|]. split; [exact Hti|].
      split; [intros j Hj; apply Hafter; lia|].
      destruct (t k); [|exact Hlast].
      rewrite np_last_cons, Hlast. reflexivity.
Qed.

Lemma f64_cumsum_from_map s : forall acc,
  Binary64.cumsum_from acc s
  = map (fun i => fold_left PrimFloat.add (firstn i s) acc) (seq 1 (length s)).
Proof.
  induction s as [|a s IH]; intros acc; [reflexivity|].
  cbn [Binary64.cumsum_from length seq map firstn fold_left].
  f_equal. rewrite IH, <- (seq_shift (length s) 1), map_map. reflexivity.
Qed.

Lemma f64_cumsum_map s :
  Binary64.np_cumsum s = map (Binary64.Spec.cumsum s) (seq 1 (length s)).
Proof.
  destruct s as [|a s]; [reflexivity|].
  cbn [Binary64.np_cumsum length seq map].
  f_equal. rewrite f64_cumsum_from_map, <- (seq_shift (length s) 1), map_map.
  reflexivity.
Qed.

Lemma list_as_map_s_at (s : Binary64.vec) :
  s = map (Binary64.Spec.s_at s) (seq 1 (length s)).
Proof.
  unfold Binary64.Spec.s_at.
  induction s as [|a s IH]; [reflexivity|].
  cbn [length seq map]. f_equal.
  rewrite <- (seq_shift (length s) 1), map_map. rewrite IH at 1.
  apply map_ext_in. intros i Hi. apply in_seq in Hi.
  destruct i as [|i]; [lia|]. cbn. now rewrite Nat.sub_0_r.
Qed.

Lemma ind_as_map n :
  map (fun i => (i + 1)%Z) (np_arange n) = map Z.of_nat (seq 1 n).
Proof.
  unfold np_arange. rewrite <- seq_shift, !map_map.
  apply map_ext. intros i. lia.
Qed.

(** The arrays of the threshold search are the specification's [cssv],
    index and test at the positions 1, ..., n. *)
Lemma f64_threshold_arrays (s : Binary64.vec) (N : float) :
  let L := seq 1 (length s) in
  let cssv := map (fun c => PrimFloat.sub c N) (Binary64.np_cumsum s) in
  let ind := map (fun i => (i + 1)%Z) (np_arange (length s)) in
  cssv = map (Binary64.Spec.cssv s N) L /\
  ind = map Z.of_nat L /\
  zip_with (fun a b => PrimFloat.ltb 0 (PrimFloat.sub a b)) s
    (zip_with (fun c i => PrimFloat.div c (Binary64.of_int i)) cssv ind)
  = map (Binary64.Spec.test s N) L.
Proof.
  intros L cssv ind.
  assert (H1 : cssv = map (Binary64.Spec.cssv s N) L).
  { unfold cssv. rewrite f64_cumsum_map, map_map. reflexivity. }
  assert (H2 : ind = map Z.of_nat L) by apply ind_as_map.
  split; [exact H1|]. split; [exact H2|].
  rewrite H1, H2, zip_with_map_same.
  rewrite (list_as_map_s_at s) at 1. fold L. rewrite zip_with_map_same.
  reflexivity.
Qed.

(** The threshold search either finds no index passing the test and raises
    [IndexError], or returns the largest index passing it. *)
Lemma f64_threshold_cases (u : Binary64.vec) (N : float) :
  let s := rev (Binary64.np_sort u) in
  ((forall i, (1 <= i <= length s)%nat -> Binary64.Spec.test s N i = false) /\
   Binary64.l1_threshold u N = Raise IndexError)
  \/ exists rho,
       Binary64.Spec.is_rho s N rho /\
       Binary64.l1_threshold u N
       = Ok (Z.of_nat rho, Binary64.Spec.theta s N rho).
Proof.
  intros s. unfold Binary64.l1_threshold. fold s.
  destruct (f64_threshold_arrays s N) as (H1 & H2 & H3).
  cbv zeta in H1, H2, H3. rewrite H3, H2, H1.
  destruct (np_last_masked Z.of_nat (Binary64.Spec.test s N) (length s) 1)
    as [[Hall Hnil]|(i & Hi & Hti & Hafter & Hlast)].
  - left. split; [intros i Hi; apply Hall; lia|].
    rewrite Hnil. reflexivity.
  - right. exists i. split.
    + split; [lia|]. split; [exact Hti|]. intros j Hj. apply Hafter. lia.
    + rewrite Hlast. cbn [bind].
      destruct (np_last_masked (Binary64.Spec.cssv s N) (Binary64.Spec.test s N)
                  (length s) 1)
        as [[Hall _]|(i' & Hi' & Hti' & Hafter' & Hlast')].
      * rewrite Hall in Hti by lia. discriminate.
      * assert (i' = i).
        { destruct (Nat.lt_trichotomy i i') as [Hlt|[Heq|Hgt]]; [|auto|].
          - rewrite Hafter in Hti' by lia. discriminate.
          - rewrite Hafter' in Hti by lia. discriminate. }
        subst i'. rewrite Hlast'. reflexivity.
Qed.

Lemma f64_project_fast_path v N :
  PrimFloat.leb (Binary64.norm1 v) N = true ->
  Binary64.project_onto_l1_ball v N = Ok v.
Proof. intros H. unfold Binary64.project_onto_l1_ball. now rewrite H. Qed.

Lemma f64_project_general v N :
  PrimFloat.leb (Binary64.norm1 v) N = false ->
  Binary64.project_onto_l1_ball v N
  = ('(_, theta) <- Binary64.l1_threshold (Binary64.np_abs v) N ;;
     Ok (Binary64.Spec.output v theta)).
Proof.
  intros H. unfold Binary64.project_onto_l1_ball. rewrite H.
  change (Binary64.np_sum (Binary64.np_abs v)) with (Binary64.norm1 v).
  rewrite H.
  destruct (Binary64.l1_threshold (Binary64.np_abs v) N) as [[r th]|e];
    [|reflexivity].
  cbn [bind]. f_equal. unfold Binary64.Spec.output, Binary64.np_abs.
  rewrite map_map, zip_with_map_same. reflexivity.
Qed.

(** What a call of the projector does, whatever the radius. *)
Lemma f64_project_cases (v : Binary64.vec) (N : float) :
  let s := rev (Binary64.np_sort (Binary64.np_abs v)) in
  (PrimFloat.leb (Binary64.norm1 v) N = true /\
   Binary64.project_onto_l1_ball v N = Ok v)
  \/ (PrimFloat.leb (Binary64.norm1 v) N = false /\
      (forall i, (1 <= i <= length s)%nat -> Binary64.Spec.test s N i = false) /\
      Binary64.project_onto_l1_ball v N = Raise IndexError)
  \/ (PrimFloat.leb (Binary64.norm1 v) N = false /\
      exists rho,
        Binary64.Spec.is_rho s N rho /\
        Binary64.project_onto_l1_ball v N
        = Ok (Binary64.Spec.output v (Binary64.Spec.theta s N rho))).
Proof.
  intros s. destruct (PrimFloat.leb (Binary64.norm1 v) N) eqn:Hg.
  - left. split; [reflexivity | apply f64_project_fast_path, Hg].
  - right. rewrite (f64_project_general v N Hg).
    destruct (f64_threshold_cases (Binary64.np_abs v) N)
      as [[Hall E]|(rho & Hrho & E)]; fold s in Hall || fold s in Hrho, E.
    + left. split; [reflexivity|]. split; [exact Hall|]. now rewrite E.
    + right. split; [reflexivity|]. exists rho. split; [exact Hrho|].
      now rewrite E.
Qed.

(** ** Binary64: the projector *)

(** C1 (as the code runs it): when the computed L1 norm of [v] is not at
    most [N], the call goes through the threshold search on the descending
    sort [s] of [|v|].  Either no index passes the test
    [s[i] - (cumsum[i] - N) / i > 0], every operation rounded, and the call
    raises [IndexError]; or the result is the vector of
    [sign(v[j]) * max(|v[j]| - theta, 0)] with
    [theta = (cumsum[rho] - N) / rho] and [rho] the largest index passing
    the test.  For [v = [4, -3, 2]] and [N = 5]: [rho = 3], [theta] is the
    float nearest 4/3 and the result is 8/3, -5/3, 2/3 up to one unit in
    the last place; for [v = [-0.5, 4, -3]] and [N = 2]: [rho = 2],
    [theta = 2.5] and the result is [-0, 1.5, -0.5]. *)
Theorem project_onto_l1_ball_general_path :
  (forall (v : Binary64.vec) (N : float),
     (Binary64.norm1 v <=? N)%float = false ->
     let s := rev (Binary64.np_sort (Binary64.np_abs v)) in
     Binary64.descending s /\ Permutation (Binary64.np_abs v) s /\
     (((forall i, (1 <= i <= length s)%nat ->
                  Binary64.Spec.test s N i = false) /\
       Binary64.project_onto_l1_ball v N = Raise IndexError)
      \/ exists rho,
           Binary64.Spec.is_rho s N rho /\
           Binary64.project_onto_l1_ball v N
           = Ok (Binary64.Spec.output v (Binary64.Spec.theta s N rho)))) /\
  (Binary64.l1_threshold (Binary64.np_abs [4; -3; 2]) 5
   = Ok (3%Z, 0x1.5555555555555p+0) /\
   Binary64.project_onto_l1_ball [4; -3; 2] 5
   = Ok [0x1.5555555555556p+1; -0x1.aaaaaaaaaaaabp+0; 0x1.5555555555556p-1] /\
   Binary64.l1_threshold (Binary64.np_abs [-0x1p-1; 4; -3]) 2
   = Ok (2%Z, 0x1.4p+1) /\
   Binary64.project_onto_l1_ball [-0x1p-1; 4; -3] 2
   = Ok [-0; 0x1.8p+0; -0x1p-1])%float.
Proof.
  split.
  - intros v N Hg s.
    split; [apply f64_sorted_descending|]. split; [apply f64_sorted_perm|].
    destruct (f64_project_cases v N) as [[Ht _]|[(_ & Hall & E)|(_ & rho & Hrho & E)]].
    + congruence.
    + left. split; assumption.
    + right. exists rho. split; assumption.
  - repeat split; vm_compute; reflexivity.
Qed.

Lemma project_onto_l1_ball_general_path_witness :
  (Binary64.norm1 [4; -3; 2] <=? 5)%float = false /\
  exists rho,
    Binary64.Spec.is_rho
      (rev (Binary64.np_sort (Binary64.np_abs [4; -3; 2]%float))) 5%float rho /\
    Binary64.project_onto_l1_ball [4; -3; 2]%float 5%float
    = Ok (Binary64.Spec.output [4; -3; 2]%float
            (Binary64.Spec.theta
               (rev (Binary64.np_sort (Binary64.np_abs [4; -3; 2]%float)))
               5%float rho)).
Proof.
  assert (Hg : (Binary64.norm1 [4; -3; 2] <=? 5)%float = false) by reflexivity.
  split; [exact Hg|].
  destruct (proj1 project_onto_l1_ball_general_path [4; -3; 2]%float 5%float Hg)
    as (_ & _ & [[Hall E]|H]).
  - exfalso. vm_compute in E. discriminate.
  - exact H.
Defined.

(** C1 fails on the code: with [N = 1 > 0] and [v = [1e17]], whose norm
    exceeds [N], [cumsum - N] rounds to [1e17], no index passes the test
    and the call raises [IndexError]; and with [v = [1e16 + 2]] it rounds
    to [1e16] and the call returns [[2]], where the formula of the claim
    gives [[1]]. *)
Lemma project_onto_l1_ball_general_path_counterexample :
  ((0 <? 1)%float = true /\
   (Binary64.exact 1 < norm1 (map Binary64.exact [1e17%float]))%Q /\
   Binary64.project_onto_l1_ball [1e17%float] 1%float = Raise IndexError) /\
  ((Binary64.exact 1 < norm1 (map Binary64.exact [10000000000000002%float]))%Q /\
   Binary64.project_onto_l1_ball [10000000000000002%float] 1%float
   = Ok [2%float] /\
   exists q,
     project_onto_l1_ball (map Binary64.exact [10000000000000002%float])
                          (Binary64.exact 1) = Ok q /\
     map Qred q = [1%Q]).
Proof.
  split; [vm_compute; repeat split|].
  split; [vm_compute; reflexivity|]. split; [vm_compute; reflexivity|].
  eexists. split; vm_compute; reflexivity.
Qed.

(** C8 (as the code runs it): a vector whose L1 norm, as the code computes
    it, is at most [N] is returned as it is, the very same array; in
    particular the all-zero vector of any length for every positive
    radius. *)
Theorem project_onto_l1_ball_identity :
  (forall (v : Binary64.vec) (N : float),
     (Binary64.norm1 v <=? N)%float = true ->
     Binary64.project_onto_l1_ball v N = Ok v) /\
  (forall (n : nat) (N : float),
     (0 <? N)%float = true ->
     Binary64.project_onto_l1_ball (repeat 0%float n) N = Ok (repeat 0%float n)).
Proof.
  split; [exact f64_project_fast_path|].
  intros n N HN. apply f64_project_fast_path, f64_zeros_in_ball, HN.
Qed.

Lemma project_onto_l1_ball_identity_witness :
  (Binary64.norm1 [1; -2; 3] <=? 10)%float = true /\
  Binary64.project_onto_l1_ball [1; -2; 3]%float 10%float = Ok [1; -2; 3]%float.
Proof.
  assert (H : (Binary64.norm1 [1; -2; 3] <=? 10)%float = true) by reflexivity.
  split; [exact H|].
  exact (proj1 project_onto_l1_ball_identity [1; -2; 3]%float 10%float H).
Defined.

(** C8 fails on the code: the floats next to 0.2, 0.4 and 0.3 add up,
    exactly, to the float next to 0.9, so [v] lies in the ball of that
    radius; the computed sum is one unit in the last place larger, the call
    takes the general path, finds a negative threshold and returns a vector
    that differs from [v] in every entry. *)
Lemma project_onto_l1_ball_identity_counterexample :
  let v := [0x1.999999999999ap-3; 0x1.999999999999ap-2; 0x1.3333333333333p-2]%float in
  let N := 0x1.ccccccccccccdp-1%float in
  (norm1 (map Binary64.exact v) <= Binary64.exact N)%Q /\
  Binary64.l1_threshold (Binary64.np_abs v) N = Ok (3%Z, (-0x1.5555555555555p-55)%float) /\
  Binary64.project_onto_l1_ball v N
  = Ok [0x1.999999999999bp-3; 0x1.999999999999bp-2; 0x1.3333333333334p-2]%float /\
  Binary64.project_onto_l1_ball v N <> Ok v.
Proof.
  cbv zeta. split; [vm_compute; discriminate|].
  split; [vm_compute; reflexivity|].
  split; [vm_compute; reflexivity|].
  intros H.
  apply (f_equal (fun r => match r with
                           | Ok (a :: _) => (a <=? 0x1.999999999999ap-3)%float
                           | _ => false
                           end)) in H.
  vm_compute in H. discriminate.
Qed.

(** ** Binary64: signs of the result *)









(** The only exception the projector raises is [IndexError], raised
    exactly when the computed norm is not at most [N] and no index passes
    the threshold test; a result has the length of the input. *)
Theorem project_onto_l1_ball_failure (v : Binary64.vec) (N : float) :
  (Binary64.project_onto_l1_ball v N = Raise IndexError
   <-> (Binary64.norm1 v <=? N)%float = false /\
       forall i, (1 <= i <= length v)%nat ->
         Binary64.Spec.test (rev (Binary64.np_sort (Binary64.np_abs v))) N i
         = false) /\
  (forall e, Binary64.project_onto_l1_ball v N = Raise e -> e = IndexError) /\
  (forall out, Binary64.project_onto_l1_ball v N = Ok out ->
               length out = length v).
Proof.
  assert (Hlen : length (rev (Binary64.np_sort (Binary64.np_abs v))) = length v).
  { rewrite <- (Permutation_length (f64_sorted_perm (Binary64.np_abs v))).
    apply length_map. }
  destruct (f64_project_cases v N)
    as [[Hg E]|[(Hg & Hall & E)|(Hg & rho & Hrho & E)]]; rewrite E.
  - split; [|split].
    + split; [discriminate | intros [H _]; congruence].
    + discriminate.
    + now intros out [= <-].
  - split; [|split].
    + split; [|reflexivity]. intros _. split; [exact Hg|].
      intros i Hi. apply Hall. lia.
    + now intros e [= <-].
    + discriminate.
  - split; [|split].
    + split; [discriminate|]. intros [_ H].
      destruct Hrho as (Hr & Ht & _). rewrite H in Ht by lia. discriminate.
    + discriminate.
    + intros out [= <-]. apply length_map.
Qed.

(** ** Binary64: projected gradient descent *)

Lemma f64_norm_as_spec (g : Binary64.vec) :
  Binary64.np_linalg_norm g = Binary64.Spec.norm2 g.
Proof.
  unfold Binary64.np_linalg_norm, Binary64.Spec.norm2, Binary64.dot.
  f_equal. generalize 0%float.
  induction g as [|a g IH]; intros acc; [reflexivity|].
  cbn [zip_with fold_left]. apply IH.
Qed.

Section F64Descent.
Variables (radius : float) (A : Binary64.matrix) (y : Binary64.vec)
          (eta eps : float) (x0 : Binary64.vec).

(** The loop run over the indices [k0, ..., k0 + cnt - 1] from the
    [k0]-th iterate: it stops at the first index whose gradient passes the
    test, or runs out of indices, or ends with the exception of the first
    pass that raises one. *)
Lemma f64_gd_loop_outcome : forall cnt k0 x,
  Binary64.Spec.iterate radius A y eta x0 k0 = Ok x ->
  (exists k x',
      (k0 <= k < k0 + cnt)%nat /\
      Binary64.Spec.converged_at radius A y eta eps x0 k = true /\
      (forall j, (k0 <= j < k)%nat ->
                 Binary64.Spec.converged_at radius A y eta eps x0 j = false) /\
      Binary64.Spec.iterate radius A y eta x0 (S k) = Ok x' /\
      Binary64.gd_loop radius A y eta eps x (map Z.of_nat (seq k0 cnt))
      = Ok (x', [Z.of_nat k]))
  \/ ((forall j, (k0 <= j < k0 + cnt)%nat ->
                 Binary64.Spec.converged_at radius A y eta eps x0 j = false) /\
      exists x',
        Binary64.Spec.iterate radius A y eta x0 (k0 + cnt)%nat = Ok x' /\
        Binary64.gd_loop radius A y eta eps x (map Z.of_nat (seq k0 cnt))
        = Ok (x', []))
  \/ (exists k xk e,
        (k0 <= k < k0 + cnt)%nat /\
        (forall j, (k0 <= j < k)%nat ->
                   Binary64.Spec.converged_at radius A y eta eps x0 j = false) /\
        Binary64.Spec.iterate radius A y eta x0 k = Ok xk /\
        Binary64.Spec.step radius A y eta xk = Raise e /\
        Binary64.gd_loop radius A y eta eps x (map Z.of_nat (seq k0 cnt))
        = Raise e).
Proof.
  induction cnt as [|cnt IH]; intros k0 x Hk0.
  - right. left. split; [intros j Hj; lia|]. exists x.
    rewrite Nat.add_0_r. split; [exact Hk0 | reflexivity].
  - cbn [seq map Binary64.gd_loop].
    assert (Hfail : forall e,
               Binary64.Spec.step radius A y eta x = Raise e ->
               exists k xk e0,
                 (k0 <= k < k0 + S cnt)%nat /\
                 (forall j, (k0 <= j < k)%nat ->
                   Binary64.Spec.converged_at radius A y eta eps x0 j = false) /\
                 Binary64.Spec.iterate radius A y eta x0 k = Ok xk /\
                 Binary64.Spec.step radius A y eta xk = Raise e0 /\
                 Raise e = Raise (A:=Binary64.vec * list Z) e0).
    { intros e He. exists k0, x, e. repeat split; auto; lia. }
    unfold Binary64.Spec.step in Hfail.
    destruct (Binary64.huber_gradient A x y) as [gr|e] eqn:Hg;
      cbn [bind] in *; [|right; right; apply Hfail; reflexivity].
    destruct (Binary64.broadcast2 PrimFloat.sub x (map (PrimFloat.mul eta) gr))
      as [x1|e] eqn:H1;
      cbn [bind] in *; [|right; right; apply Hfail; reflexivity].
    destruct (Binary64.project_onto_l1_ball x1 radius) as [x2|e] eqn:Hp;
      cbn [bind] in *; [|right; right; apply Hfail; reflexivity].
    clear Hfail.
    assert (Hnext : Binary64.Spec.iterate radius A y eta x0 (S k0) = Ok x2).
    { cbn [Binary64.Spec.iterate]. rewrite Hk0. cbn [bind].
      unfold Binary64.Spec.step. rewrite Hg. cbn [bind]. rewrite H1.
      exact Hp. }
    assert (Hconv : Binary64.Spec.converged_at radius A y eta eps x0 k0
                    = (Binary64.Spec.norm2 gr <? eps)%float).
    { unfold Binary64.Spec.converged_at. rewrite Hk0.
      cbn [bind]. now rewrite Hg. }
    rewrite f64_norm_as_spec.
    destruct (Binary64.Spec.norm2 gr <? eps)%float eqn:Ht.
    + left. exists k0, x2. repeat split; auto; lia.
    + destruct (IH (S k0) x2 Hnext)
        as [(k & x' & Hk & Hc & Hbefore & Hit & Hrun)
           |[(Hnone & x' & Hit & Hrun)
            |(k & xk & e & Hk & Hbefore & Hit & Hs & Hrun)]].
      * left. exists k, x'. repeat split; auto; try lia.
        intros j Hj. destruct (Nat.eq_dec j k0) as [->|Hne];
          [exact Hconv | apply Hbefore; lia].
      * right. left. split.
        -- intros j Hj. destruct (Nat.eq_dec j k0) as [->|Hne];
             [exact Hconv | apply Hnone; lia].
        -- exists x'. rewrite Nat.add_succ_r. split; [exact Hit | exact Hrun].
      * right. right. exists k, xk, e. repeat split; auto; try lia.
        intros j Hj. destruct (Nat.eq_dec j k0) as [->|Hne];
          [exact Hconv | apply Hbefore; lia].
Qed.
End F64Descent.

(** C4 (as the code runs it): the iterates are
    [x_{k+1} = Project(x_k - eta g_k, N)] with [g_k] the gradient at [x_k].
    The run ends Converged at the first [k < K] with [||g_k||_2 < eps]
    (the gradient taken before the step and the projection, the test made
    after the projection of that pass), returning [x_{k+1}]; when no
    [k < K] passes the test it ends BudgetExhausted, returning [x_K]; and
    when the gradient, the step or the projection of a pass raises, the run
    ends with that exception and returns nothing.  One run of each kind on
    [A = [[1]]], [y = [1]]. *)
Theorem gradient_descent_outcome :
  (forall (A : Binary64.matrix) (x0 y : Binary64.vec) (eta : float) (K : Z)
          (eps : float),
     let it := Binary64.Spec.iterate Binary64.N A y eta x0 in
     let conv := Binary64.Spec.converged_at Binary64.N A y eta eps x0 in
     (exists k x',
         (Z.of_nat k < K)%Z /\ conv k = true /\
         (forall j, (j < k)%nat -> conv j = false) /\
         it (S k) = Ok x' /\
         Binary64.gradient_descent A x0 y eta K eps = Ok (x', [Z.of_nat k]) /\
         terminal_of [Z.of_nat k] = Spec.Converged)
     \/ ((forall k, (Z.of_nat k < K)%Z -> conv k = false) /\
         exists x',
           it (Z.to_nat K) = Ok x' /\
           Binary64.gradient_descent A x0 y eta K eps = Ok (x', []) /\
           terminal_of [] = Spec.BudgetExhausted)
     \/ (exists k xk e,
           (Z.of_nat k < K)%Z /\
           (forall j, (j < k)%nat -> conv j = false) /\
           it k = Ok xk /\
           Binary64.Spec.step Binary64.N A y eta xk = Raise e /\
           Binary64.gradient_descent A x0 y eta K eps = Raise e)) /\
  (Binary64.gradient_descent
     {| Binary64.ncols := 1; Binary64.rows := [[1]] |} [1] [1] 0x1p-2 5 0x1p-14
   = Ok ([1], [0%Z]) /\
   Binary64.gradient_descent
     {| Binary64.ncols := 1; Binary64.rows := [[1]] |} [0] [1] 0x1p-1 5 0x1p-14
   = Ok ([1], [1%Z]) /\
   Binary64.gradient_descent
     {| Binary64.ncols := 1; Binary64.rows := [[1]] |} [0] [1] 0x1p-2 2 0x1p-14
   = Ok ([0x1.8p-1], []) /\
   Binary64.gradient_descent
     {| Binary64.ncols := 1; Binary64.rows := [[1]] |} [0; 1] [1] 0x1p-2 2 0x1p-14
   = Raise ValueError)%float.
Proof.
  split.
  - intros A x0 y eta K eps it conv.
    unfold Binary64.gradient_descent, range, np_arange.
    destruct (f64_gd_loop_outcome Binary64.N A y eta eps x0 (Z.to_nat K) 0%nat
                x0 eq_refl)
      as [(k & x' & Hk & Hc & Hbefore & Hit & Hrun)
         |[(Hnone & x' & Hit & Hrun)
          |(k & xk & e & Hk & Hbefore & Hit & Hs & Hrun)]].
    + left. exists k, x'. repeat split; auto; try lia.
      intros j Hj. apply Hbefore. lia.
    + right. left. split; [intros k Hk; apply Hnone; lia|].
      exists x'. repeat split; auto.
    + right. right. exists k, xk, e. repeat split; auto; try lia.
      intros j Hj. apply Hbefore. lia.
  - repeat split; vm_compute; reflexivity.
Qed.

(** C4 fails on the code: on [A = [[1]]], [x0 = [0]], [y = [1]] with the
    step [1e17] and a budget of one pass, shapes match and the gradient
    [-2] does not pass the test, so the claim has the run end
    BudgetExhausted with the last iterate; but the step leads to [2e17],
    where [cumsum - N] rounds to [2e17], no index passes the threshold test
    of the projection, and the run ends with [IndexError]. *)
Lemma gradient_descent_raises :
  let A := {| Binary64.ncols := 1; Binary64.rows := [[1%float]] |} in
  Binary64.huber_gradient A [0%float] [1%float] = Ok [(-2)%float] /\
  Binary64.Spec.converged_at Binary64.N A [1%float] 1e17%float 0x1p-14%float
                             [0%float] 0 = false /\
  Binary64.project_onto_l1_ball [2e17%float] Binary64.N = Raise IndexError /\
  Binary64.gradient_descent A [0%float] [1%float] 1e17%float 1 0x1p-14%float
  = Raise IndexError.
Proof. cbv zeta. repeat split; vm_compute; reflexivity. Qed.

(** ** Binary64: the radius *)

(** C5 (as the code runs it): the projector validates nothing and never
    replaces the radius by another.  With a radius [N <= 0] it runs as with
    any radius: it returns [v] unchanged when the computed L1 norm of [v]
    is at most [N] (then [N] and the computed norm are zero), and otherwise
    searches the threshold for the radius [N], which raises [IndexError]
    when no index passes the test and returns the thresholded vector when
    one does. *)
Theorem project_onto_l1_ball_nonpositive_radius (v : Binary64.vec) (N : float) :
  (N <=? 0)%float = true ->
  let s := rev (Binary64.np_sort (Binary64.np_abs v)) in
  ((Binary64.norm1 v <=? N)%float = true /\
   (N =? 0)%float = true /\ (Binary64.norm1 v =? 0)%float = true /\
   Binary64.project_onto_l1_ball v N = Ok v)
  \/ ((Binary64.norm1 v <=? N)%float = false /\
      (forall i, (1 <= i <= length s)%nat -> Binary64.Spec.test s N i = false) /\
      Binary64.project_onto_l1_ball v N = Raise IndexError)
  \/ ((Binary64.norm1 v <=? N)%float = false /\
      exists rho,
        Binary64.Spec.is_rho s N rho /\
        Binary64.project_onto_l1_ball v N
        = Ok (Binary64.Spec.output v (Binary64.Spec.theta s N rho))).
Proof.
  intros HN s.
  destruct (f64_project_cases v N) as [[Hg E]|H]; [|right; exact H].
  left. destruct (f64_fast_path_zero v N HN Hg) as [H1 H2]. auto.
Qed.

Lemma project_onto_l1_ball_nonpositive_radius_witness :
  (-1 <=? 0)%float = true /\
  (Binary64.norm1 [3] <=? -1)%float = false /\
  (forall i, (1 <= i <= 1)%nat ->
     Binary64.Spec.test (rev (Binary64.np_sort (Binary64.np_abs [3]%float)))
                        (-1)%float i = false) /\
  Binary64.project_onto_l1_ball [3]%float (-1)%float = Raise IndexError.
Proof.
  assert (HN : (-1 <=? 0)%float = true) by reflexivity.
  split; [exact HN|].
  destruct (project_onto_l1_ball_nonpositive_radius [3]%float (-1)%float HN)
    as [(Hg & _)|[H|(_ & rho & _ & E)]].
  - exfalso. vm_compute in Hg. discriminate.
  - exact H.
  - exfalso. vm_compute in E. discriminate.
Defined.

(** C5 fails on the code: with the radius 0 the all-zero vector is returned
    and nothing is raised, and with the radius -1 the failure is the
    [IndexError] of the threshold search; in exact arithmetic and in
    binary64 alike. *)
Lemma project_onto_l1_ball_no_validation :
  (0 <= 0 /\ project_onto_l1_ball [0] 0 = Ok [0] /\
   -1 <= 0 /\ project_onto_l1_ball [3] (-1) = Raise IndexError) /\
  ((0 <=? 0)%float = true /\
   Binary64.project_onto_l1_ball [0%float] 0%float = Ok [0%float] /\
   (-1 <=? 0)%float = true /\
   Binary64.project_onto_l1_ball [3%float] (-1)%float = Raise IndexError).
Proof. vm_compute. repeat split; discriminate. Qed.

(** The three outcomes at radii [N <= 0]: the zero vector comes back with
    [N = 0]; [IndexError] with [v = [3]], [N = -1]; and with [N = 0] and
    three times the float next to 0.7, where the running sums round, an
    index passes the test and a vector of [2^-53] is returned. *)
Lemma project_onto_l1_ball_radius_zero :
  Binary64.project_onto_l1_ball [0]%float 0%float = Ok [0]%float /\
  Binary64.project_onto_l1_ball [3]%float (-1)%float = Raise IndexError /\
  Binary64.project_onto_l1_ball
    [0x1.6666666666666p-1; 0x1.6666666666666p-1; 0x1.6666666666666p-1]%float
    0%float
  = Ok [0x1p-53; 0x1p-53; 0x1p-53]%float.
Proof. repeat split; vm_compute; reflexivity. Qed.

(** C7: in exact arithmetic the projection onto a ball of positive radius
    returns a vector whose L1 norm is at most [N].  As the code runs it,
    the vector returned by the norm test has a computed norm of at most
    [N]; what the threshold search returns is the thresholded vector, with
    no bound on its norm. *)
Theorem project_onto_l1_ball_feasible :
  (forall (v : vec) (N : Q),
     0 < N ->
     exists out, project_onto_l1_ball v N = Ok out /\ norm1 out <= N) /\
  (forall (v out : Binary64.vec) (N : float),
     Binary64.project_onto_l1_ball v N = Ok out ->
     (out = v /\ (Binary64.norm1 out <=? N)%float = true)
     \/ ((Binary64.norm1 v <=? N)%float = false /\
         exists rho,
           Binary64.Spec.is_rho
             (rev (Binary64.np_sort (Binary64.np_abs v))) N rho /\
           out = Binary64.Spec.output v
                   (Binary64.Spec.theta
                      (rev (Binary64.np_sort (Binary64.np_abs v))) N rho))).
Proof.
  split.
  - intros v N HN. destruct (project_total v N HN) as (out & E & _ & Hn).
    exists out. split; assumption.
  - intros v out N H.
    destruct (f64_project_cases v N)
      as [[Hg E]|[(_ & _ & E)|(Hg & rho & Hrho & E)]];
      rewrite E in H; [|discriminate|]; injection H as <-.
    + left. split; [reflexivity | exact Hg].
    + right. split; [exact Hg|]. exists rho. split; [exact Hrho | reflexivity].
Qed.

Lemma project_onto_l1_ball_feasible_witness :
  (0 < 5 /\
   exists out, project_onto_l1_ball [4; -3; 2] 5 = Ok out /\ norm1 out <= 5) /\
  (Binary64.project_onto_l1_ball [1; -2; 3]%float 10%float
   = Ok [1; -2; 3]%float /\
   (Binary64.norm1 [1; -2; 3] <=? 10)%float = true).
Proof.
  assert (H : 0 < 5) by reflexivity.
  assert (E : Binary64.project_onto_l1_ball [1; -2; 3]%float 10%float
              = Ok [1; -2; 3]%float) by reflexivity.
  split.
  - split; [exact H | exact (proj1 project_onto_l1_ball_feasible [4; -3; 2] 5 H)].
  - split; [exact E|].
    destruct (proj2 project_onto_l1_ball_feasible _ _ _ E) as [[_ Hn]|[Hg _]].
    + exact Hn.
    + exfalso. vm_compute in Hg. discriminate.
Defined.

(** C7 fails on the code: with the radius 1 and [v = [1e16 + 2]] the
    difference [cumsum - N] rounds to [1e16], the threshold is [1e16] and
    the result [[2]], of norm [2 N]; with [v = [1e17]] the call raises
    [IndexError] and returns nothing; and at [v = [4, -3, 2]], [N = 5] the
    norm of the result exceeds 5 by rounding. *)
Lemma project_onto_l1_ball_feasible_counterexample :
  ((0 <? 1)%float = true /\
   Binary64.project_onto_l1_ball [10000000000000002%float] 1%float
   = Ok [2%float] /\
   (Binary64.norm1 [2] <=? 1)%float = false /\
   Binary64.exact 1 + Binary64.exact 1
   <= norm1 (map Binary64.exact [2%float])) /\
  Binary64.project_onto_l1_ball [1e17%float] 1%float = Raise IndexError /\
  (exists out,
     Binary64.project_onto_l1_ball [4; -3; 2]%float 5%float = Ok out /\
     (Binary64.norm1 out <=? 5)%float = false /\
     Binary64.exact 5 < norm1 (map Binary64.exact out)).
Proof.
  split; [|split].
  - repeat split; vm_compute; try reflexivity. discriminate.
  - vm_compute. reflexivity.
  - eexists. split; [vm_compute; reflexivity|].
    split; vm_compute; reflexivity.
Qed.
